(** * ToulligQC: the numeric core of [toulligqc/plotly_graph_common.py]

    A shallow embedding of the four numeric helpers of the plotting-support
    module

      - [_interpolate]                 (Resampler),
      - [_smooth_data]                 (DistributionSmoother),
      - [_precompute_boxplot_values]   (QuantileSummarizer),
      - [_over_time_graph]             (TimeBinner, lines 292-315, the part
                                        before the figure is drawn),

    together with the numpy, pandas, scipy and scikit-learn primitives
    they call, and the properties stated about them.

    The other numeric code of the module is embedded as well:
    [_transparent_component] and [_transparent_colors], the percentage
    column of [_pie_chart_graph], the read-length summary of
    [_barcode_boxplot_graph], and the curves and threshold lines of
    [_read_length_distribution] and [_phred_score_density]; and, from
    [toulligqc/plotly_graph_generator.py], the data preparation of the
    callers [read_quality_multiboxplot], [all_scatterplot] and
    [yield_plot], with [_minion_flowcell_layout] and the table of
    [plot_performance].  Of these functions only the computations are
    modelled, not the drawing of the figures.

    Numbers.  A Python float is modelled by [float]: a rational, one of the
    two infinities, or NaN.  Arithmetic on the rationals is exact (rounding
    is not modelled), the special values follow IEEE 754, and zero carries
    no sign.

    Exceptions.  A Python call that may raise returns a [result].

    Libraries.  [np.linspace], [np.digitize], [np.sort], [np.percentile],
    [np.histogram], [np.cumsum], [argmin], the reductions, [Series.dropna],
    [Series.quantile], [gaussian_filter1d], [resample], [hex] and [int] on
    a float are written out after their documented behaviour.  Five
    functions are parameters of the development: [numpy.exp], [math.sqrt],
    the index draw of the random generator, [scipy.interpolate.interp1d]
    and [int(s, 16)]. *)

From Stdlib Require Import QArith Qround ZArith List Bool Arith Lia Lqa.
From Stdlib Require Import Sorted Permutation.
From Stdlib Require String Ascii HexString.
Import ListNotations.

Set Implicit Arguments.

(* ================================================================== *)
(** * Exceptions *)
(* ================================================================== *)

Inductive exn : Type :=
| IndexError
| ValueError
| ZeroDivisionError
| NotImplementedError.

Inductive result (A : Type) : Type :=
| Ok (a : A)
| Raise (e : exn).

Arguments Ok {A} a.
Arguments Raise {A} e.

Definition bind {A B : Type} (m : result A) (k : A -> result B) : result B :=
  match m with
  | Ok a => k a
  | Raise e => Raise e
  end.

Notation "x <- m ;; k" := (bind m (fun x => k))
  (at level 61, m at next level, right associativity).
Notation "' pat <- m ;; k" := (bind m (fun r => match r with pat => k end))
  (at level 61, pat pattern, m at next level, right associativity).

(** [for v in l: acc = body(acc, v)], stopping at the first exception. *)
Fixpoint foldM {A S : Type} (body : S -> A -> result S) (l : list A) (s : S)
  : result S :=
  match l with
  | [] => Ok s
  | v :: l' => s' <- body s v ;; foldM body l' s'
  end.

(** [[f(v) for v in l]], stopping at the first exception. *)
Fixpoint mapM {A B : Type} (f : A -> result B) (l : list A) : result (list B) :=
  match l with
  | [] => Ok []
  | v :: l' => b <- f v ;; bs <- mapM f l' ;; Ok (b :: bs)
  end.

(* ================================================================== *)
(** * Floats *)
(* ================================================================== *)

Inductive float : Type :=
| NaN
| Inf (neg : bool)
| Fin (q : Q).

Declare Scope float_scope.
Delimit Scope float_scope with float.
Bind Scope float_scope with float.

Definition of_Z (z : Z) : float := Fin (inject_Z z).
Definition of_nat (n : nat) : float := of_Z (Z.of_nat n).

Definition isnan (a : float) : bool :=
  match a with NaN => true | _ => false end.

Definition isfinite (a : float) : bool :=
  match a with Fin _ => true | _ => false end.

(** A "real number or missing value" of the data model: no infinity. *)
Definition isreal_or_nan (a : float) : bool :=
  match a with Inf _ => false | _ => true end.

Definition Qneg (q : Q) : bool := negb (Qle_bool 0 q).
Definition Qzero (q : Q) : bool := Qeq_bool q 0.

Definition fopp (a : float) : float :=
  match a with
  | NaN => NaN
  | Inf s => Inf (negb s)
  | Fin q => Fin (- q)
  end.

Definition fadd (a b : float) : float :=
  match a, b with
  | NaN, _ | _, NaN => NaN
  | Inf s, Inf s' => if Bool.eqb s s' then Inf s else NaN
  | Inf s, Fin _ | Fin _, Inf s => Inf s
  | Fin p, Fin q => Fin (p + q)
  end.

Definition fsub (a b : float) : float := fadd a (fopp b).

Definition fmul (a b : float) : float :=
  match a, b with
  | NaN, _ | _, NaN => NaN
  | Inf s, Inf s' => Inf (xorb s s')
  | Inf s, Fin q | Fin q, Inf s =>
      if Qzero q then NaN else Inf (xorb s (Qneg q))
  | Fin p, Fin q => Fin (p * q)
  end.

(** Array (numpy) division: dividing by zero yields an infinity or NaN. *)
Definition fdiv (a b : float) : float :=
  match a, b with
  | NaN, _ | _, NaN => NaN
  | Inf _, Inf _ => NaN
  | Inf s, Fin q => Inf (xorb s (Qneg q))
  | Fin _, Inf _ => Fin 0
  | Fin p, Fin q =>
      if Qzero q then (if Qzero p then NaN else Inf (Qneg p))
      else Fin (p / q)
  end.

(** IEEE comparisons: every comparison with NaN is false. *)
Definition flt (a b : float) : bool :=
  match a, b with
  | NaN, _ | _, NaN => false
  | Inf s, Inf s' => s && negb s'
  | Inf s, Fin _ => s
  | Fin _, Inf s => negb s
  | Fin p, Fin q => negb (Qle_bool q p)
  end.

Definition fle (a b : float) : bool :=
  match a, b with
  | NaN, _ | _, NaN => false
  | Inf s, Inf s' => s || negb s'
  | Inf s, Fin _ => s
  | Fin _, Inf s => negb s
  | Fin p, Fin q => Qle_bool p q
  end.

Definition feqb (a b : float) : bool :=
  match a, b with
  | NaN, _ | _, NaN => false
  | Inf s, Inf s' => Bool.eqb s s'
  | Fin p, Fin q => Qeq_bool p q
  | _, _ => false
  end.

Definition fgt (a b : float) : bool := flt b a.
Definition fge (a b : float) : bool := fle b a.

Infix "+" := fadd : float_scope.
Infix "-" := fsub : float_scope.
Infix "*" := fmul : float_scope.
Infix "/" := fdiv : float_scope.
Infix "<?" := flt : float_scope.
Infix "<=?" := fle : float_scope.
Infix "==?" := feqb (at level 70) : float_scope.

(** Order and equality as propositions. *)
Definition Flt (a b : float) : Prop := flt a b = true.
Definition Fle (a b : float) : Prop := fle a b = true.
Definition Feq (a b : float) : Prop := feqb a b = true.

Definition floor_Z (q : Q) : Z := Qfloor q.

(** Python's builtin [min] / [max] over an iterable: the first item is
    kept until a strictly smaller (larger) one is met. *)
Definition py_min (l : list float) : result float :=
  match l with
  | [] => Raise ValueError
  | v :: l' => Ok (fold_left (fun cur item => if flt item cur then item else cur) l' v)
  end.

Definition py_max (l : list float) : result float :=
  match l with
  | [] => Raise ValueError
  | v :: l' => Ok (fold_left (fun cur item => if fgt item cur then item else cur) l' v)
  end.

(** Python's two-argument [min(a, b)] and [max(a, b)]. *)
Definition py_min2 (a b : float) : float := if flt b a then b else a.
Definition py_max2 (a b : float) : float := if fgt b a then b else a.

(* ================================================================== *)
(** * numpy *)
(* ================================================================== *)

(** The order numpy sorts and searches with: the IEEE order, with NaN
    after everything else. *)
Definition np_less (a b : float) : bool :=
  flt a b || (isnan b && negb (isnan a)).

(** Element-wise [np.minimum] / [np.maximum] (NaN propagates) and
    [np.fmin] / [np.fmax] (NaN is ignored when possible). *)
Definition np_minimum (a b : float) : float := if flt a b || isnan a then a else b.
Definition np_maximum (a b : float) : float := if fge a b || isnan a then a else b.
Definition np_fmin (a b : float) : float := if fle a b || isnan b then a else b.
Definition np_fmax (a b : float) : float := if fge a b || isnan b then a else b.

Definition reduce (op : float -> float -> float) (a : list float) : result float :=
  match a with
  | [] => Raise ValueError
  | v :: a' => Ok (fold_left op a' v)
  end.

(** [a.min()], [a.max()], [np.nanmin(a)], [np.nanmax(a)]. *)
Definition np_min : list float -> result float := reduce np_minimum.
Definition np_max : list float -> result float := reduce np_maximum.
Definition np_nanmin : list float -> result float := reduce np_fmin.
Definition np_nanmax : list float -> result float := reduce np_fmax.

(** [a[i]] with a non-negative index. *)
Definition getitem {A : Type} (a : list A) (i : nat) : result A :=
  match nth_error a i with
  | Some v => Ok v
  | None => Raise IndexError
  end.

(** [a[-1] = v] on a non-empty array. *)
Definition set_last (a : list float) (v : float) : list float :=
  removelast a ++ [v].

(** [np.linspace(start, stop, num)] with [endpoint=True]. *)
Definition linspace (start stop : float) (num : nat) : list float :=
  let div := (num - 1)%nat in
  let delta := (stop - start)%float in
  let y := map of_nat (seq 0 num) in
  let y :=
    if (0 <? div)%nat then
      let step := (delta / of_nat div)%float in
      if feqb step (Fin 0)
      then map (fun v => (v / of_nat div * delta)%float) y
      else map (fun v => (v * step)%float) y
    else map (fun v => (v * delta)%float) y in
  let y := map (fun v => (v + start)%float) y in
  if (1 <? num)%nat then set_last y stop else y.

(** [np.searchsorted(a, v, side='left')]: the leftmost insertion point,
    the number of leading elements below [v]. *)
Fixpoint searchsorted_left (a : list float) (v : float) : nat :=
  match a with
  | [] => 0
  | e :: a' => if np_less e v then S (searchsorted_left a' v) else 0
  end.

(** The monotonicity test of [np.digitize]: 1 for increasing (or
    constant) bins, -1 for decreasing bins, 0 otherwise. *)
Fixpoint skip_repeated (last : float) (a : list float) : list float :=
  match a with
  | [] => []
  | e :: a' => if feqb e last then skip_repeated last a' else a
  end.

Fixpoint never (bad : float -> float -> bool) (last : float) (a : list float) : bool :=
  match a with
  | [] => true
  | next :: a' => if bad last next then false else never bad next a'
  end.

Definition monotonicity (a : list float) : Z :=
  match a with
  | [] => 1
  | last :: a' =>
      match skip_repeated last a' with
      | [] => 1
      | next :: rest =>
          if flt last next
          then (if never fgt next rest then 1 else 0)
          else (if never flt next rest then -1 else 0)
      end
  end%Z.

(** [np.digitize(x, bins, right=True)]. *)
Definition digitize_right (x bins : list float) : result (list nat) :=
  let mono := monotonicity bins in
  if (mono =? 0)%Z then Raise ValueError
  else if (mono =? -1)%Z
       then Ok (map (fun v => (length bins - searchsorted_left (rev bins) v)%nat) x)
       else Ok (map (searchsorted_left bins) x).

(** [np.sort]: ascending in numpy's order, NaN last. *)
Fixpoint insert_sorted (v : float) (a : list float) : list float :=
  match a with
  | [] => [v]
  | e :: a' => if np_less v e then v :: a else e :: insert_sorted v a'
  end.

Definition np_sort (a : list float) : list float :=
  fold_right insert_sorted [] a.

(** The interpolation step of [np.percentile]. *)
Definition lerp (a b t : float) : float :=
  let diff_b_a := (b - a)%float in
  if fge t (Fin 0.5)
  then (b - diff_b_a * (Fin 1 - t))%float
  else (a + diff_b_a * t)%float.

(** [np.percentile(a, q)] for a one-dimensional [a] and a scalar
    [0 <= q <= 100], default method (linear interpolation between the two
    nearest order statistics).  A NaN anywhere in [a] gives NaN. *)
Definition percentile (a : list float) (q : Q) : float :=
  let n := length a in
  if existsb isnan a then NaN
  else
    let arr := np_sort a in
    let virtual := (inject_Z (Z.of_nat (n - 1)) * (q / 100))%Q in
    let above := Qle_bool (inject_Z (Z.of_nat (n - 1))) virtual in
    let previous_index := if above then (n - 1)%nat else Z.to_nat (floor_Z virtual) in
    let next_index := if above then (n - 1)%nat else S previous_index in
    let gamma :=
      if above then (virtual + 1)%Q
      else (virtual - inject_Z (Z.of_nat previous_index))%Q in
    lerp (nth previous_index arr NaN) (nth next_index arr NaN) (Fin gamma).

(** [np.histogram(a, bins, density=True)[0]] for an array of bin edges.
    Every bin is half-open on the right, except the last one. *)
Fixpoint increasing_edges (bins : list float) : bool :=
  match bins with
  | e :: ((e' :: _) as bins') => negb (fgt e e') && increasing_edges bins'
  | _ => true
  end.

Definition count_below (a : list float) (edge : float) : Z :=
  Z.of_nat (length (filter (fun v => np_less v edge) a)).

Definition count_upto (a : list float) (edge : float) : Z :=
  Z.of_nat (length (filter (fun v => negb (np_less edge v)) a)).

Fixpoint cumulative (a : list float) (bins : list float) : list Z :=
  match bins with
  | [] => []
  | [e] => [count_upto a e]
  | e :: bins' => count_below a e :: cumulative a bins'
  end.

Fixpoint diff {A : Type} (sub : A -> A -> A) (l : list A) : list A :=
  match l with
  | a :: ((b :: _) as l') => sub b a :: diff sub l'
  | _ => []
  end.

Definition histogram_density (a bins : list float) : result (list float) :=
  if negb (increasing_edges bins) then Raise ValueError
  else
    let n := diff Z.sub (cumulative a bins) in
    let db := diff fsub bins in
    let total := of_Z (fold_left Z.add n 0%Z) in
    Ok (map (fun '(ni, dbi) => (of_Z ni / dbi / total)%float) (combine n db)).

(* ================================================================== *)
(** * pandas *)
(* ================================================================== *)

(** [Series.dropna()]. *)
Definition dropna (y : list float) : list float :=
  filter (fun v => negb (isnan v)) y.

(** [Series.quantile(q)]: missing values are skipped, an empty series
    gives NaN. *)
Definition quantile (y : list float) (q : Q) : float :=
  match dropna y with
  | [] => NaN
  | vals => percentile vals (q * 100)
  end.

(* ================================================================== *)
(** * The plotting-support module *)
(* ================================================================== *)

(** The record returned by [_precompute_boxplot_values]. *)
Module BoxplotValues.
Record t : Type := dict {
  min : float;
  lowerfence : float;
  q1 : float;
  median : float;
  q3 : float;
  upperfence : float;
  max : float;
  notchspan : float
}.
End BoxplotValues.

(** What [_interpolate] returns: one sorted array, or a pair of series. *)
Inductive interpolated : Type :=
| Resampled (v : list float)
| Interpolated (x_int y_int : list float).

(** A [defaultdict(list)] keyed by floats, in insertion order.  Keys are
    compared with [==], so a NaN key is never found again. *)
Definition defaultdict : Type := list (float * list float).

Fixpoint dict_get (d : defaultdict) (b : float) : option (list float) :=
  match d with
  | [] => None
  | (k, obs) :: d' => if feqb k b then Some obs else dict_get d' b
  end.

(** [d[b].append(val)]. *)
Fixpoint dict_append (d : defaultdict) (b val : float) : defaultdict :=
  match d with
  | [] => [(b, [val])]
  | (k, obs) :: d' =>
      if feqb k b then (k, obs ++ [val]) :: d'
      else (k, obs) :: dict_append d' b val
  end.

Definition percentiles : list Q := [0; 25; 50; 75; 100]%Q.

Section PlotlyGraphCommon.

(** Library functions that are taken as given: [numpy.exp], [math.sqrt],
    [RandomState(seed).randint(low, high, size)] and
    [scipy.interpolate.interp1d(x, y, kind, axis)]. *)
Variable exp : float -> float.
Variable sqrt : float -> float.
Variable randint : nat -> nat -> nat -> nat -> result (list nat).
Variable interp1d :
  list float -> list float -> option String.string -> Z ->
  result (list float -> result (list float)).

(** ** scipy.ndimage *)

(** The normalised Gaussian kernel on [-radius .. radius]. *)
Definition gaussian_kernel1d (sigma radius : nat) : result (list float) :=
  let sigma2 := (sigma * sigma)%nat in
  if (sigma2 =? 0)%nat then Raise ZeroDivisionError
  else
    let c := (- 0.5 / inject_Z (Z.of_nat sigma2))%Q in
    let x := map (fun i => (Z.of_nat i - Z.of_nat radius)%Z) (seq 0 (2 * radius + 1)) in
    let phi_x := map (fun xi => exp (Fin (c * inject_Z (xi * xi)))) x in
    let total := fold_left fadd phi_x (Fin 0) in
    Ok (map (fun p => (p / total)%float) phi_x).

(** Index of the input cell seen at position [i] under the [reflect]
    boundary mode, (d c b a | a b c d | d c b a), for an input of
    length [n]. *)
Definition reflect_index (n : nat) (i : Z) : nat :=
  let m := Z.to_nat (i mod (2 * Z.of_nat n)) in
  if (m <? n)%nat then m else (2 * n - 1 - m)%nat.

(** [correlate1d(input, weights, mode='reflect')] with the kernel
    centred on each cell. *)
Definition correlate1d (input weights : list float) : list float :=
  let n := length input in
  let size1 := Z.of_nat (length weights / 2) in
  map (fun i =>
         fold_left fadd
           (map (fun '(j, w) =>
                   (w * nth (reflect_index n (Z.of_nat i + Z.of_nat j - size1)) input NaN)%float)
                (combine (seq 0 (length weights)) weights))
           (Fin 0))
      (seq 0 n).

(** [gaussian_filter1d(input, sigma)]: defaults [order=0],
    [mode='reflect'], [truncate=4.0]. *)
Definition gaussian_filter1d (input : list float) (sigma : nat)
  : result (list float) :=
  let lw := (4 * sigma)%nat in
  kernel <- gaussian_kernel1d sigma lw ;;
  let weights := rev kernel in
  Ok (correlate1d input weights).

(** ** sklearn.utils *)

(** [resample(x, n_samples=npoints, random_state=seed)]: a draw with
    replacement. *)
Definition resample (x : list float) (n_samples seed : nat)
  : result (list float) :=
  indices <- randint seed 0 (length x) n_samples ;;
  mapM (getitem x) indices.

(** ** [_interpolate] *)

Definition _interpolate (x : list float) (npoints : nat)
           (y : option (list float)) (interp_type : option String.string) (axis : Z)
  : result interpolated :=
  match y with
  | None =>
      r <- resample x npoints 1 ;;
      Ok (Resampled (np_sort r))
  | Some y =>
      f <- interp1d x y interp_type axis ;;
      lo <- py_min x ;;
      hi <- py_max x ;;
      let x_int := linspace lo hi npoints in
      y_int <- f x_int ;;
      Ok (Interpolated x_int y_int)
  end.

(** ** [_smooth_data] *)

Definition _smooth_data (npoints sigma : nat) (data : list float)
           (min_arg max_arg : option float)
  : result (list float * list float) :=
  min_arg <- match min_arg with
             | None => np_nanmin data
             | Some m => Ok m
             end ;;
  max_arg <- match max_arg with
             | None => np_nanmax data
             | Some m => Ok m
             end ;;
  let bins := linspace min_arg max_arg npoints in
  count_y <- histogram_density data bins ;;
  let count_x := bins in
  let count_x := tl count_x in
  count_y <- gaussian_filter1d
               (map (fun c => (c * of_nat (length data))%float) count_y) sigma ;;
  Ok (count_x, count_y).

(** ** [_precompute_boxplot_values] *)

Definition _precompute_boxplot_values (y : list float)
  : result BoxplotValues.t :=
  let y := dropna y in
  if (length y =? 0)%nat then
    Ok (BoxplotValues.dict (Fin 0) (Fin 0) (Fin 0) (Fin 0)
                           (Fin 0) (Fin 0) (Fin 0) (Fin 0))
  else
    let q1 := quantile y 0.25 in
    let q3 := quantile y 0.75 in
    let iqr := (q3 - q1)%float in
    let upper_fence := (q3 + Fin 1.5 * iqr)%float in
    let lower_fence := (q1 - Fin 1.5 * iqr)%float in
    let notchspan := (Fin 1.57 * iqr / sqrt (of_nat (length y)))%float in
    min_y <- py_min y ;;
    max_y <- py_max y ;;
    Ok (BoxplotValues.dict
          min_y
          (py_max2 lower_fence min_y)
          q1
          (quantile y 0.5)
          q3
          (py_min2 upper_fence max_y)
          max_y
          notchspan).

(** ** [_over_time_graph] *)

(** Line 292: seconds to hours. *)
Definition hours (time_series : list float) : list float :=
  map (fun v => (v / Fin 3600)%float) time_series.

(** Line 293: the bin edges. *)
Definition bin_edges (t : list float) (time_bins : nat) : result (list float) :=
  t_min <- np_min t ;;
  t_max <- np_max t ;;
  Ok (linspace t_min t_max time_bins).

(** Lines 296-299: the dictionary from edge value to observations. *)
Definition fill_bins (x : list float) (t : list nat) (data_series : list float)
  : result defaultdict :=
  foldM (fun bin_dict '(bin_idx, val) =>
           b <- getitem x bin_idx ;;
           Ok (dict_append bin_dict b val))
        (combine t data_series) [].

(** Lines 292-299 together. *)
Definition over_time_bins (data_series time_series : list float) (time_bins : nat)
  : result (list float * defaultdict) :=
  let t := hours time_series in
  x <- bin_edges t time_bins ;;
  t <- digitize_right t x ;;
  bin_dict <- fill_bins x t data_series ;;
  Ok (x, bin_dict).

(** Lines 301-312: the five percentile sequences, one entry per edge. *)
Definition over_time_percentiles (x : list float) (bin_dict : defaultdict)
  : list (list float) :=
  let y := map (fun _ => @nil float) percentiles in
  fold_left
    (fun y b =>
       match dict_get bin_dict b with
       | Some obs =>
           map (fun '(yi, v) => yi ++ [percentile obs v]) (combine y percentiles)
       | None =>
           map (fun yi => yi ++ [NaN]) y
       end)
    x y.

(** Lines 292-315: the x axis and the five smoothed sequences that the
    rest of the function hands to the plotting library. *)
Definition _over_time_graph (data_series time_series : list float)
           (time_bins sigma : nat)
  : result (list float * list (list float)) :=
  '(x, bin_dict) <- over_time_bins data_series time_series time_bins ;;
  let y := over_time_percentiles x bin_dict in
  y <- mapM (fun v => gaussian_filter1d v sigma) y ;;
  Ok (x, y).

End PlotlyGraphCommon.


(* ================================================================== *)
(** * Vocabulary of the properties *)
(* ================================================================== *)

(** Index-wise orderings of a sequence. *)
Definition strictly_increasing (x : list float) : Prop :=
  forall i j a b, (i < j)%nat ->
    nth_error x i = Some a -> nth_error x j = Some b -> Flt a b.

Definition non_decreasing (x : list float) : Prop :=
  forall i j a b, (i < j)%nat ->
    nth_error x i = Some a -> nth_error x j = Some b -> Fle a b.

(** Sorted the way [np.sort] leaves an array: no element is followed by
    one that is below it in numpy's order (NaN last). *)
Definition np_sorted (x : list float) : Prop :=
  forall i j a b, (i < j)%nat ->
    nth_error x i = Some a -> nth_error x j = Some b -> np_less b a = false.

(** The observations whose assigned edge compares equal to [b], in their
    original order. *)
Definition group_of (edges data : list float) (b : float) : list float :=
  map snd (filter (fun '(e, _) => feqb e b) (combine edges data)).

(** The all-zero summary. *)
Definition zero_summary : BoxplotValues.t :=
  BoxplotValues.dict (Fin 0) (Fin 0) (Fin 0) (Fin 0) (Fin 0) (Fin 0) (Fin 0) (Fin 0).

(** What the library parameters are assumed to do.  [randint] draws
    [size] indices in [low, high), and fails on an empty range. *)
Definition randint_spec (randint : nat -> nat -> nat -> nat -> result (list nat)) : Prop :=
  forall seed low high size,
    ((low < high)%nat ->
       exists l, randint seed low high size = Ok l /\ length l = size /\
                 Forall (fun i => (low <= i < high)%nat) l) /\
    ((high <= low)%nat -> (0 < size)%nat ->
       randint seed low high size = Raise ValueError).

(** ** Executable stand-ins for the library parameters

    They are used to run the functions on concrete inputs. *)

(** A rational approximation of the exponential (Taylor polynomial of
    degree 6, inverted on the negative side). *)
Definition taylor6 (q : Q) : Q :=
  (1 + q * (1 + q / 2 * (1 + q / 3 * (1 + q / 4 * (1 + q / 5 * (1 + q / 6))))))%Q.

Definition exp_rational (a : float) : float :=
  match a with
  | NaN => NaN
  | Inf true => Fin 0
  | Inf false => Inf false
  | Fin q => if Qneg q then Fin (Qred (/ taylor6 (- q))) else Fin (Qred (taylor6 q))
  end.

(** A rational approximation of the square root (four Newton steps). *)
Definition newton_step (q r : Q) : Q := Qred ((r + q / r) / 2).

Definition sqrt_rational (a : float) : float :=
  match a with
  | NaN => NaN
  | Inf true => NaN
  | Inf false => Inf false
  | Fin q =>
      if Qneg q then NaN
      else if Qzero q then Fin 0
      else Fin (newton_step q (newton_step q (newton_step q (newton_step q ((q + 1) / 2)))))
  end.

(** A linear congruential generator in place of the Mersenne Twister. *)
Definition randint_lcg (seed low high size : nat) : result (list nat) :=
  if (high <=? low)%nat then Raise ValueError
  else Ok (map (fun i => (low + (75 * (seed + i) + 74) mod (high - low))%nat)
               (seq 0 size)).

(** An interpolant that returns, for every query point, the [y] of the
    first sample whose [x] is not below it (the last [y] otherwise). *)
Fixpoint lookup_step (x y : list float) (v : float) : float :=
  match x, y with
  | xi :: x', yi :: y' =>
      match x' with
      | [] => yi
      | _ => if fle v xi then yi else lookup_step x' y' v
      end
  | _, _ => NaN
  end.

Definition interp1d_step (x y : list float) (kind : option String.string) (axis : Z)
  : result (list float -> result (list float)) :=
  if negb (length x =? length y)%nat then Raise ValueError
  else if (length x =? 0)%nat then Raise ValueError
  else match kind with
       | None => Raise NotImplementedError
       | Some _ => Ok (fun x_new => Ok (map (lookup_step x y) x_new))
       end.

(** ** Auxiliary definitions used in the proofs *)

(** The value [np.linspace] computes at position [i], before the last
    position is overwritten with [stop]. *)
Definition linspace_cell (start stop : float) (num i : nat) : float :=
  let div := (num - 1)%nat in
  let delta := (stop - start)%float in
  ((if (0 <? div)%nat then
      let step := (delta / of_nat div)%float in
      if feqb step (Fin 0)
      then (of_nat i / of_nat div * delta)%float
      else (of_nat i * step)%float
    else (of_nat i * delta)%float) + start)%float.

(** A sequence whose entries are related by [R] whenever the first comes
    before the second. *)
Definition index_sorted {A : Type} (R : A -> A -> Prop) (l : list A) : Prop :=
  forall i j a b, (i < j)%nat ->
    nth_error l i = Some a -> nth_error l j = Some b -> R a b.

(** The edge picked for every observation, and the dictionary filled
    without the index check. *)
Definition edges_of (x : list float) (idxs : list nat) : list float :=
  map (fun i => nth i x NaN) idxs.

Definition fill_pure (pairs : list (float * float)) (d : defaultdict) : defaultdict :=
  fold_left (fun d '(b, v) => dict_append d b v) pairs d.

(** An entry already present, extended by the group [g]. *)
Definition grouped (o : option (list float)) (g : list float) : option (list float) :=
  match o, g with
  | None, [] => None
  | Some obs, _ => Some (obs ++ g)
  | None, _ => Some g
  end.

(** One cell of the percentile table. *)
Definition percentile_cell (d : defaultdict) (p : Q) (b : float) : float :=
  match dict_get d b with
  | Some obs => percentile obs p
  | None => NaN
  end.

(** [b] is the edge of [x] assigned to the time [t]: the closest edge at
    or above [t]; a time exactly on an edge gets that edge. *)
Definition closest_edge_above (x : list float) (t b : float) : Prop :=
  In b x /\ Fle t b /\
  (forall e, In e x -> Fle t e -> Fle b e) /\
  (forall e, In e x -> Feq t e -> Feq b e).

(** The percentile table as the specification describes it: at every edge, the
    percentiles of the observations grouped under that edge value, or
    NaN when there is none. *)
Definition percentile_table (x edges data : list float) : list (list float) :=
  map (fun p =>
         map (fun b => match group_of edges data b with
                       | [] => NaN
                       | g => percentile g p
                       end) x)
      [0; 25; 50; 75; 100]%Q.

(** The value [np.percentile] interpolates in a sorted vector of
    rationals at the fractional position [v]. *)
Definition qinterp (ss : list Q) (v : Q) : Q :=
  let n := length ss in
  let above := Qle_bool (inject_Z (Z.of_nat (n - 1))) v in
  let previous_index := if above then (n - 1)%nat else Z.to_nat (floor_Z v) in
  let next_index := if above then (n - 1)%nat else S previous_index in
  let gamma :=
    if above then (v + 1)%Q
    else (v - inject_Z (Z.of_nat previous_index))%Q in
  (nth previous_index ss 0 + (nth next_index ss 0 - nth previous_index ss 0) * gamma)%Q.

(** A range as [np.nanmin] / [np.nanmax] deliver it on real data: both
    ends NaN (no value at all), or two finite ends in order. *)
Definition nan_range (lo hi : float) : Prop :=
  (lo = NaN /\ hi = NaN) \/
  (exists a b, lo = Fin a /\ hi = Fin b /\ (a <= b)%Q).

(** The interpolation kind the callers ask for. *)
Module Kind.
Import String.
Definition nearest : string := "nearest".
End Kind.

(** ** Vocabulary of the further properties *)

(** No two keys of the dictionary compare equal. *)
Definition keys_distinct (d : defaultdict) : Prop :=
  ForallOrdPairs (fun kv kv' => feqb (fst kv) (fst kv') = false) d.

(** All the observations kept in the dictionary. *)
Definition dict_values (d : defaultdict) : list float :=
  concat (map snd d).

(** Sum of a list of rationals. *)
Definition Qsum (l : list Q) : Q := fold_right Qplus 0 l.

(** [q] lies in the finite range [lo, hi]. *)
Definition within (lo hi : float) (q : Q) : Prop :=
  exists a b, lo = Fin a /\ hi = Fin b /\ (a <= q)%Q /\ (q <= b)%Q.

(** ** Callers of the helpers *)

(** The row count above which the callers resample their data. *)
Definition interpolation_threshold : nat := 10 * 1000.

(** A summary whose fields, the notch span apart, are finite, in order,
    and lie between two values of [V]. *)
Definition summary_within (V : list float) (d : BoxplotValues.t) : Prop :=
  exists m lf r1 r2 r3 uf M,
    BoxplotValues.min d = Fin m /\ BoxplotValues.lowerfence d = Fin lf /\
    BoxplotValues.q1 d = Fin r1 /\ BoxplotValues.median d = Fin r2 /\
    BoxplotValues.q3 d = Fin r3 /\ BoxplotValues.upperfence d = Fin uf /\
    BoxplotValues.max d = Fin M /\
    In (Fin m) V /\ In (Fin M) V /\
    (m <= lf)%Q /\ (lf <= r1)%Q /\ (r1 <= r2)%Q /\ (r2 <= r3)%Q /\
    (r3 <= uf)%Q /\ (uf <= M)%Q.

Section Callers.

Variable sqrt : float -> float.
Variable randint : nat -> nat -> nat -> nat -> result (list nat).
Variable interp1d :
  list float -> list float -> option String.string -> Z ->
  result (list float -> result (list float)).

(** The array [_interpolate] returns when it is called without [y] (the
    pair of series does not occur on that path). *)
Definition resampled_array (r : interpolated) : list float :=
  match r with
  | Resampled v => v
  | Interpolated x_int _ => x_int
  end.

(** [read_quality_multiboxplot] of [plotly_graph_generator], lines
    383-390 and 405-406.  The arguments are the columns "1D", "1D pass"
    and "1D fail" of the frame [df]; the result lists the summary of
    every column of [dataframe]. *)
Definition read_quality_multiboxplot (all pass fail : list float)
  : result (list BoxplotValues.t) :=
  dataframe <-
    (if (interpolation_threshold <? length all)%nat then
       a <- _interpolate randint interp1d all 1000 None None (-1) ;;
       p <- _interpolate randint interp1d pass 1000 None None (-1) ;;
       f <- _interpolate randint interp1d fail 1000 None None (-1) ;;
       Ok [resampled_array a; resampled_array p; resampled_array f]
     else Ok [all; pass; fail]) ;;
  mapM (_precompute_boxplot_values sqrt) dataframe.

(** [_barcode_boxplot_graph], lines 452-453 (read lengths): the rows of
    the barcode column that are not above 0 are left without a value,
    and the column is summarised. *)
Definition positive_only (column : list float) : list float :=
  map (fun v => if fgt v (Fin 0) then v else NaN) column.

Definition barcode_length_summary (column : list float)
  : result BoxplotValues.t :=
  _precompute_boxplot_values sqrt (positive_only column).

End Callers.

(** ** Colours *)

(** [int(v)] on a finite float: truncation towards zero. *)
Definition py_int (q : Q) : Z :=
  if Qle_bool 0 q then Qfloor q else Qceiling q.

Module Colors.
Import Ascii String.
Local Open Scope string_scope.

(** [hex(n)]: lower case, with the prefix 0x after the sign. *)
Definition hex (n : Z) : string := HexString.of_Z n.

(** [s[i:]]. *)
Definition slice_from (s : string) (i : nat) : string :=
  substring i (length s - i) s.

(** [_transparent_component], for a finite [a]. *)
Definition _transparent_component (c b : Z) (a : Q) : string :=
  let v := ((1 - a) * inject_Z c + a * inject_Z b)%Q in
  let r := slice_from (hex (py_int v)) 2 in
  if (length r =? 1)%nat then "0" ++ r else r.

(** The two lower-case hexadecimal digits of a byte. *)
Definition hex_digit (k : Z) : ascii :=
  match get (Z.to_nat k) "0123456789abcdef" with
  | Some ch => ch
  | None => "0"%char
  end.

Definition byte_hex (n : Z) : string :=
  String (hex_digit (n / 16)) (String (hex_digit (n mod 16)) "").

(** The end of [_transparent_component]: the text made from [int(v)]. *)
Definition component_text (n : Z) : string :=
  let r := slice_from (hex n) 2 in
  if (length r =? 1)%nat then "0" ++ r else r.

(** [s[i:j]], for [i <= j]. *)
Definition slice (s : string) (i j : nat) : string :=
  substring i (j - i) s.

Section TransparentColors.

(** [int(s, 16)], taken as given. *)
Variable int16 : string -> result Z.

Definition _transparent_colors (colors : list string) (background_color : string)
           (a : Q) : result (list string) :=
  br <- int16 (slice background_color 1 3) ;;
  bg <- int16 (slice background_color 3 5) ;;
  bb <- int16 (slice background_color 5 7) ;;
  foldM (fun result c =>
           r <- int16 (slice c 1 3) ;;
           g <- int16 (slice c 3 5) ;;
           b <- int16 (slice c 5 7) ;;
           let new_c := (("#" ++ _transparent_component r br a)
                           ++ _transparent_component g bg a)
                          ++ _transparent_component b bb a in
           Ok (result ++ [new_c])%list)
        colors [].

End TransparentColors.

(** The colour text of three components in 0..255. *)
Definition color_of (rgb : Z * Z * Z) : string :=
  let '(r, g, b) := rgb in
  (("#" ++ byte_hex r) ++ byte_hex g) ++ byte_hex b.

Definition hash : string := "#".
Definition zero_x : string := "0x".

(** A reader of hexadecimal digits, in place of [int(s, 16)]. *)
Definition int16_hex (s : string) : result Z :=
  Ok (HexString.to_Z (zero_x ++ s)).

End Colors.

(** The blend of two components, as [_transparent_component] rounds it. *)
Definition blend (a : Q) (c b : Z) : Z :=
  py_int ((1 - a) * inject_Z c + a * inject_Z b).

Definition blend3 (a : Q) (background rgb : Z * Z * Z) : Z * Z * Z :=
  let '(br, bg, bb) := background in
  let '(r, g, b) := rgb in
  (blend a r br, blend a g bg, blend a b bb).

Definition byte3 (rgb : Z * Z * Z) : Prop :=
  let '(r, g, b) := rgb in
  (0 <= r <= 255)%Z /\ (0 <= g <= 255)%Z /\ (0 <= b <= 255)%Z.

(** ** [_pie_chart_graph] *)

(** Line 580: the column "Barcode arrangement (%)" of the table,
    [count_sorted / sum(count_sorted) * 100]. *)
Definition barcode_percentages (count_sorted : list Z) : list float :=
  let total := fold_left Z.add count_sorted 0%Z in
  map (fun c => (of_Z c / of_Z total * Fin 100)%float) count_sorted.

(** ** [yield_plot] of [plotly_graph_generator] *)

(** [np.abs]. *)
Definition fabs (a : float) : float :=
  match a with
  | NaN => NaN
  | Inf _ => Inf false
  | Fin q => Fin (if Qneg q then - q else q)
  end.

(** [np.cumsum]. *)
Fixpoint cumsum_from (acc : float) (a : list float) : list float :=
  match a with
  | [] => []
  | v :: a' => let s := (acc + v)%float in s :: cumsum_from s a'
  end.

Definition np_cumsum (a : list float) : list float :=
  match a with
  | [] => []
  | v :: a' => v :: cumsum_from v a'
  end.

(** [a.argmin()]: the scan keeps the first smallest value, and stops at
    the first NaN, which counts as the minimum. *)
Fixpoint argmin_from (min_ind : nat) (mp : float) (i : nat) (a : list float) : nat :=
  match a with
  | [] => min_ind
  | v :: a' =>
      if isnan mp then min_ind
      else if negb (fge v mp) then argmin_from i v (S i) a'
      else argmin_from min_ind mp (S i) a'
  end.

Definition np_argmin (a : list float) : result nat :=
  match a with
  | [] => Raise ValueError
  | v :: a' => Ok (argmin_from 0 v 1 a')
  end.

(** Lines 253-256: the x position of the threshold line for [p] %. *)
Definition yield_threshold (count_x1 count_y1 : list float) (p : Z) : result float :=
  let y := np_cumsum count_y1 in
  ymax <- py_max y ;;
  index <- np_argmin (map (fun v => fabs (v - ymax * of_Z p / Fin 100)) y) ;;
  getitem count_x1 index.

(** Lines 216-256: the four threshold positions of the yield plot. *)
Definition yield_plot_thresholds (exp : float -> float)
           (all_read read_pass read_fail : list float)
  : result (list float) :=
  '(count_x1, count_y1) <- _smooth_data exp (10 * 1000) 5 all_read None None ;;
  '(count_x2, count_y2) <- _smooth_data exp (10 * 1000) 5 read_pass None None ;;
  '(count_x3, count_y3) <- _smooth_data exp (10 * 1000) 5 read_fail None None ;;
  mapM (yield_threshold count_x1 count_y1) [50; 75; 90; 99]%Z.

(** [i] is where [argmin] stops in [a]: at the first NaN if there is
    one, and otherwise at the first of the smallest values. *)
Definition first_min (a : list float) (i : nat) : Prop :=
  exists d, nth_error a i = Some d /\
    (isnan d = true ->
       forall j dj, (j < i)%nat -> nth_error a j = Some dj -> isnan dj = false) /\
    (isnan d = false ->
       forall j dj, nth_error a j = Some dj ->
         Fle d dj /\ ((j < i)%nat -> Flt d dj)).

(** ** [_minion_flowcell_layout] and [plot_performance] *)

Definition seeds : list nat :=
  [125; 121; 117; 113; 109; 105; 101; 97;
   93; 89; 85; 81; 77; 73; 69; 65;
   61; 57; 53; 49; 45; 41; 37; 33;
   29; 25; 21; 17; 13; 9; 5; 1]%nat.

Definition _minion_flowcell_layout : list nat :=
  flat_map (fun s =>
              flat_map (fun block =>
                          map (fun row => (s + 128 * block + row)%nat) (seq 0 4))
                       (seq 0 4))
           seeds.

(** [sorted] on a list of integers (stable insertion). *)
Fixpoint insert_nat (v : nat) (l : list nat) : list nat :=
  match l with
  | [] => [v]
  | e :: l' => if (v <? e)%nat then v :: l else e :: insert_nat v l'
  end.

Definition py_sorted (l : list nat) : list nat :=
  fold_left (fun acc v => insert_nat v acc) l [].

(** [plot_performance], lines 626-638.  [pore_measure] maps a channel to
    its number of reads. *)
Definition pore_values (pore_measure : nat -> option Z) : list Z :=
  map (fun pore => match pore_measure pore with
                   | Some v => v
                   | None => 0%Z
                   end)
      _minion_flowcell_layout.

Definition row_numbers : list nat := concat (repeat (seq 1 16) 32).

Definition column_numbers : list nat := py_sorted (concat (repeat (seq 1 32) 16)).

(** Sum of a list of integers. *)
Definition Zsum (l : list Z) : Z := fold_right Z.add 0%Z l.

(** No value occurs twice. *)
Fixpoint distinct {A : Type} (eqb : A -> A -> bool) (l : list A) : bool :=
  match l with
  | [] => true
  | x :: l' => negb (existsb (eqb x) l') && distinct eqb l'
  end.

(** ** [all_scatterplot] of [plotly_graph_generator] *)

Section AllScatterplot.

Variable randint : nat -> nat -> nat -> nat -> result (list nat).
Variable interp1d :
  list float -> list float -> option String.string -> Z ->
  result (list float -> result (list float)).

(** The pair of series [_interpolate] returns when it is called with [y]
    (the single array does not occur on that path). *)
Definition interpolated_pair (r : interpolated) : list float * list float :=
  match r with
  | Interpolated x_int y_int => (x_int, y_int)
  | Resampled v => (v, [])
  end.

(** Lines 528-539: the data of the two scatter traces, [pass_data] and
    [fail_data]. *)
Definition all_scatterplot
           (read_pass_length read_pass_qscore read_fail_length read_fail_qscore
            : list float)
  : result ((list float * list float) * (list float * list float)) :=
  if (interpolation_threshold <? length read_pass_length)%nat then
    pass_data <- _interpolate randint interp1d read_pass_length 4000
                   (Some read_pass_qscore) (Some Kind.nearest) (-1) ;;
    fail_data <- _interpolate randint interp1d read_fail_length 4000
                   (Some read_fail_qscore) (Some Kind.nearest) (-1) ;;
    Ok (interpolated_pair pass_data, interpolated_pair fail_data)
  else
    Ok ((read_pass_length, read_pass_qscore), (read_fail_length, read_fail_qscore)).

End AllScatterplot.

(** ** Vocabulary of the smoothing properties *)

(** [exp] returns a positive number on every number. *)
Definition exp_positive (exp : float -> float) : Prop :=
  forall q, exists r, exp (Fin q) = Fin r /\ (0 < r)%Q.

(** The input of a filter as the [reflect] mode extends it to every
    position. *)
Definition reflected (xs : list Q) (t : Z) : Q :=
  nth (reflect_index (length xs) t) xs 0.

(** Sum of [k] consecutive values from position [a]. *)
Definition window (X : Z -> Q) (a : Z) (k : nat) : Q :=
  Qsum (map (fun i => X (a + Z.of_nat i)%Z) (seq 0 k)).

(** ** [_phred_score_density] *)

(** Lines 662-670: the two curves, pass reads and fail reads.  The
    arguments are the three columns of the frame. *)
Definition _phred_score_density (exp : float -> float)
           (all pass fail : list float)
  : result ((list float * list float) * (list float * list float)) :=
  let all_series := dropna all in
  let pass_series := dropna pass in
  let fail_series := dropna fail in
  min_arg <- np_nanmin all_series ;;
  max_arg <- np_nanmax all_series ;;
  '(count_x2, count_y2) <-
    _smooth_data exp (10 * 1000) 5 pass_series (Some min_arg) (Some max_arg) ;;
  min_arg <- np_nanmin all_series ;;
  max_arg <- np_nanmax all_series ;;
  '(count_x3, count_y3) <-
    _smooth_data exp (10 * 1000) 5 fail_series (Some min_arg) (Some max_arg) ;;
  let count_y2 := map (fun v => (v / of_nat (length all_series))%float) count_y2 in
  let count_y3 := map (fun v => (v / of_nat (length all_series))%float) count_y3 in
  Ok ((count_x2, count_y2), (count_x3, count_y3)).

(** ** [_read_length_distribution] *)

(** Lines 594-600 and 623-624: the zoomed x range, the height of the
    threshold lines and their three x positions. *)
Definition _read_length_distribution (exp : float -> float)
           (all_read read_pass read_fail : list float)
  : result (float * float * list float) :=
  '(count_x1, count_y1) <- _smooth_data exp (10 * 1000) 5 all_read None None ;;
  '(count_x2, count_y2) <- _smooth_data exp (10 * 1000) 5 read_pass None None ;;
  '(count_x3, count_y3) <- _smooth_data exp (10 * 1000) 5 read_fail None None ;;
  let max_x_range := percentile all_read 99 in
  m1 <- py_max count_y1 ;;
  m2 <- py_max count_y2 ;;
  m3 <- py_max count_y3 ;;
  max_y <- py_max [m1; m2; m3] ;;
  Ok (max_x_range, max_y, map (percentile all_read) [25; 50; 75]).

(** The correlation of a finite input with finite weights, cell by
    cell. *)
Definition correlate_cells (xs ws : list Q) : list Q :=
  map (fun i =>
         fold_left Qplus
           (map (fun '(j, w) =>
                   (w * reflected xs
                          (Z.of_nat i + Z.of_nat j - Z.of_nat (length ws / 2)))%Q)
                (combine (seq 0 (length ws)) ws))
           0)
      (seq 0 (length xs)).

(** ** The cumulated yield of [yield_plot] *)

(** The running totals of a finite sequence, from the total [acc]. *)
Fixpoint running_totals (acc : Q) (ys : list Q) : list Q :=
  match ys with
  | [] => []
  | y :: ys' => (acc + y)%Q :: running_totals (acc + y)%Q ys'
  end.

(* ================================================================== *)
(** * Facts about floats *)
(* ================================================================== *)

Lemma Qle_bool_false (p q : Q) : Qle_bool p q = false <-> (q < p)%Q.
Proof.
  split; intro H.
  - apply Qnot_le_lt. intro Hle. apply Qle_bool_iff in Hle. congruence.
  - destruct (Qle_bool p q) eqn:E; [|reflexivity].
    apply Qle_bool_iff in E. lra.
Qed.

Lemma fle_Fin (p q : Q) : fle (Fin p) (Fin q) = true <-> (p <= q)%Q.
Proof. simpl. apply Qle_bool_iff. Qed.

Lemma flt_Fin (p q : Q) : flt (Fin p) (Fin q) = true <-> (p < q)%Q.
Proof. simpl. rewrite negb_true_iff. apply Qle_bool_false. Qed.

Lemma flt_Fin_false (p q : Q) : flt (Fin p) (Fin q) = false <-> (q <= p)%Q.
Proof. simpl. rewrite negb_false_iff. apply Qle_bool_iff. Qed.

Lemma fle_Fin_false (p q : Q) : fle (Fin p) (Fin q) = false <-> (q < p)%Q.
Proof. simpl. apply Qle_bool_false. Qed.

Lemma feqb_Fin (p q : Q) : feqb (Fin p) (Fin q) = true <-> (p == q)%Q.
Proof. simpl. apply Qeq_bool_iff. Qed.

Lemma feqb_Fin_false (p q : Q) : feqb (Fin p) (Fin q) = false <-> ~ (p == q)%Q.
Proof.
  simpl. split; intro H.
  - intro E. apply Qeq_bool_iff in E. congruence.
  - destruct (Qeq_bool p q) eqn:E; [|reflexivity].
    apply Qeq_bool_iff in E. contradiction.
Qed.

Lemma np_less_Fin (p q : Q) : np_less (Fin p) (Fin q) = flt (Fin p) (Fin q).
Proof. unfold np_less. simpl. now rewrite orb_false_r. Qed.

Lemma isfinite_Fin (a : float) : isfinite a = true -> exists q, a = Fin q.
Proof. destruct a; simpl; try discriminate. eauto. Qed.

Lemma feqb_sym (a b : float) : feqb a b = feqb b a.
Proof.
  destruct a as [|s|p], b as [|s'|q]; simpl; try reflexivity.
  - now destruct s, s'.
  - destruct (Qeq_bool p q) eqn:E, (Qeq_bool q p) eqn:E'; try reflexivity.
    + apply Qeq_bool_iff in E. symmetry in E. apply Qeq_bool_iff in E. congruence.
    + apply Qeq_bool_iff in E'. symmetry in E'. apply Qeq_bool_iff in E'. congruence.
Qed.

Lemma feqb_trans (a b c : float) :
  feqb a b = true -> feqb b c = true -> feqb a c = true.
Proof.
  destruct a as [|s|p], b as [|s'|q], c as [|s''|r]; simpl; try discriminate.
  - destruct s, s', s''; simpl; congruence.
  - intros H1 H2. apply Qeq_bool_iff in H1, H2. apply Qeq_bool_iff.
    now rewrite H1.
Qed.

(** Keys that compare equal find the same entries. *)
Lemma feqb_congr (k a b : float) : feqb a b = true -> feqb k a = feqb k b.
Proof.
  intro H.
  destruct (feqb k a) eqn:E1, (feqb k b) eqn:E2; try reflexivity.
  - rewrite (feqb_trans _ _ _ E1 H) in E2. discriminate.
  - rewrite feqb_sym in H. rewrite (feqb_trans _ _ _ E2 H) in E1. discriminate.
Qed.

Lemma Forall_isfinite_map_Fin (l : list float) :
  Forall (fun v => isfinite v = true) l -> exists qs, l = map Fin qs.
Proof.
  induction 1 as [|v l Hv _ [qs ->]].
  - now exists [].
  - destruct (isfinite_Fin _ Hv) as [q ->]. now exists (q :: qs).
Qed.

Lemma isfinite_map_Fin (qs : list Q) : Forall (fun v => isfinite v = true) (map Fin qs).
Proof. induction qs; simpl; constructor; auto. Qed.

(* ================================================================== *)
(** * Minimum and maximum of finite vectors *)
(* ================================================================== *)

Section Extremum.

(** A step that keeps one of its two arguments, the better one for the
    order [R] (read [R a b] as "a is at least as good as b"). *)
Variable R : Q -> Q -> Prop.
Hypothesis R_refl : forall a, R a a.
Hypothesis R_trans : forall a b c, R a b -> R b c -> R a c.
Variable op : float -> float -> float.
Hypothesis op_selects : forall a b,
  (op (Fin a) (Fin b) = Fin a /\ R a b) \/ (op (Fin a) (Fin b) = Fin b /\ R b a).

Lemma fold_extremum (qs : list Q) : forall q0,
  exists m, fold_left op (map Fin qs) (Fin q0) = Fin m /\
            In m (q0 :: qs) /\ R m q0 /\ forall q, In q qs -> R m q.
Proof.
  induction qs as [|q qs IH]; intro q0; simpl.
  - exists q0. repeat split; auto. intros q [].
  - destruct (op_selects q0 q) as [[E HR]|[E HR]]; rewrite E.
    + destruct (IH q0) as (m & Hm & Hin & H0 & Hall).
      exists m. repeat split; auto.
      * destruct Hin as [<-|Hin]; [now left | now right; right].
      * intros q' [<-|Hq']; [eapply R_trans; eauto | auto].
    + destruct (IH q) as (m & Hm & Hin & H0 & Hall).
      exists m. repeat split; auto.
      * eapply R_trans; eauto.
      * intros q' [<-|Hq']; auto.
Qed.

End Extremum.

Lemma np_minimum_selects (a b : Q) :
  (np_minimum (Fin a) (Fin b) = Fin a /\ (a <= b)%Q) \/
  (np_minimum (Fin a) (Fin b) = Fin b /\ (b <= a)%Q).
Proof.
  unfold np_minimum. rewrite orb_false_r.
  destruct (flt (Fin a) (Fin b)) eqn:E.
  - left. apply flt_Fin in E. split; [reflexivity | lra].
  - right. apply flt_Fin_false in E. now split.
Qed.

Lemma np_maximum_selects (a b : Q) :
  (np_maximum (Fin a) (Fin b) = Fin a /\ (b <= a)%Q) \/
  (np_maximum (Fin a) (Fin b) = Fin b /\ (a <= b)%Q).
Proof.
  unfold np_maximum, fge. rewrite orb_false_r.
  destruct (fle (Fin b) (Fin a)) eqn:E.
  - left. apply fle_Fin in E. now split.
  - right. apply fle_Fin_false in E. split; [reflexivity | lra].
Qed.

Lemma py_min_selects (a b : Q) :
  ((if flt (Fin b) (Fin a) then Fin b else Fin a) = Fin a /\ (a <= b)%Q) \/
  ((if flt (Fin b) (Fin a) then Fin b else Fin a) = Fin b /\ (b <= a)%Q).
Proof.
  destruct (flt (Fin b) (Fin a)) eqn:E.
  - right. apply flt_Fin in E. split; [reflexivity | lra].
  - left. apply flt_Fin_false in E. now split.
Qed.

Lemma py_max_selects (a b : Q) :
  ((if fgt (Fin b) (Fin a) then Fin b else Fin a) = Fin a /\ (b <= a)%Q) \/
  ((if fgt (Fin b) (Fin a) then Fin b else Fin a) = Fin b /\ (a <= b)%Q).
Proof.
  unfold fgt. destruct (flt (Fin a) (Fin b)) eqn:E.
  - right. apply flt_Fin in E. split; [reflexivity | lra].
  - left. apply flt_Fin_false in E. now split.
Qed.

Lemma Qle_trans' (a b c : Q) : (a <= b)%Q -> (b <= c)%Q -> (a <= c)%Q.
Proof. intros; lra. Qed.

Lemma Qge_refl' (a : Q) : (fun a b : Q => (b <= a)%Q) a a.
Proof. simpl. lra. Qed.

Lemma Qge_trans' (a b c : Q) :
  (fun a b : Q => (b <= a)%Q) a b -> (fun a b : Q => (b <= a)%Q) b c ->
  (fun a b : Q => (b <= a)%Q) a c.
Proof. simpl. intros; lra. Qed.

(** The minimum of a non-empty finite vector is one of its members and
    bounds all of them; likewise the maximum. *)
Lemma np_min_Fin (q0 : Q) (qs : list Q) :
  exists m, np_min (map Fin (q0 :: qs)) = Ok (Fin m) /\
            In m (q0 :: qs) /\ forall q, In q (q0 :: qs) -> (m <= q)%Q.
Proof.
  destruct (fold_extremum Qle Qle_refl Qle_trans' np_minimum np_minimum_selects qs q0)
    as (m & Hm & Hin & H0 & Hall).
  exists m. unfold np_min, reduce. simpl. rewrite Hm. repeat split; auto.
  intros q [<-|Hq]; auto.
Qed.

Lemma np_max_Fin (q0 : Q) (qs : list Q) :
  exists m, np_max (map Fin (q0 :: qs)) = Ok (Fin m) /\
            In m (q0 :: qs) /\ forall q, In q (q0 :: qs) -> (q <= m)%Q.
Proof.
  destruct (fold_extremum (fun a b : Q => (b <= a)%Q) Qge_refl' Qge_trans' np_maximum np_maximum_selects qs q0)
    as (m & Hm & Hin & H0 & Hall).
  exists m. unfold np_max, reduce. simpl. rewrite Hm. repeat split; auto.
  intros q [<-|Hq]; [exact H0 | exact (Hall _ Hq)].
Qed.

Lemma py_min_Fin (q0 : Q) (qs : list Q) :
  exists m, py_min (map Fin (q0 :: qs)) = Ok (Fin m) /\
            In m (q0 :: qs) /\ forall q, In q (q0 :: qs) -> (m <= q)%Q.
Proof.
  destruct (fold_extremum Qle Qle_refl Qle_trans'
              (fun cur item => if flt item cur then item else cur)
              py_min_selects qs q0) as (m & Hm & Hin & H0 & Hall).
  exists m. unfold py_min. simpl. rewrite Hm. repeat split; auto.
  intros q [<-|Hq]; auto.
Qed.

Lemma py_max_Fin (q0 : Q) (qs : list Q) :
  exists m, py_max (map Fin (q0 :: qs)) = Ok (Fin m) /\
            In m (q0 :: qs) /\ forall q, In q (q0 :: qs) -> (q <= m)%Q.
Proof.
  destruct (fold_extremum (fun a b : Q => (b <= a)%Q) Qge_refl' Qge_trans'
              (fun cur item => if fgt item cur then item else cur)
              py_max_selects qs q0) as (m & Hm & Hin & H0 & Hall).
  exists m. unfold py_max. simpl. rewrite Hm. repeat split; auto.
  intros q [<-|Hq]; [exact H0 | exact (Hall _ Hq)].
Qed.

(* ================================================================== *)
(** * [np.linspace] *)
(* ================================================================== *)

Lemma length_set_last (a : list float) (v : float) :
  a <> [] -> length (set_last a v) = length a.
Proof.
  intro Ha. unfold set_last. rewrite length_app, removelast_firstn_len, length_firstn.
  destruct a; [congruence|]. simpl. lia.
Qed.

Lemma nth_error_set_last (a : list float) (v : float) (i : nat) :
  a <> [] ->
  nth_error (set_last a v) i =
    if (i <? pred (length a))%nat then nth_error a i
    else if (i =? pred (length a))%nat then Some v else None.
Proof.
  intro Ha. unfold set_last.
  assert (Hlen : length (removelast a) = pred (length a)).
  { rewrite removelast_firstn_len, length_firstn. lia. }
  destruct (Nat.ltb_spec i (pred (length a))) as [Hlt|Hge].
  - rewrite nth_error_app1 by lia.
    rewrite removelast_firstn_len, nth_error_firstn.
    apply Nat.ltb_lt in Hlt. now rewrite Hlt.
  - rewrite nth_error_app2 by lia. rewrite Hlen.
    destruct (Nat.eqb_spec i (pred (length a))) as [->|Hne].
    + now rewrite Nat.sub_diag.
    + destruct (i - pred (length a))%nat as [|k] eqn:E; [lia|].
      simpl. now destruct k.
Qed.

Lemma linspace_cells (start stop : float) (num : nat) :
  linspace start stop num =
    if (1 <? num)%nat
    then set_last (map (linspace_cell start stop num) (seq 0 num)) stop
    else map (linspace_cell start stop num) (seq 0 num).
Proof.
  unfold linspace, linspace_cell.
  destruct (0 <? num - 1)%nat;
    [destruct (feqb ((stop - start) / of_nat (num - 1)) (Fin 0))|];
    rewrite !map_map; reflexivity.
Qed.

Lemma length_linspace (start stop : float) (num : nat) :
  length (linspace start stop num) = num.
Proof.
  rewrite linspace_cells.
  destruct (Nat.ltb_spec 1 num).
  - rewrite length_set_last.
    + now rewrite length_map, length_seq.
    + destruct num; [lia|]. discriminate.
  - now rewrite length_map, length_seq.
Qed.

Lemma nth_error_linspace (start stop : float) (num i : nat) :
  (i < num)%nat ->
  nth_error (linspace start stop num) i =
    Some (if (1 <? num)%nat && (i =? num - 1)%nat then stop
          else linspace_cell start stop num i).
Proof.
  intro Hi. rewrite linspace_cells.
  assert (Hcell : nth_error (map (linspace_cell start stop num) (seq 0 num)) i
                  = Some (linspace_cell start stop num i)).
  { rewrite nth_error_map, nth_error_seq.
    apply Nat.ltb_lt in Hi. now rewrite Hi. }
  destruct (Nat.ltb_spec 1 num) as [Hn|Hn]; simpl.
  - rewrite nth_error_set_last by (destruct num; [lia | discriminate]).
    rewrite length_map, length_seq.
    replace (pred num) with (num - 1)%nat by lia.
    destruct (Nat.eqb_spec i (num - 1)) as [->|Hne].
    + now rewrite Nat.ltb_irrefl.
    + destruct (Nat.ltb_spec i (num - 1)); [exact Hcell | lia].
  - exact Hcell.
Qed.

Lemma inject_nat_nonzero (n : nat) : (0 < n)%nat -> ~ (inject_Z (Z.of_nat n) == 0)%Q.
Proof.
  intros Hn E. unfold Qeq in E. simpl in E. lia.
Qed.

Lemma inject_nat_pos (n : nat) : (0 < n)%nat -> (0 < inject_Z (Z.of_nat n))%Q.
Proof.
  intros Hn. unfold Qlt. simpl. lia.
Qed.

(** On finite endpoints every cell is the affine value
    [start + i * (stop - start) / (num - 1)]. *)
Lemma linspace_cell_Fin (a b : Q) (num i : nat) :
  (2 <= num)%nat ->
  exists q, linspace_cell (Fin a) (Fin b) num i = Fin q /\
            (q == a + inject_Z (Z.of_nat i) * ((b - a) / inject_Z (Z.of_nat (num - 1))))%Q.
Proof.
  intro Hn. unfold linspace_cell.
  assert (Hd : (0 < num - 1)%nat) by lia.
  pose proof (inject_nat_nonzero Hd) as Hnz.
  apply Nat.ltb_lt in Hd. rewrite Hd.
  set (d := inject_Z (Z.of_nat (num - 1))) in *.
  assert (Ediv : forall p, fdiv (Fin p) (of_nat (num - 1)) = Fin (p / d)).
  { intro p. unfold of_nat, of_Z. simpl. fold d. unfold Qzero.
    destruct (Qeq_bool d 0) eqn:E; [|reflexivity].
    apply Qeq_bool_iff in E. contradiction. }
  change (Fin b - Fin a)%float with (Fin (b + - a)).
  rewrite Ediv.
  destruct (feqb (Fin ((b + - a) / d)) (Fin 0)) eqn:Estep.
  - apply feqb_Fin in Estep.
    change (of_nat i) with (Fin (inject_Z (Z.of_nat i))). rewrite Ediv.
    eexists; split; [reflexivity|].
    assert (Hba : (b + - a == 0)%Q).
    { assert (H : ((b + - a) / d * d == b + - a)%Q) by (field; exact Hnz).
      rewrite <- H, Estep. ring. }
    assert (Hba' : ((b - a) / d == 0)%Q).
    { unfold Qminus. rewrite Hba. field. exact Hnz. }
    rewrite Hba', Hba. field. exact Hnz.
  - eexists; split; [reflexivity|].
    unfold Qminus. ring.
Qed.

Lemma nth_error_linspace_Fin (a b : Q) (num i : nat) :
  (2 <= num)%nat -> (i < num)%nat ->
  exists q, nth_error (linspace (Fin a) (Fin b) num) i = Some (Fin q) /\
            (q == a + inject_Z (Z.of_nat i) * ((b - a) / inject_Z (Z.of_nat (num - 1))))%Q.
Proof.
  intros Hn Hi. rewrite nth_error_linspace by exact Hi.
  assert (Hd : (0 < num - 1)%nat) by lia.
  pose proof (inject_nat_nonzero Hd) as Hnz.
  destruct (Nat.ltb_spec 1 num); [|lia]. simpl.
  destruct (Nat.eqb_spec i (num - 1)) as [->|Hne].
  - exists b. split; [reflexivity|]. field. exact Hnz.
  - destruct (linspace_cell_Fin a b i Hn) as (q & -> & Hq).
    exists q. now split.
Qed.

(* ================================================================== *)
(** * Sorted sequences, by index and by structure *)
(* ================================================================== *)

Section IndexSorted.

Variable A : Type.
Variable R : A -> A -> Prop.

Lemma index_sorted_tail (a : A) (l : list A) :
  index_sorted R (a :: l) -> index_sorted R l.
Proof.
  intros H i j x y Hij Hx Hy.
  apply (H (S i) (S j) x y); simpl; auto. lia.
Qed.

Lemma index_sorted_head (a : A) (l : list A) :
  index_sorted R (a :: l) -> Forall (R a) l.
Proof.
  intros H. apply Forall_forall. intros x Hx.
  destruct (In_nth_error _ _ Hx) as [k Hk].
  apply (H 0%nat (S k) a x); simpl; auto. lia.
Qed.

Lemma index_sorted_strongly (l : list A) :
  index_sorted R l -> StronglySorted R l.
Proof.
  induction l as [|a l IH]; intro H; constructor.
  - apply IH. eapply index_sorted_tail; eauto.
  - apply index_sorted_head; auto.
Qed.

Lemma strongly_index_sorted (l : list A) :
  StronglySorted R l -> index_sorted R l.
Proof.
  induction 1 as [|a l Hl IH Ha]; intros i j x y Hij Hx Hy.
  - destruct i; discriminate.
  - destruct j as [|j]; [lia|]. simpl in Hy.
    destruct i as [|i]; simpl in Hx.
    + injection Hx as <-. rewrite Forall_forall in Ha.
      apply Ha. eapply nth_error_In; eauto.
    + apply (IH i j); auto. lia.
Qed.

End IndexSorted.

Lemma non_decreasing_map_Fin (qs : list Q) :
  non_decreasing (map Fin qs) <-> StronglySorted Qle qs.
Proof.
  split; intro H.
  - apply index_sorted_strongly. intros i j a b Hij Ha Hb.
    apply fle_Fin. apply (H i j (Fin a) (Fin b) Hij);
      rewrite nth_error_map; [now rewrite Ha | now rewrite Hb].
  - intros i j a b Hij Ha Hb.
    rewrite nth_error_map in Ha, Hb.
    destruct (nth_error qs i) as [p|] eqn:Ep; [|discriminate].
    destruct (nth_error qs j) as [q|] eqn:Eq; [|discriminate].
    injection Ha as <-. injection Hb as <-.
    apply fle_Fin. exact (strongly_index_sorted H Hij Ep Eq).
Qed.

(* ================================================================== *)
(** * Ordering of the bin edges *)
(* ================================================================== *)

Lemma linspace_isfinite (a b : Q) (num : nat) :
  (2 <= num)%nat -> Forall (fun v => isfinite v = true) (linspace (Fin a) (Fin b) num).
Proof.
  intro Hn. apply Forall_forall. intros v Hv.
  destruct (In_nth_error _ _ Hv) as [i Hi].
  assert (Hlt : (i < num)%nat).
  { rewrite <- (length_linspace (Fin a) (Fin b) num).
    apply nth_error_Some. congruence. }
  destruct (nth_error_linspace_Fin a b Hn Hlt) as (q & Hq & _).
  rewrite Hq in Hi. injection Hi as <-. reflexivity.
Qed.

Lemma inject_nat_lt (i j : nat) :
  (i < j)%nat -> (inject_Z (Z.of_nat i) < inject_Z (Z.of_nat j))%Q.
Proof. intro H. rewrite <- Zlt_Qlt. lia. Qed.

Lemma linspace_non_decreasing (a b : Q) (num : nat) :
  (2 <= num)%nat -> (a <= b)%Q -> non_decreasing (linspace (Fin a) (Fin b) num).
Proof.
  intros Hn Hab i j x y Hij Hx Hy.
  assert (Hj : (j < num)%nat).
  { rewrite <- (length_linspace (Fin a) (Fin b) num).
    apply nth_error_Some. congruence. }
  destruct (nth_error_linspace_Fin a b Hn Hj) as (q & Hq & Eq).
  destruct (nth_error_linspace_Fin a b (i := i) Hn ltac:(lia)) as (p & Hp & Ep).
  rewrite Hp in Hx. rewrite Hq in Hy. injection Hx as <-. injection Hy as <-.
  apply fle_Fin. rewrite Ep, Eq.
  pose proof (inject_nat_lt Hij) as Hlt.
  pose proof (inject_nat_pos (n := num - 1) ltac:(lia)) as Hd.
  assert (Hstep : (0 <= (b - a) / inject_Z (Z.of_nat (num - 1)))%Q).
  { apply Qle_shift_div_l; [exact Hd | lra]. }
  nra.
Qed.

Lemma linspace_strictly_increasing (a b : Q) (num : nat) :
  (2 <= num)%nat -> (a < b)%Q -> strictly_increasing (linspace (Fin a) (Fin b) num).
Proof.
  intros Hn Hab i j x y Hij Hx Hy.
  assert (Hj : (j < num)%nat).
  { rewrite <- (length_linspace (Fin a) (Fin b) num).
    apply nth_error_Some. congruence. }
  destruct (nth_error_linspace_Fin a b Hn Hj) as (q & Hq & Eq).
  destruct (nth_error_linspace_Fin a b (i := i) Hn ltac:(lia)) as (p & Hp & Ep).
  rewrite Hp in Hx. rewrite Hq in Hy. injection Hx as <-. injection Hy as <-.
  apply flt_Fin. rewrite Ep, Eq.
  pose proof (inject_nat_lt Hij) as Hlt.
  pose proof (inject_nat_pos (n := num - 1) ltac:(lia)) as Hd.
  assert (Hstep : (0 < (b - a) / inject_Z (Z.of_nat (num - 1)))%Q).
  { apply Qlt_shift_div_l; [exact Hd | lra]. }
  nra.
Qed.

(** With equal endpoints every edge equals them. *)
Lemma linspace_constant (a b : Q) (num : nat) :
  (2 <= num)%nat -> (a == b)%Q ->
  Forall (fun v => Feq v (Fin a)) (linspace (Fin a) (Fin b) num).
Proof.
  intros Hn Hab. apply Forall_forall. intros v Hv.
  destruct (In_nth_error _ _ Hv) as [i Hi].
  assert (Hlt : (i < num)%nat).
  { rewrite <- (length_linspace (Fin a) (Fin b) num).
    apply nth_error_Some. congruence. }
  destruct (nth_error_linspace_Fin a b Hn Hlt) as (q & Hq & Eq).
  rewrite Hq in Hi. injection Hi as <-.
  apply feqb_Fin. rewrite Eq.
  pose proof (inject_nat_nonzero (n := num - 1) ltac:(lia)) as Hnz.
  rewrite Hab. field. exact Hnz.
Qed.

(* ================================================================== *)
(** * [np.digitize]: monotonicity test and search *)
(* ================================================================== *)

Lemma StronglySorted_skip (q0 r : Q) (rest : list Q) :
  StronglySorted Qle (q0 :: r :: rest) -> StronglySorted Qle (q0 :: rest).
Proof.
  intro H. inversion H as [|? ? Hs Hf]; subst.
  inversion Hs; subst. inversion Hf; subst.
  constructor; auto.
Qed.

Lemma skip_repeated_sorted (q0 : Q) (rest : list Q) :
  StronglySorted Qle (q0 :: rest) ->
  skip_repeated (Fin q0) (map Fin rest) = [] \/
  exists n rest', skip_repeated (Fin q0) (map Fin rest) = map Fin (n :: rest') /\
                  (q0 < n)%Q /\ StronglySorted Qle (n :: rest').
Proof.
  induction rest as [|r rest IH]; intro H; simpl.
  - now left.
  - destruct (Qeq_bool r q0) eqn:E.
    + apply IH. eapply StronglySorted_skip; eauto.
    + right. exists r, rest. split; [reflexivity|].
      inversion H as [|? ? Hs Hf]; subst. inversion Hf; subst.
      split; [|assumption].
      assert (~ (r == q0)%Q).
      { intro Heq. apply Qeq_bool_iff in Heq. congruence. }
      lra.
Qed.

Lemma never_fgt_sorted (rest : list Q) : forall n,
  StronglySorted Qle (n :: rest) -> never fgt (Fin n) (map Fin rest) = true.
Proof.
  induction rest as [|r rest IH]; intros n H; simpl; [reflexivity|].
  inversion H as [|? ? Hs Hf]; subst. inversion Hf; subst.
  assert (E : Qle_bool n r = true) by now apply Qle_bool_iff.
  rewrite E. simpl. now apply IH.
Qed.

Lemma monotonicity_sorted (qs : list Q) :
  StronglySorted Qle qs -> monotonicity (map Fin qs) = 1%Z.
Proof.
  destruct qs as [|q0 rest]; intro H; [reflexivity|].
  unfold monotonicity. cbn [map].
  destruct (skip_repeated_sorted H) as [->|(n & rest' & -> & Hlt & Hs)];
    [reflexivity|].
  cbn [map].
  assert (E : flt (Fin q0) (Fin n) = true) by now apply flt_Fin.
  rewrite E. now rewrite never_fgt_sorted.
Qed.

Lemma never_flt_NaN (k : nat) : never flt NaN (repeat NaN k) = true.
Proof. induction k; simpl; auto. Qed.

Lemma monotonicity_NaN (k : nat) : monotonicity (repeat NaN (S (S k))) = (-1)%Z.
Proof. simpl. now rewrite never_flt_NaN. Qed.

Lemma searchsorted_left_le (a : list float) (v : float) :
  (searchsorted_left a v <= length a)%nat.
Proof. induction a as [|e a IH]; simpl; [lia|]. destruct (np_less e v); lia. Qed.

(** Everything before the insertion point is below [v]; the element at
    the insertion point, if any, is not. *)
Lemma searchsorted_left_before (a : list float) (v : float) : forall k e,
  (k < searchsorted_left a v)%nat -> nth_error a k = Some e -> np_less e v = true.
Proof.
  induction a as [|e0 a IH]; simpl; intros k e Hk He; [lia|].
  destruct (np_less e0 v) eqn:E; [|lia].
  destruct k as [|k]; simpl in He.
  - now injection He as <-.
  - apply (IH k); [lia | exact He].
Qed.

Lemma searchsorted_left_at (a : list float) (v : float) : forall e,
  nth_error a (searchsorted_left a v) = Some e -> np_less e v = false.
Proof.
  induction a as [|e0 a IH]; simpl; intros e He; [discriminate|].
  destruct (np_less e0 v) eqn:E; simpl in He.
  - now apply IH.
  - now injection He as <-.
Qed.

Lemma searchsorted_left_bound (a : list float) (v e : float) :
  In e a -> np_less e v = false -> (searchsorted_left a v < length a)%nat.
Proof.
  induction a as [|e0 a IH]; simpl; intros Hin He; [contradiction|].
  destruct (np_less e0 v) eqn:E; [|lia].
  destruct Hin as [->|Hin]; [congruence|].
  specialize (IH Hin He). lia.
Qed.

Lemma searchsorted_left_NaN (a : list float) (v : float) :
  Forall (fun e => e = NaN) a -> searchsorted_left a v = 0%nat.
Proof.
  destruct 1 as [|e a ->]; simpl; [reflexivity|].
  unfold np_less. simpl. now rewrite andb_false_r.
Qed.

(** On increasing finite edges [np.digitize] is a plain left search. *)
Lemma digitize_right_sorted (t : list float) (xs : list Q) :
  StronglySorted Qle xs ->
  digitize_right t (map Fin xs) = Ok (map (searchsorted_left (map Fin xs)) t).
Proof.
  intro H. unfold digitize_right. now rewrite (monotonicity_sorted H).
Qed.

(** On two or more NaN edges every observation gets the index [len(x)]. *)
Lemma digitize_right_NaN (t : list float) (k : nat) :
  digitize_right t (repeat NaN (S (S k))) = Ok (map (fun _ => S (S k)) t).
Proof.
  unfold digitize_right. rewrite monotonicity_NaN. simpl Z.eqb. cbv iota.
  f_equal. apply map_ext. intro v.
  rewrite searchsorted_left_NaN.
  - rewrite repeat_length. lia.
  - apply Forall_rev. apply Forall_forall. intros e He.
    now apply repeat_spec in He.
Qed.

(* ================================================================== *)
(** * The dictionary of observations *)
(* ================================================================== *)

Lemma getitem_nth (x : list float) (i : nat) :
  (i < length x)%nat -> getitem x i = Ok (nth i x NaN).
Proof.
  intro H. unfold getitem. now rewrite (nth_error_nth' x NaN H).
Qed.

Lemma getitem_out (x : list float) (i : nat) :
  (length x <= i)%nat -> getitem x i = Raise IndexError.
Proof.
  intro H. unfold getitem. apply nth_error_None in H. now rewrite H.
Qed.

Lemma fill_bins_from (x : list float) (idxs : list nat) : forall data d,
  Forall (fun i => (i < length x)%nat) idxs ->
  foldM (fun bin_dict '(bin_idx, val) =>
           b <- getitem x bin_idx ;; Ok (dict_append bin_dict b val))
        (combine idxs data) d
  = Ok (fill_pure (combine (edges_of x idxs) data) d).
Proof.
  induction idxs as [|i idxs IH]; intros data d H; simpl; [reflexivity|].
  destruct data as [|v data]; simpl; [reflexivity|].
  inversion H; subst.
  rewrite getitem_nth by assumption. simpl.
  now apply IH.
Qed.

Lemma fill_bins_ok (x : list float) (idxs : list nat) (data : list float) :
  Forall (fun i => (i < length x)%nat) idxs ->
  fill_bins x idxs data = Ok (fill_pure (combine (edges_of x idxs) data) []).
Proof. apply fill_bins_from. Qed.

Lemma dict_get_append (d : defaultdict) (k v b : float) :
  dict_get (dict_append d k v) b =
    if feqb k b
    then Some (match dict_get d b with Some obs => obs | None => [] end ++ [v])
    else dict_get d b.
Proof.
  induction d as [|[k0 obs] d IH]; simpl.
  - destruct (feqb k b); reflexivity.
  - destruct (feqb k0 k) eqn:E0; simpl.
    + destruct (feqb k b) eqn:Eb.
      * rewrite <- (feqb_congr k0 _ _ Eb), E0. reflexivity.
      * destruct (feqb k0 b) eqn:E0b; [|reflexivity].
        rewrite feqb_sym in E0.
        rewrite (feqb_trans _ _ _ E0 E0b) in Eb. discriminate.
    + destruct (feqb k0 b) eqn:E0b.
      * destruct (feqb k b) eqn:Eb; [|reflexivity].
        rewrite (feqb_congr k0 _ _ Eb), E0b in E0. discriminate.
      * exact IH.
Qed.

Lemma dict_get_fill (pairs : list (float * float)) (b : float) : forall d,
  dict_get (fill_pure pairs d) b =
    grouped (dict_get d b) (map snd (filter (fun '(e, _) => feqb e b) pairs)).
Proof.
  induction pairs as [|[k v] pairs IH]; intro d; simpl.
  - destruct (dict_get d b) as [obs|]; simpl; [|reflexivity].
    now rewrite app_nil_r.
  - unfold fill_pure in *. simpl. rewrite IH, dict_get_append.
    destruct (feqb k b); simpl.
    + destruct (dict_get d b) as [obs|]; simpl.
      * now rewrite <- app_assoc.
      * reflexivity.
    + reflexivity.
Qed.

(** The dictionary holds, under every key, exactly the group of that key. *)
Lemma dict_get_group (edges data : list float) (b : float) :
  dict_get (fill_pure (combine edges data) []) b =
    match group_of edges data b with
    | [] => None
    | g => Some g
    end.
Proof.
  rewrite dict_get_fill. simpl. unfold group_of.
  destruct (map snd _); reflexivity.
Qed.

(* ================================================================== *)
(** * The percentile table *)
(* ================================================================== *)

Lemma over_time_percentiles_from (d : defaultdict) (x : list float) :
  forall y0 y1 y2 y3 y4,
  fold_left
    (fun y b =>
       match dict_get d b with
       | Some obs =>
           map (fun '(yi, v) => yi ++ [percentile obs v]) (combine y percentiles)
       | None => map (fun yi => yi ++ [NaN]) y
       end)
    x [y0; y1; y2; y3; y4]
  = [y0 ++ map (percentile_cell d 0) x;
     y1 ++ map (percentile_cell d 25) x;
     y2 ++ map (percentile_cell d 50) x;
     y3 ++ map (percentile_cell d 75) x;
     y4 ++ map (percentile_cell d 100) x].
Proof.
  induction x as [|b x IH]; intros; simpl.
  - now rewrite !app_nil_r.
  - unfold percentile_cell at 1 3 5 7 9.
    destruct (dict_get d b) as [obs|]; simpl; rewrite IH, <- !app_assoc; reflexivity.
Qed.

Lemma over_time_percentiles_spec (x : list float) (d : defaultdict) :
  over_time_percentiles x d = map (fun p => map (percentile_cell d p) x) percentiles.
Proof.
  exact (over_time_percentiles_from d x [] [] [] [] []).
Qed.

(* ================================================================== *)
(** * Gaussian smoothing keeps the length *)
(* ================================================================== *)

Lemma length_correlate1d (input weights : list float) :
  length (correlate1d input weights) = length input.
Proof. unfold correlate1d. now rewrite length_map, length_seq. Qed.

Lemma gaussian_filter1d_ok (exp : float -> float) (input : list float) (sigma : nat) :
  (1 <= sigma)%nat ->
  exists out, gaussian_filter1d exp input sigma = Ok out /\
              length out = length input.
Proof.
  intro Hs. unfold gaussian_filter1d, gaussian_kernel1d.
  destruct (Nat.eqb_spec (sigma * sigma) 0) as [E|_]; [nia|].
  simpl. eexists. split; [reflexivity|]. apply length_correlate1d.
Qed.

Lemma gaussian_filter1d_zero (exp : float -> float) (input : list float) :
  gaussian_filter1d exp input 0 = Raise ZeroDivisionError.
Proof. reflexivity. Qed.

Lemma mapM_ok {A B : Type} (f : A -> result B) (P : A -> B -> Prop) (l : list A) :
  (forall v, In v l -> exists b, f v = Ok b /\ P v b) ->
  exists bs, mapM f l = Ok bs /\ Forall2 P l bs.
Proof.
  induction l as [|v l IH]; intro H; simpl.
  - exists []. split; [reflexivity | constructor].
  - destruct (H v (or_introl eq_refl)) as (b & -> & Hb).
    destruct IH as (bs & -> & Hbs); [intros; apply H; now right|].
    simpl. exists (b :: bs). split; [reflexivity | now constructor].
Qed.

(* ================================================================== *)
(** * The time binner on finite time vectors *)
(* ================================================================== *)

Lemma hours_Fin (qs : list Q) :
  hours (map Fin qs) = map Fin (map (fun q => q / 3600)%Q qs).
Proof.
  unfold hours. rewrite !map_map. apply map_ext. intro q. reflexivity.
Qed.

Lemma hours_NaN (time_series : list float) :
  In NaN time_series -> In NaN (hours time_series).
Proof.
  intro H. unfold hours. apply in_map_iff. exists NaN. now split.
Qed.

Lemma length_hours (time_series : list float) :
  length (hours time_series) = length time_series.
Proof. apply length_map. Qed.

(** The last edge is exactly [stop]. *)
Lemma linspace_last (start stop : float) (num : nat) :
  (2 <= num)%nat -> nth_error (linspace start stop num) (num - 1) = Some stop.
Proof.
  intro Hn. rewrite nth_error_linspace by lia.
  destruct (Nat.ltb_spec 1 num); [|lia].
  now rewrite Nat.eqb_refl.
Qed.

Lemma linspace_first (a b : Q) (num : nat) :
  (2 <= num)%nat ->
  exists q, nth_error (linspace (Fin a) (Fin b) num) 0 = Some (Fin q) /\ (q == a)%Q.
Proof.
  intro Hn.
  destruct (nth_error_linspace_Fin a b (i := 0) Hn ltac:(lia)) as (q & Hq & Eq).
  exists q. split; [exact Hq|]. rewrite Eq. simpl.
  pose proof (inject_nat_nonzero (n := num - 1) ltac:(lia)) as Hnz.
  field. exact Hnz.
Qed.

(** Bin edges of a non-empty finite time vector: finite, increasing,
    from the minimum to the maximum. *)
Lemma bin_edges_finite (h0 : Q) (hs : list Q) (time_bins : nat) :
  (2 <= time_bins)%nat ->
  exists lo hi xs,
    np_min (map Fin (h0 :: hs)) = Ok (Fin lo) /\
    np_max (map Fin (h0 :: hs)) = Ok (Fin hi) /\
    In lo (h0 :: hs) /\ In hi (h0 :: hs) /\
    (forall h, In h (h0 :: hs) -> (lo <= h <= hi)%Q) /\
    linspace (Fin lo) (Fin hi) time_bins = map Fin xs /\
    bin_edges (map Fin (h0 :: hs)) time_bins = Ok (map Fin xs) /\
    StronglySorted Qle xs /\
    length xs = time_bins /\
    In hi xs.
Proof.
  intro Hn.
  destruct (np_min_Fin h0 hs) as (lo & Hlo & Hlo_in & Hlo_le).
  destruct (np_max_Fin h0 hs) as (hi & Hhi & Hhi_in & Hhi_ge).
  destruct (Forall_isfinite_map_Fin (linspace_isfinite lo hi Hn)) as [xs Hxs].
  exists lo, hi, xs.
  assert (Hlohi : (lo <= hi)%Q) by (apply Hlo_le; exact Hhi_in).
  repeat split; auto.
  - unfold bin_edges. rewrite Hlo, Hhi. simpl. now rewrite Hxs.
  - apply non_decreasing_map_Fin. rewrite <- Hxs.
    now apply linspace_non_decreasing.
  - rewrite <- (length_map Fin xs), <- Hxs. apply length_linspace.
  - pose proof (linspace_last (Fin lo) (Fin hi) Hn) as Hlast.
    rewrite Hxs, nth_error_map in Hlast.
    destruct (nth_error xs (time_bins - 1)) as [q|] eqn:E; [|discriminate].
    injection Hlast as <-. eapply nth_error_In; eauto.
Qed.

Lemma digitize_in_range (xs : list Q) (hi : Q) (hs : list Q) :
  In hi xs -> (forall h, In h hs -> (h <= hi)%Q) ->
  Forall (fun i => (i < length (map Fin xs))%nat)
         (map (searchsorted_left (map Fin xs)) (map Fin hs)).
Proof.
  intros Hin Hle. apply Forall_forall. intros i Hi.
  apply in_map_iff in Hi. destruct Hi as (v & <- & Hv).
  apply in_map_iff in Hv. destruct Hv as (h & <- & Hh).
  apply searchsorted_left_bound with (e := Fin hi).
  - now apply in_map.
  - rewrite np_less_Fin. apply flt_Fin_false. now apply Hle.
Qed.

(** The first half of [_over_time_graph] succeeds on a non-empty finite
    time vector and two or more bins. *)
Lemma over_time_bins_finite (data_series : list float) (q0 : Q) (qs : list Q)
      (time_bins : nat) :
  (2 <= time_bins)%nat ->
  exists lo hi xs hs,
    hours (map Fin (q0 :: qs)) = map Fin hs /\
    hs = map (fun q => q / 3600)%Q (q0 :: qs) /\
    In lo hs /\ In hi hs /\ (forall h, In h hs -> (lo <= h <= hi)%Q) /\
    linspace (Fin lo) (Fin hi) time_bins = map Fin xs /\
    bin_edges (map Fin hs) time_bins = Ok (map Fin xs) /\
    StronglySorted Qle xs /\
    length xs = time_bins /\
    digitize_right (map Fin hs) (map Fin xs)
      = Ok (map (searchsorted_left (map Fin xs)) (map Fin hs)) /\
    Forall (fun i => (i < time_bins)%nat)
           (map (searchsorted_left (map Fin xs)) (map Fin hs)) /\
    over_time_bins data_series (map Fin (q0 :: qs)) time_bins
      = Ok (map Fin xs,
            fill_pure (combine (edges_of (map Fin xs)
                                  (map (searchsorted_left (map Fin xs)) (map Fin hs)))
                               data_series) []).
Proof.
  intro Hn.
  destruct (bin_edges_finite (q0 / 3600) (map (fun q => q / 3600)%Q qs) Hn)
    as (lo & hi & xs & _ & _ & Hlo & Hhi & Hb & Hlin & Hedges & Hs & Hlen & Hin).
  set (hs := (q0 / 3600)%Q :: map (fun q => (q / 3600)%Q) qs) in *.
  assert (Hh : hours (map Fin (q0 :: qs)) = map Fin hs) by apply hours_Fin.
  exists lo, hi, xs, hs.
  assert (Hrange : Forall (fun i => (i < length (map Fin xs))%nat)
                     (map (searchsorted_left (map Fin xs)) (map Fin hs))).
  { apply digitize_in_range with (hi := hi); [exact Hin|].
    intros h Hh'. now apply Hb. }
  repeat split; auto.
  - now apply Hb.
  - now apply Hb.
  - now apply digitize_right_sorted.
  - rewrite length_map, Hlen in Hrange. exact Hrange.
  - unfold over_time_bins. rewrite Hh, Hedges. simpl.
    rewrite (digitize_right_sorted _ Hs). simpl.
    rewrite fill_bins_ok by exact Hrange. reflexivity.
Qed.

(* ================================================================== *)
(** * The time binner on a time vector with a NaN *)
(* ================================================================== *)

Lemma fadd_NaN_r (a : float) : fadd a NaN = NaN.
Proof. now destruct a. Qed.

Lemma fold_absorbing (op : float -> float -> float) (l : list float) :
  (forall b, op NaN b = NaN) -> (forall a, op a NaN = NaN) ->
  forall acc, acc = NaN \/ In NaN l -> fold_left op l acc = NaN.
Proof.
  intros Hl Hr. induction l as [|v l IH]; intros acc [->|Hin]; simpl.
  - reflexivity.
  - contradiction.
  - apply IH. left. apply Hl.
  - destruct Hin as [->|Hin].
    + apply IH. left. apply Hr.
    + apply IH. now right.
Qed.

Lemma np_min_NaN (l : list float) : In NaN l -> np_min l = Ok NaN.
Proof.
  destruct l as [|v l]; intro H; [contradiction|].
  unfold np_min, reduce. f_equal.
  apply fold_absorbing.
  - reflexivity.
  - intro a. now destruct a.
  - destruct H as [->|H]; auto.
Qed.

Lemma np_max_NaN (l : list float) : In NaN l -> np_max l = Ok NaN.
Proof.
  destruct l as [|v l]; intro H; [contradiction|].
  unfold np_max, reduce. f_equal.
  apply fold_absorbing.
  - intro b. now destruct b.
  - intro a. now destruct a.
  - destruct H as [->|H]; auto.
Qed.

Lemma linspace_NaN (num : nat) : linspace NaN NaN num = repeat NaN num.
Proof.
  apply nth_error_ext. intro i.
  destruct (Nat.lt_ge_cases i num) as [Hi|Hi].
  - rewrite nth_error_linspace, nth_error_repeat by exact Hi.
    f_equal. destruct (_ && _); [reflexivity|].
    unfold linspace_cell. apply fadd_NaN_r.
  - transitivity (@None float); [|symmetry];
      apply nth_error_None; [rewrite length_linspace | rewrite repeat_length]; exact Hi.
Qed.

Lemma bin_edges_NaN (t : list float) (time_bins : nat) :
  In NaN t -> bin_edges t time_bins = Ok (repeat NaN time_bins).
Proof.
  intro H. unfold bin_edges.
  rewrite (np_min_NaN _ H), (np_max_NaN _ H). simpl.
  now rewrite linspace_NaN.
Qed.

(** With a NaN among the times and two or more bins, the first lookup
    [x[bin_idx]] is out of range. *)
Lemma over_time_bins_NaN (data_series time_series : list float) (time_bins : nat) :
  (2 <= time_bins)%nat -> In NaN time_series -> data_series <> [] ->
  over_time_bins data_series time_series time_bins = Raise IndexError.
Proof.
  intros Hn Hnan Hd. unfold over_time_bins.
  rewrite bin_edges_NaN by (apply hours_NaN; exact Hnan). simpl.
  destruct time_bins as [|[|k]]; try lia.
  rewrite digitize_right_NaN. simpl.
  destruct time_series as [|t0 ts]; [contradiction|].
  destruct data_series as [|v vs]; [congruence|].
  unfold fill_bins. cbn [hours map combine foldM].
  rewrite getitem_out; [reflexivity|].
  cbn [length]. rewrite repeat_length. lia.
Qed.

(* ================================================================== *)
(** * C1: shape of the time binner's result *)
(* ================================================================== *)

Lemma Forall2_length_transfer (n : nat) (y ys : list (list float)) :
  Forall2 (fun v b => length b = length v) y ys ->
  Forall (fun v => length v = n) y -> Forall (fun b => length b = n) ys.
Proof.
  induction 1 as [|v b y ys Hvb _ IH]; intro H; constructor;
    inversion H; subst; auto.
Qed.

Lemma over_time_percentiles_shape (x : list float) (d : defaultdict) :
  length (over_time_percentiles x d) = 5%nat /\
  Forall (fun v => length v = length x) (over_time_percentiles x d).
Proof.
  rewrite over_time_percentiles_spec. split; [reflexivity|].
  apply Forall_forall. intros v Hv.
  apply in_map_iff in Hv. destruct Hv as (p & <- & _).
  apply length_map.
Qed.

(** Smoothing the five sequences succeeds and keeps their lengths. *)
Lemma smooth_all_ok (exp : float -> float) (y : list (list float)) (sigma n : nat) :
  (1 <= sigma)%nat -> length y = 5%nat -> Forall (fun v => length v = n) y ->
  exists ys, mapM (fun v => gaussian_filter1d exp v sigma) y = Ok ys /\
             length ys = 5%nat /\ Forall (fun b => length b = n) ys.
Proof.
  intros Hs Hlen Hall.
  destruct (mapM_ok (fun v => gaussian_filter1d exp v sigma)
                    (fun v b => length b = length v) y) as (ys & Hys & H2).
  { intros v _. now apply gaussian_filter1d_ok. }
  exists ys. split; [exact Hys|]. split.
  - rewrite <- (Forall2_length H2). exact Hlen.
  - eapply Forall2_length_transfer; eauto.
Qed.




(* ================================================================== *)
(** * C10: the bin index stays inside the edge array *)
(* ================================================================== *)




(* ================================================================== *)
(** * C2: bin assignment and per-bin percentiles *)
(* ================================================================== *)

Lemma searchsorted_closest_edge (xs : list Q) (h : Q) :
  StronglySorted Qle xs ->
  (searchsorted_left (map Fin xs) (Fin h) < length xs)%nat ->
  closest_edge_above (map Fin xs) (Fin h)
    (nth (searchsorted_left (map Fin xs) (Fin h)) (map Fin xs) NaN).
Proof.
  intros Hs Hlt.
  set (idx := searchsorted_left (map Fin xs) (Fin h)) in *.
  destruct (nth_error xs idx) as [xb|] eqn:Eb;
    [|apply nth_error_None in Eb; lia].
  assert (Enth : nth_error (map Fin xs) idx = Some (Fin xb))
    by (now rewrite nth_error_map, Eb).
  rewrite (nth_error_nth _ _ NaN Enth).
  assert (Hge : (h <= xb)%Q).
  { pose proof (searchsorted_left_at (map Fin xs) (Fin h) Enth) as H.
    rewrite np_less_Fin in H. now apply flt_Fin_false in H. }
  assert (Hclosest : forall xe, In xe xs -> (h <= xe)%Q -> (xb <= xe)%Q).
  { intros xe Hin Hle.
    destruct (In_nth_error _ _ Hin) as [k Hk].
    destruct (Nat.lt_trichotomy k idx) as [Hk'|[->|Hk']].
    - assert (H : np_less (Fin xe) (Fin h) = true).
      { apply (searchsorted_left_before (map Fin xs) (Fin h) (k := k));
          [exact Hk'|]. now rewrite nth_error_map, Hk. }
      rewrite np_less_Fin in H. apply flt_Fin in H. lra.
    - rewrite Eb in Hk. injection Hk as <-. lra.
    - exact (strongly_index_sorted Hs Hk' Eb Hk). }
  repeat split.
  - eapply nth_error_In; eauto.
  - now apply fle_Fin.
  - intros e He Hte. apply in_map_iff in He. destruct He as (xe & <- & Hxe).
    apply fle_Fin in Hte. apply fle_Fin. now apply Hclosest.
  - intros e He Hte. apply in_map_iff in He. destruct He as (xe & <- & Hxe).
    apply feqb_Fin in Hte. apply feqb_Fin.
    assert ((xb <= xe)%Q) by (apply Hclosest; [exact Hxe | lra]).
    lra.
Qed.

Lemma Forall2_map_r {A B : Type} (P : A -> B -> Prop) (f : A -> B) (l : list A) :
  (forall a, In a l -> P a (f a)) -> Forall2 P l (map f l).
Proof.
  induction l as [|a l IH]; intro H; simpl; constructor.
  - apply H. now left.
  - apply IH. intros; apply H. now right.
Qed.

Lemma percentile_cell_group (edges data : list float) (p : Q) (b : float) :
  percentile_cell (fill_pure (combine edges data) []) p b =
    match group_of edges data b with
    | [] => NaN
    | g => percentile g p
    end.
Proof.
  unfold percentile_cell. rewrite dict_get_group.
  now destruct (group_of edges data b).
Qed.



(* ================================================================== *)
(** * [np.sort] *)
(* ================================================================== *)

(** numpy's order is a total preorder with NaN on top. *)
Lemma np_less_asym (a b : float) : np_less a b = true -> np_less b a = false.
Proof.
  unfold np_less.
  destruct a as [|[|]|p], b as [|[|]|q]; simpl; try reflexivity; try discriminate.
  rewrite !orb_false_r, negb_true_iff, negb_false_iff.
  intro H. apply Qle_bool_false in H. apply Qle_bool_iff. lra.
Qed.

Lemma np_le_trans (a b c : float) :
  np_less b a = false -> np_less c b = false -> np_less c a = false.
Proof.
  unfold np_less.
  destruct a as [|[|]|p], b as [|[|]|q], c as [|[|]|r]; simpl;
    try reflexivity; try discriminate.
  rewrite !orb_false_r, !negb_false_iff.
  intros H1 H2. apply Qle_bool_iff in H1, H2. apply Qle_bool_iff. lra.
Qed.

Lemma insert_sorted_perm (v : float) (a : list float) :
  Permutation (insert_sorted v a) (v :: a).
Proof.
  induction a as [|e a IH]; simpl; [reflexivity|].
  destruct (np_less v e); [reflexivity|].
  rewrite IH. apply perm_swap.
Qed.

Lemma np_sort_perm (a : list float) : Permutation (np_sort a) a.
Proof.
  induction a as [|v a IH]; simpl; [reflexivity|].
  rewrite insert_sorted_perm. now constructor.
Qed.

Lemma length_np_sort (a : list float) : length (np_sort a) = length a.
Proof. apply Permutation_length, np_sort_perm. Qed.

Lemma insert_sorted_sorted (v : float) (a : list float) :
  StronglySorted (fun x y => np_less y x = false) a ->
  StronglySorted (fun x y => np_less y x = false) (insert_sorted v a).
Proof.
  induction 1 as [|e a Hs IH He]; simpl.
  - repeat constructor.
  - destruct (np_less v e) eqn:E.
    + constructor; [now constructor|].
      constructor; [now apply np_less_asym|].
      eapply Forall_impl; [|exact He]. simpl. intros x Hx.
      eapply np_le_trans; [|exact Hx]. now apply np_less_asym.
    + constructor; [exact IH|].
      apply Forall_forall. intros x Hx.
      apply (Permutation_in _ (insert_sorted_perm v a)) in Hx.
      destruct Hx as [<-|Hx]; [exact E|].
      rewrite Forall_forall in He. now apply He.
Qed.

Lemma np_sort_sorted (a : list float) :
  StronglySorted (fun x y => np_less y x = false) (np_sort a).
Proof.
  induction a as [|v a IH]; simpl; [constructor|].
  now apply insert_sorted_sorted.
Qed.

Lemma np_sort_np_sorted (a : list float) : np_sorted (np_sort a).
Proof.
  intros i j x y Hij Hx Hy.
  exact (strongly_index_sorted (np_sort_sorted a) Hij Hx Hy).
Qed.

(** Sorting a finite vector: a sorted permutation of its values. *)
Lemma np_sort_Fin (qs : list Q) :
  exists ss, np_sort (map Fin qs) = map Fin ss /\
             Permutation ss qs /\ StronglySorted Qle ss.
Proof.
  destruct (Permutation_map_inv Fin _ (np_sort_perm (map Fin qs)))
    as (ss & Hss & Hperm).
  exists ss. split; [exact Hss|]. split.
  - now symmetry.
  - apply index_sorted_strongly. intros i j x y Hij Hx Hy.
    pose proof (np_sort_np_sorted (map Fin qs)) as Hsorted. rewrite Hss in Hsorted.
    specialize (Hsorted i j (Fin x) (Fin y) Hij).
    rewrite !nth_error_map, Hx, Hy in Hsorted.
    specialize (Hsorted eq_refl eq_refl).
    rewrite np_less_Fin in Hsorted. now apply flt_Fin_false in Hsorted.
Qed.

(* ================================================================== *)
(** * [np.percentile] on finite vectors *)
(* ================================================================== *)

Lemma lerp_Fin (a b g : Q) :
  exists r, lerp (Fin a) (Fin b) (Fin g) = Fin r /\ (r == a + (b - a) * g)%Q.
Proof.
  unfold lerp, fge. cbn [fle fsub fadd fopp fmul].
  destruct (Qle_bool 0.5 g); eexists; (split; [reflexivity | ring]).
Qed.

Lemma existsb_isnan_Fin (qs : list Q) : existsb isnan (map Fin qs) = false.
Proof. induction qs; simpl; auto. Qed.

Lemma nth_map_Fin (ss : list Q) (i : nat) :
  (i < length ss)%nat -> nth i (map Fin ss) NaN = Fin (nth i ss 0%Q).
Proof.
  intro H. rewrite (nth_indep _ NaN (Fin 0)) by now rewrite length_map.
  apply map_nth.
Qed.

Lemma floor_index (n : nat) (v : Q) :
  (0 <= v)%Q -> (v < inject_Z (Z.of_nat (n - 1)))%Q ->
  (S (Z.to_nat (floor_Z v)) < n)%nat /\
  (inject_Z (Z.of_nat (Z.to_nat (floor_Z v))) <= v)%Q /\
  (v < inject_Z (Z.of_nat (Z.to_nat (floor_Z v))) + 1)%Q.
Proof.
  intros H0 Hn. unfold floor_Z.
  assert (Hf0 : (0 <= Qfloor v)%Z).
  { change 0%Z with (Qfloor 0). now apply Qfloor_resp_le. }
  rewrite Z2Nat.id by exact Hf0.
  pose proof (Qfloor_le v) as Hle.
  pose proof (Qlt_floor v) as Hlt. rewrite inject_Z_plus in Hlt.
  repeat split; try assumption.
  assert (Hz : (Qfloor v < Z.of_nat (n - 1))%Z).
  { rewrite Zlt_Qlt. lra. }
  lia.
Qed.

Lemma percentile_Fin (qs ss : list Q) (q : Q) :
  np_sort (map Fin qs) = map Fin ss -> qs <> [] -> (0 <= q)%Q ->
  exists r,
    percentile (map Fin qs) q = Fin r /\
    (r == qinterp ss (inject_Z (Z.of_nat (length ss - 1)) * (q / 100)))%Q.
Proof.
  intros Hss Hne Hq.
  assert (Hlen : length (map Fin qs) = length ss).
  { rewrite <- (length_map Fin ss), <- Hss. symmetry. apply length_np_sort. }
  assert (Hpos : (0 < length ss)%nat).
  { rewrite <- Hlen, length_map. destruct qs; [congruence | simpl; lia]. }
  unfold percentile, qinterp.
  rewrite existsb_isnan_Fin, Hss, Hlen.
  set (n := length ss) in *.
  set (v := (inject_Z (Z.of_nat (n - 1)) * (q / 100))%Q).
  assert (Hv : (0 <= v)%Q).
  { unfold v. apply Qmult_le_0_compat.
    - change 0%Q with (inject_Z 0). rewrite <- Zle_Qle. lia.
    - apply Qle_shift_div_l; [reflexivity | lra]. }
  destruct (Qle_bool (inject_Z (Z.of_nat (n - 1))) v) eqn:Eabove.
  - rewrite !nth_map_Fin by (fold n; lia).
    destruct (lerp_Fin (nth (n - 1) ss 0) (nth (n - 1) ss 0) (v + 1)) as (r & -> & Hr).
    exists r. split; auto.
  - apply Qle_bool_false in Eabove.
    destruct (floor_index n Hv Eabove) as (Hi & _ & _).
    rewrite !nth_map_Fin by (fold n; lia).
    match goal with
    | |- context [lerp (Fin ?a) (Fin ?b) (Fin ?g)] =>
        destruct (lerp_Fin a b g) as (r & -> & Hr)
    end.
    exists r. split; auto.
Qed.

Lemma sorted_nth_le (ss : list Q) (i j : nat) :
  StronglySorted Qle ss -> (i <= j)%nat -> (j < length ss)%nat ->
  (nth i ss 0 <= nth j ss 0)%Q.
Proof.
  intros Hs Hij Hj.
  destruct (Nat.eq_dec i j) as [->|Hne]; [apply Qle_refl|].
  assert (Hlt : (i < j)%nat) by lia.
  apply (strongly_index_sorted Hs Hlt); apply nth_error_nth'; lia.
Qed.

(** The interpolated value sits at position [i + g], between the order
    statistics [i] and [i + 1]. *)
Lemma qinterp_form (ss : list Q) (v : Q) :
  (0 < length ss)%nat -> (0 <= v)%Q ->
  exists (i : nat) (g : Q),
    (i < length ss)%nat /\ (0 <= g)%Q /\ (g < 1)%Q /\
    ((g == 0)%Q \/ (S i < length ss)%nat) /\
    (qinterp ss v == nth i ss 0 + (nth (S i) ss 0 - nth i ss 0) * g)%Q /\
    ((v < inject_Z (Z.of_nat (length ss - 1)))%Q ->
       (inject_Z (Z.of_nat i) + g == v)%Q) /\
    ((inject_Z (Z.of_nat (length ss - 1)) <= v)%Q ->
       (inject_Z (Z.of_nat i) + g == inject_Z (Z.of_nat (length ss - 1)))%Q).
Proof.
  intros Hpos Hv. unfold qinterp.
  set (n := length ss) in *.
  destruct (Qle_bool (inject_Z (Z.of_nat (n - 1))) v) eqn:Eabove.
  - apply Qle_bool_iff in Eabove.
    exists (n - 1)%nat, 0%Q.
    split; [lia|]. split; [lra|]. split; [lra|]. split; [now left|].
    split; [ring|]. split; intro; lra.
  - apply Qle_bool_false in Eabove.
    destruct (floor_index n Hv Eabove) as (Hi & Hlo & Hhi).
    exists (Z.to_nat (floor_Z v)), (v - inject_Z (Z.of_nat (Z.to_nat (floor_Z v))))%Q.
    split; [lia|]. split; [lra|]. split; [lra|]. split; [now right|].
    split; [reflexivity|]. split; intro; lra.
Qed.

Lemma form_bounds (ss : list Q) (i : nat) (g val : Q) :
  StronglySorted Qle ss ->
  (i < length ss)%nat -> (0 <= g)%Q -> (g < 1)%Q ->
  ((g == 0)%Q \/ (S i < length ss)%nat) ->
  (val == nth i ss 0 + (nth (S i) ss 0 - nth i ss 0) * g)%Q ->
  (nth i ss 0 <= val)%Q /\
  exists j, (i <= j)%nat /\ (j <= S i)%nat /\ (j < length ss)%nat /\
            (val <= nth j ss 0)%Q.
Proof.
  intros Hs Hi Hg0 Hg1 [Hz|Hn] Hval.
  - assert (E : (val == nth i ss 0)%Q) by (rewrite Hval, Hz; ring).
    split; [lra|]. exists i. repeat split; try lia. lra.
  - pose proof (sorted_nth_le (i := i) (j := S i) Hs ltac:(lia) Hn) as Hd.
    split; [nra|]. exists (S i). repeat split; try lia. nra.
Qed.

Lemma qinterp_mono (ss : list Q) (v v' : Q) :
  StronglySorted Qle ss -> (0 < length ss)%nat ->
  (0 <= v)%Q -> (v <= v')%Q -> (qinterp ss v <= qinterp ss v')%Q.
Proof.
  intros Hs Hpos Hv Hvv'.
  destruct (qinterp_form ss Hpos Hv) as (i & g & Hi & Hg0 & Hg1 & Hnext & Hval & Hbelow & Habove).
  destruct (qinterp_form (v := v') ss Hpos ltac:(lra))
    as (i' & g' & Hi' & Hg0' & Hg1' & Hnext' & Hval' & Hbelow' & Habove').
  set (top := inject_Z (Z.of_nat (length ss - 1))) in *.
  assert (Hpos_le : (inject_Z (Z.of_nat i) + g <= inject_Z (Z.of_nat i') + g')%Q).
  { destruct (Qlt_le_dec v top) as [Hlt|Hge].
    - rewrite (Hbelow Hlt).
      destruct (Qlt_le_dec v' top) as [Hlt'|Hge'].
      + rewrite (Hbelow' Hlt'). exact Hvv'.
      + rewrite (Habove' Hge'). lra.
    - rewrite (Habove Hge), (Habove' ltac:(lra)). lra. }
  assert (Hii' : (i <= i')%nat).
  { assert (H : (inject_Z (Z.of_nat i) < inject_Z (Z.of_nat i') + 1)%Q) by lra.
    change 1%Q with (inject_Z 1) in H.
    rewrite <- inject_Z_plus, <- Zlt_Qlt in H. lia. }
  destruct (form_bounds Hs Hi Hg0 Hg1 Hnext Hval) as (Hlow & j & Hj1 & Hj2 & Hj3 & Hup).
  destruct (form_bounds Hs Hi' Hg0' Hg1' Hnext' Hval') as (Hlow' & _).
  destruct (Nat.eq_dec i i') as [<-|Hne].
  - assert (Hgg' : (g <= g')%Q) by lra.
    destruct Hnext' as [Hz|Hn].
    + assert (Hz0 : (g == 0)%Q) by lra.
      rewrite Hval, Hval', Hz, Hz0. lra.
    + pose proof (sorted_nth_le (i := i) (j := S i) Hs ltac:(lia) Hn) as Hd.
      rewrite Hval, Hval'. nra.
  - pose proof (sorted_nth_le (i := j) (j := i') Hs ltac:(lia) Hi') as Hmid.
    lra.
Qed.

Lemma qinterp_between (ss : list Q) (v : Q) :
  StronglySorted Qle ss -> (0 < length ss)%nat -> (0 <= v)%Q ->
  exists a b, In a ss /\ In b ss /\ (a <= qinterp ss v)%Q /\ (qinterp ss v <= b)%Q.
Proof.
  intros Hs Hpos Hv.
  destruct (qinterp_form ss Hpos Hv) as (i & g & Hi & Hg0 & Hg1 & Hnext & Hval & _).
  destruct (form_bounds Hs Hi Hg0 Hg1 Hnext Hval) as (Hlow & j & _ & _ & Hj & Hup).
  exists (nth i ss 0), (nth j ss 0).
  repeat split; auto; now apply nth_In.
Qed.

(* ================================================================== *)
(** * pandas helpers *)
(* ================================================================== *)

Lemma dropna_Fin (qs : list Q) : dropna (map Fin qs) = map Fin qs.
Proof.
  induction qs as [|q qs IH]; simpl; [reflexivity|]. now rewrite IH.
Qed.

Lemma dropna_idempotent (y : list float) : dropna (dropna y) = dropna y.
Proof.
  induction y as [|v y IH]; simpl; [reflexivity|].
  destruct (isnan v) eqn:E; simpl; [exact IH|]. now rewrite E, IH.
Qed.

Lemma dropna_no_nan (y : list float) : Forall (fun v => isnan v = false) (dropna y).
Proof.
  apply Forall_forall. intros v Hv. apply filter_In in Hv.
  destruct Hv as [_ H]. now apply negb_true_iff in H.
Qed.

Lemma dropna_real (y : list float) :
  Forall (fun v => isreal_or_nan v = true) y ->
  exists qs, dropna y = map Fin qs.
Proof.
  intro H. apply Forall_isfinite_map_Fin.
  apply Forall_forall. intros v Hv. apply filter_In in Hv.
  destruct Hv as [Hin Hn]. rewrite Forall_forall in H. specialize (H v Hin).
  now destruct v.
Qed.

Lemma quantile_Fin (qs : list Q) (q : Q) :
  qs <> [] -> quantile (map Fin qs) q = percentile (map Fin qs) (q * 100).
Proof.
  intro H. unfold quantile. rewrite dropna_Fin.
  destruct qs; [congruence | reflexivity].
Qed.

(* ================================================================== *)
(** * C5, C4, C3: the box-plot summary *)
(* ================================================================== *)

(** C5.  When nothing is left of V after dropping the NaNs (the empty
    vector, or a vector of NaNs only), [_precompute_boxplot_values]
    returns, without raising, the record whose eight fields are all 0. *)
Theorem C5_empty_summary (sqrt : float -> float) (V : list float) :
  dropna V = [] ->
  exists r,
    _precompute_boxplot_values sqrt V = Ok r /\
    r = zero_summary /\
    BoxplotValues.min r = Fin 0 /\ BoxplotValues.lowerfence r = Fin 0 /\
    BoxplotValues.q1 r = Fin 0 /\ BoxplotValues.median r = Fin 0 /\
    BoxplotValues.q3 r = Fin 0 /\ BoxplotValues.upperfence r = Fin 0 /\
    BoxplotValues.max r = Fin 0 /\ BoxplotValues.notchspan r = Fin 0.
Proof.
  intro H. exists zero_summary.
  unfold _precompute_boxplot_values. rewrite H. simpl.
  repeat split; reflexivity.
Qed.

Lemma C5_empty_summary_witness :
  _precompute_boxplot_values sqrt_rational [NaN; NaN; NaN] = Ok zero_summary /\
  _precompute_boxplot_values sqrt_rational [] = Ok zero_summary.
Proof.
  split.
  - destruct (@C5_empty_summary sqrt_rational [NaN; NaN; NaN] eq_refl)
      as (r & Hr & -> & _).
    exact Hr.
  - destruct (@C5_empty_summary sqrt_rational [] eq_refl) as (r & Hr & -> & _).
    exact Hr.
Defined.

(** C4.  For V = [1, 2, 3, 4, 5, 100]: q1 = 2.25, q3 = 4.75, IQR = 2.5;
    the raw upper fence is 8.5 and the reported one min(8.5, 100) = 8.5;
    the raw lower fence is -1.5 and the reported one max(-1.5, 1) = 1. *)
Theorem C4_worked_example (sqrt : float -> float) :
  exists r,
    _precompute_boxplot_values sqrt
      [Fin 1; Fin 2; Fin 3; Fin 4; Fin 5; Fin 100] = Ok r /\
    Feq (BoxplotValues.q1 r) (Fin 2.25) /\
    Feq (BoxplotValues.q3 r) (Fin 4.75) /\
    Feq (BoxplotValues.q3 r - BoxplotValues.q1 r) (Fin 2.5) /\
    Feq (BoxplotValues.q3 r + Fin 1.5 * (BoxplotValues.q3 r - BoxplotValues.q1 r))
        (Fin 8.5) /\
    BoxplotValues.upperfence r =
      py_min2 (BoxplotValues.q3 r + Fin 1.5 * (BoxplotValues.q3 r - BoxplotValues.q1 r))
              (Fin 100) /\
    Feq (BoxplotValues.upperfence r) (Fin 8.5) /\
    Feq (BoxplotValues.q1 r - Fin 1.5 * (BoxplotValues.q3 r - BoxplotValues.q1 r))
        (Fin (-1.5)) /\
    BoxplotValues.lowerfence r =
      py_max2 (BoxplotValues.q1 r - Fin 1.5 * (BoxplotValues.q3 r - BoxplotValues.q1 r))
              (Fin 1) /\
    Feq (BoxplotValues.lowerfence r) (Fin 1) /\
    Feq (BoxplotValues.min r) (Fin 1) /\
    Feq (BoxplotValues.max r) (Fin 100).
Proof.
  eexists. split; [vm_compute; reflexivity|].
  repeat split; vm_compute; reflexivity.
Qed.

(** The summary of a non-empty finite vector, field by field. *)
Lemma summary_finite (sqrt : float -> float) (q0 : Q) (qs : list Q) :
  exists m M r1 r2 r3,
    _precompute_boxplot_values sqrt (map Fin (q0 :: qs)) =
      Ok (BoxplotValues.dict
            (Fin m)
            (py_max2 (Fin r1 - Fin 1.5 * (Fin r3 - Fin r1)) (Fin m))
            (Fin r1) (Fin r2) (Fin r3)
            (py_min2 (Fin r3 + Fin 1.5 * (Fin r3 - Fin r1)) (Fin M))
            (Fin M)
            (Fin 1.57 * (Fin r3 - Fin r1) / sqrt (of_nat (length (q0 :: qs))))) /\
    In m (q0 :: qs) /\ In M (q0 :: qs) /\
    (forall q, In q (q0 :: qs) -> (m <= q <= M)%Q) /\
    (m <= r1)%Q /\ (r1 <= r2)%Q /\ (r2 <= r3)%Q /\ (r3 <= M)%Q.
Proof.
  set (l := q0 :: qs).
  assert (Hne : l <> []) by discriminate.
  destruct (np_sort_Fin l) as (ss & Hss & Hperm & Hsorted).
  assert (Hpos : (0 < length ss)%nat).
  { rewrite (Permutation_length Hperm). simpl. lia. }
  destruct (py_min_Fin q0 qs) as (m & Hm & Hm_in & Hm_le).
  destruct (py_max_Fin q0 qs) as (M & HM & HM_in & HM_ge).
  destruct (@percentile_Fin l ss (0.25 * 100) Hss Hne ltac:(lra)) as (r1 & H1 & E1).
  destruct (@percentile_Fin l ss (0.5 * 100) Hss Hne ltac:(lra)) as (r2 & H2 & E2).
  destruct (@percentile_Fin l ss (0.75 * 100) Hss Hne ltac:(lra)) as (r3 & H3 & E3).
  exists m, M, r1, r2, r3.
  set (top := inject_Z (Z.of_nat (length ss - 1))) in *.
  assert (Htop : (0 <= top)%Q).
  { unfold top. change 0%Q with (inject_Z 0). rewrite <- Zle_Qle. lia. }
  assert (C1 : (0.25 * 100 / 100 == 1 # 4)%Q) by reflexivity.
  assert (C2 : (0.5 * 100 / 100 == 1 # 2)%Q) by reflexivity.
  assert (C3 : (0.75 * 100 / 100 == 3 # 4)%Q) by reflexivity.
  assert (Hv1 : (0 <= top * (0.25 * 100 / 100))%Q) by (rewrite C1; lra).
  assert (Hv12 : (top * (0.25 * 100 / 100) <= top * (0.5 * 100 / 100))%Q)
    by (rewrite C1, C2; lra).
  assert (Hv23 : (top * (0.5 * 100 / 100) <= top * (0.75 * 100 / 100))%Q)
    by (rewrite C2, C3; lra).
  assert (Hv2 : (0 <= top * (0.5 * 100 / 100))%Q) by (rewrite C2; lra).
  assert (Hv3 : (0 <= top * (0.75 * 100 / 100))%Q) by (rewrite C3; lra).
  pose proof (qinterp_mono Hsorted Hpos Hv1 Hv12) as H12.
  pose proof (qinterp_mono Hsorted Hpos Hv2 Hv23) as H23.
  destruct (qinterp_between Hsorted Hpos Hv1) as (a & a' & Ha & _ & Ha_le & _).
  destruct (qinterp_between Hsorted Hpos Hv3) as (b' & b & _ & Hb & _ & Hb_ge).
  assert (Hma : (m <= a)%Q).
  { apply Hm_le. eapply Permutation_in; eauto. }
  assert (HbM : (b <= M)%Q).
  { apply HM_ge. eapply Permutation_in; eauto. }
  split.
  - unfold _precompute_boxplot_values.
    rewrite dropna_Fin. fold l.
    rewrite !quantile_Fin by exact Hne.
    rewrite H1, H2, H3.
    change (length (map Fin l) =? 0)%nat with false. cbv iota.
    rewrite length_map.
    fold l in Hm, HM. rewrite Hm, HM. reflexivity.
  - repeat split; auto; lra.
Qed.

(** The summary only sees what [dropna] leaves. *)
Lemma precompute_dropna (sqrt : float -> float) (y : list float) :
  _precompute_boxplot_values sqrt y = _precompute_boxplot_values sqrt (dropna y).
Proof.
  unfold _precompute_boxplot_values. now rewrite dropna_idempotent.
Qed.



(* ================================================================== *)
(** * C6: the distribution smoother *)
(* ================================================================== *)

Lemma nan_range_step (lo hi v : float) :
  isreal_or_nan v = true -> nan_range lo hi ->
  nan_range (np_fmin lo v) (np_fmax hi v).
Proof.
  intros Hv [[-> ->]|(a & b & -> & -> & Hab)].
  - destruct v as [| |q]; try discriminate.
    + now left.
    + right. exists q, q. repeat split. lra.
  - destruct v as [| |q]; try discriminate.
    + right. exists a, b. now repeat split.
    + right. unfold np_fmin, np_fmax, fge. rewrite !orb_false_r.
      destruct (fle (Fin a) (Fin q)) eqn:E1, (fle (Fin q) (Fin b)) eqn:E2;
        try apply fle_Fin in E1; try apply fle_Fin in E2;
        try apply fle_Fin_false in E1; try apply fle_Fin_false in E2;
        eexists; eexists; (split; [reflexivity|]); (split; [reflexivity|]); lra.
Qed.

Lemma nan_range_fold (l : list float) :
  Forall (fun v => isreal_or_nan v = true) l ->
  forall lo hi, nan_range lo hi ->
    nan_range (fold_left np_fmin l lo) (fold_left np_fmax l hi).
Proof.
  induction 1 as [|v l Hv _ IH]; intros lo hi H; simpl; [exact H|].
  apply IH. now apply nan_range_step.
Qed.

Lemma nanmin_nanmax_range (v0 : float) (l : list float) :
  Forall (fun v => isreal_or_nan v = true) (v0 :: l) ->
  exists lo hi, np_nanmin (v0 :: l) = Ok lo /\ np_nanmax (v0 :: l) = Ok hi /\
                nan_range lo hi.
Proof.
  intro H. inversion H as [|? ? Hv0 Hl]; subst.
  eexists. eexists. split; [reflexivity|]. split; [reflexivity|].
  apply nan_range_fold; [exact Hl|].
  destruct v0 as [| |q]; try discriminate.
  - now left.
  - right. exists q, q. repeat split. lra.
Qed.

Lemma increasing_edges_sorted (xs : list Q) :
  StronglySorted Qle xs -> increasing_edges (map Fin xs) = true.
Proof.
  induction 1 as [|x xs Hs IH Hx]; [reflexivity|].
  destruct xs as [|x' xs']; [reflexivity|].
  cbn [map increasing_edges] in *. rewrite IH, andb_true_r.
  inversion Hx; subst. unfold fgt.
  apply negb_true_iff. now apply flt_Fin_false.
Qed.

Lemma increasing_edges_NaN (n : nat) : increasing_edges (repeat NaN n) = true.
Proof.
  induction n as [|n IH]; [reflexivity|].
  destruct n; [reflexivity|]. cbn [repeat increasing_edges] in *. exact IH.
Qed.

Lemma increasing_edges_range (lo hi : float) (num : nat) :
  (2 <= num)%nat -> nan_range lo hi ->
  increasing_edges (linspace lo hi num) = true.
Proof.
  intros Hn [[-> ->]|(a & b & -> & -> & Hab)].
  - rewrite linspace_NaN. apply increasing_edges_NaN.
  - destruct (Forall_isfinite_map_Fin (linspace_isfinite a b Hn)) as [xs Hxs].
    rewrite Hxs. apply increasing_edges_sorted.
    apply non_decreasing_map_Fin. rewrite <- Hxs.
    now apply linspace_non_decreasing.
Qed.

Lemma length_diff {A : Type} (sub : A -> A -> A) (l : list A) :
  length (diff sub l) = (length l - 1)%nat.
Proof.
  induction l as [|a l IH]; [reflexivity|].
  destruct l as [|b l]; [reflexivity|].
  cbn [diff length] in *. rewrite IH. lia.
Qed.

Lemma length_cumulative (a bins : list float) :
  length (cumulative a bins) = length bins.
Proof.
  induction bins as [|e bins IH]; [reflexivity|].
  destruct bins as [|e' bins]; [reflexivity|].
  cbn [cumulative length] in *. now rewrite IH.
Qed.

Lemma histogram_density_ok (a bins : list float) :
  increasing_edges bins = true ->
  exists density, histogram_density a bins = Ok density /\
                  length density = (length bins - 1)%nat.
Proof.
  intro H. unfold histogram_density. rewrite H. simpl.
  eexists. split; [reflexivity|].
  rewrite length_map, length_combine, !length_diff, length_cumulative.
  lia.
Qed.

Lemma length_tl {A : Type} (l : list A) : length (tl l) = (length l - 1)%nat.
Proof. destruct l; simpl; lia. Qed.

(** The body of [_smooth_data] once the range is known. *)
Lemma smooth_data_range (exp : float -> float) (npoints sigma : nat)
      (data : list float) (lo hi : float) :
  (1 <= sigma)%nat -> increasing_edges (linspace lo hi npoints) = true ->
  exists density count_y,
    histogram_density data (linspace lo hi npoints) = Ok density /\
    gaussian_filter1d exp (map (fun c => (c * of_nat (length data))%float) density) sigma
      = Ok count_y /\
    _smooth_data exp npoints sigma data (Some lo) (Some hi)
      = Ok (tl (linspace lo hi npoints), count_y) /\
    length (tl (linspace lo hi npoints)) = (npoints - 1)%nat /\
    length count_y = (npoints - 1)%nat.
Proof.
  intros Hs Hinc.
  destruct (histogram_density_ok data _ Hinc) as (density & Hd & Hdl).
  destruct (gaussian_filter1d_ok exp
              (map (fun c => (c * of_nat (length data))%float) density) Hs)
    as (count_y & Hg & Hgl).
  exists density, count_y.
  rewrite length_map, Hdl, length_linspace in Hgl.
  repeat split; auto.
  - unfold _smooth_data. simpl. rewrite Hd. simpl. rewrite Hg. reflexivity.
  - now rewrite length_tl, length_linspace.
Qed.




(* ================================================================== *)
(** * C7: where NaNs are dropped, and where they are not *)
(* ================================================================== *)

Lemma fill_bins_inv_from (x : list float) (idxs : list nat) : forall data d0 d,
  foldM (fun bin_dict '(bin_idx, val) =>
           b <- getitem x bin_idx ;; Ok (dict_append bin_dict b val))
        (combine idxs data) d0 = Ok d ->
  d = fill_pure (combine (edges_of x idxs) data) d0.
Proof.
  induction idxs as [|i idxs IH]; intros data d0 d H; simpl in *.
  - now injection H as <-.
  - destruct data as [|v data]; simpl in *; [now injection H as <-|].
    unfold getitem in H at 1.
    destruct (nth_error x i) as [b|] eqn:E; simpl in H; [|discriminate].
    rewrite (nth_error_nth _ _ NaN E). now apply IH.
Qed.

Lemma over_time_bins_inv (V T : list float) (time_bins : nat)
      (x : list float) (d : defaultdict) :
  over_time_bins V T time_bins = Ok (x, d) ->
  exists edges, d = fill_pure (combine edges V) [].
Proof.
  unfold over_time_bins. intro H.
  destruct (bin_edges (hours T) time_bins) as [x'|]; simpl in H; [|discriminate].
  destruct (digitize_right (hours T) x') as [idxs|]; simpl in H; [|discriminate].
  destruct (fill_bins x' idxs V) as [d'|] eqn:E; simpl in H; [|discriminate].
  injection H as <- <-.
  exists (edges_of x' idxs). now apply fill_bins_inv_from.
Qed.

Lemma group_of_incl (edges data : list float) (b v : float) :
  In v (group_of edges data b) -> In v data.
Proof.
  unfold group_of. intro H.
  apply in_map_iff in H. destruct H as ([e v'] & <- & H).
  apply filter_In in H. destruct H as [H _].
  eapply in_combine_r; eauto.
Qed.

Lemma percentile_NaN (obs : list float) (p : Q) :
  In NaN obs -> percentile obs p = NaN.
Proof.
  intro H. unfold percentile.
  assert (E : existsb isnan obs = true).
  { apply existsb_exists. exists NaN. now split. }
  now rewrite E.
Qed.




(* ================================================================== *)
(** * C8: the resampler, scalar mode *)
(* ================================================================== *)

Lemma mapM_getitem (x : list float) (idxs : list nat) :
  Forall (fun i => (i < length x)%nat) idxs ->
  mapM (getitem x) idxs = Ok (map (fun i => nth i x NaN) idxs).
Proof.
  induction 1 as [|i idxs Hi _ IH]; simpl; [reflexivity|].
  rewrite getitem_nth by exact Hi. simpl. now rewrite IH.
Qed.

Lemma np_le_fle (a b : float) :
  isnan a = false -> isnan b = false -> np_less b a = false -> fle a b = true.
Proof.
  unfold np_less.
  destruct a as [|[|]|p], b as [|[|]|q]; simpl; try reflexivity; try discriminate.
  intros _ _. rewrite orb_false_r, negb_false_iff. auto.
Qed.

Lemma randint_lcg_spec : randint_spec randint_lcg.
Proof.
  intros seed low high size. unfold randint_lcg. split.
  - intro H. destruct (Nat.leb_spec high low); [lia|].
    eexists. split; [reflexivity|]. split.
    + now rewrite length_map, length_seq.
    + apply Forall_forall. intros i Hi.
      apply in_map_iff in Hi. destruct Hi as (k & <- & _).
      pose proof (Nat.mod_upper_bound (75 * (seed + k) + 74) (high - low)).
      lia.
  - intros H _. destruct (Nat.leb_spec high low); [reflexivity | lia].
Qed.

Lemma resample_empty
      (randint : nat -> nat -> nat -> nat -> result (list nat))
      (interp1d : list float -> list float -> option String.string -> Z ->
                  result (list float -> result (list float)))
      (npoints : nat) (interp_type : option String.string) (axis : Z) :
  randint_spec randint -> (0 < npoints)%nat ->
  _interpolate randint interp1d [] npoints None interp_type axis = Raise ValueError.
Proof.
  intros Hspec Hn. unfold _interpolate, resample. simpl.
  destruct (Hspec 1%nat 0%nat 0%nat npoints) as [_ H].
  rewrite H by lia. reflexivity.
Qed.

(** C8, counterexample.  On the empty vector there is nothing to draw
    from: the index draw over the empty range [0, 0) raises ValueError
    and no vector is returned.  And a vector that holds a NaN gives a
    result that holds it too: sorted by numpy (NaN last), but not
    non-decreasing for [<=]. *)
Lemma C8_empty_vector_raises :
  randint_spec randint_lcg /\
  _interpolate randint_lcg interp1d_step [] 1 None None (-1) = Raise ValueError /\
  _interpolate randint_lcg interp1d_step [NaN] 2 None None (-1)
    = Ok (Resampled [NaN; NaN]) /\
  ~ non_decreasing [NaN; NaN].
Proof.
  split; [exact randint_lcg_spec|]. split; [reflexivity|]. split; [reflexivity|].
  intro H. specialize (H 0%nat 1%nat NaN NaN (Nat.lt_0_succ 0) eq_refl eq_refl).
  discriminate.
Qed.

(** C8, amended.  For every non-empty vector V and every count P, the
    scalar mode draws P indices into V with the seed 1 and returns the
    drawn values sorted: a vector of length P, sorted in numpy's order
    (NaN last), all of whose values come from V, and non-decreasing when V
    holds no NaN. *)
Theorem C8_resample_sorted
        (randint : nat -> nat -> nat -> nat -> result (list nat))
        (interp1d : list float -> list float -> option String.string -> Z ->
                    result (list float -> result (list float)))
        (V : list float) (npoints : nat)
        (interp_type : option String.string) (axis : Z) :
  randint_spec randint -> V <> [] ->
  exists indices out,
    randint 1%nat 0%nat (length V) npoints = Ok indices /\
    _interpolate randint interp1d V npoints None interp_type axis
      = Ok (Resampled out) /\
    length out = npoints /\
    np_sorted out /\
    Permutation out (map (fun i => nth i V NaN) indices) /\
    (forall v, In v out -> In v V) /\
    (Forall (fun v => isnan v = false) V -> non_decreasing out).
Proof.
  intros Hspec Hne.
  assert (Hlen : (0 < length V)%nat) by (destruct V; [congruence | simpl; lia]).
  destruct (Hspec 1%nat 0%nat (length V) npoints) as [H _].
  destruct (H Hlen) as (indices & Hi & Hil & Hir).
  assert (Hrange : Forall (fun i => (i < length V)%nat) indices).
  { eapply Forall_impl; [|exact Hir]. simpl. intros; lia. }
  set (drawn := map (fun i => nth i V NaN) indices).
  assert (Hin : forall v, In v (np_sort drawn) -> In v V).
  { intros v Hv. apply (Permutation_in _ (np_sort_perm drawn)) in Hv.
    apply in_map_iff in Hv. destruct Hv as (i & <- & Hi').
    rewrite Forall_forall in Hrange. apply nth_In. now apply Hrange. }
  exists indices, (np_sort drawn).
  split; [exact Hi|]. split.
  { unfold _interpolate, resample. rewrite Hi. simpl.
    rewrite mapM_getitem by exact Hrange. reflexivity. }
  split.
  { rewrite length_np_sort. unfold drawn. now rewrite length_map. }
  split; [apply np_sort_np_sorted|].
  split; [apply np_sort_perm|].
  split; [exact Hin|].
  intros Hnan i j a b Hij Ha Hb.
  rewrite Forall_forall in Hnan.
  apply np_le_fle.
  - apply Hnan, Hin. eapply nth_error_In; eauto.
  - apply Hnan, Hin. eapply nth_error_In; eauto.
  - exact (np_sort_np_sorted drawn Hij Ha Hb).
Qed.

Lemma C8_resample_sorted_witness :
  exists out,
    _interpolate randint_lcg interp1d_step [Fin 3; Fin 1; Fin 2] 5 None None (-1)
      = Ok (Resampled out) /\
    length out = 5%nat /\ non_decreasing out.
Proof.
  destruct (@C8_resample_sorted randint_lcg interp1d_step
              [Fin 3; Fin 1; Fin 2] 5 None (-1)%Z)
    as (indices & out & _ & H & Hl & _ & _ & _ & Hnd).
  - exact randint_lcg_spec.
  - discriminate.
  - exists out. split; [exact H|]. split; [exact Hl|].
    apply Hnd. repeat constructor.
Defined.

(* ================================================================== *)
(** * C9: the resampler, paired mode *)
(* ================================================================== *)




(* ================================================================== *)
(** * Worked examples *)
(* ================================================================== *)

(** Four reads at 0, 1, 2 and 3 hours with values 10, 20, 30, 40 and three
    bins: the edges are 0, 1.5 and 3 hours; the read at 0 h falls on the
    first edge, the read at 1 h under the edge 1.5, the reads at 2 h and
    3 h under the edge 3. *)
Example over_time_three_bins :
  exists x d,
    over_time_bins [Fin 10; Fin 20; Fin 30; Fin 40]
                   [Fin 0; Fin 3600; Fin 7200; Fin 10800] 3 = Ok (x, d) /\
    Forall2 Feq x [Fin 0; Fin 1.5; Fin 3] /\
    digitize_right (hours [Fin 0; Fin 3600; Fin 7200; Fin 10800]) x
      = Ok [0; 1; 2; 2]%nat /\
    map snd d = [[Fin 10]; [Fin 20]; [Fin 30; Fin 40]] /\
    Forall2 (Forall2 Feq) (over_time_percentiles x d)
      [[Fin 10; Fin 20; Fin 30];
       [Fin 10; Fin 20; Fin 32.5];
       [Fin 10; Fin 20; Fin 35];
       [Fin 10; Fin 20; Fin 37.5];
       [Fin 10; Fin 20; Fin 40]].
Proof.
  eexists. eexists. split; [vm_compute; reflexivity|].
  split; [repeat constructor|].
  split; [vm_compute; reflexivity|].
  split; [vm_compute; reflexivity|].
  vm_compute. repeat constructor.
Qed.

(** The reflect boundary mode, (d c b a | a b c d | d c b a). *)
Example reflect_index_four :
  map (reflect_index 4) [-4; -3; -2; -1; 0; 1; 2; 3; 4; 5; 6; 7]%Z
    = [3; 2; 1; 0; 0; 1; 2; 3; 3; 2; 1; 0]%nat.
Proof. reflexivity. Qed.

(** A density histogram: four values over the edges 1, 2.5, 4 give the
    counts 2 and 2, hence the densities 2 / 1.5 / 4 = 1/3 each. *)
Example histogram_density_two_bins :
  exists density,
    histogram_density [Fin 1; Fin 2; Fin 3; Fin 4] (linspace (Fin 1) (Fin 4) 3)
      = Ok density /\
    Forall2 Feq density [Fin (1 # 3); Fin (1 # 3)].
Proof.
  eexists. split; [vm_compute; reflexivity|]. repeat constructor.
Qed.

(* ================================================================== *)
(** * Further properties of the time binner *)
(* ================================================================== *)

Lemma dict_append_Forall (Q : float * list float -> Prop)
      (d : defaultdict) (b v : float) :
  Forall Q d ->
  (forall k obs, Q (k, obs) -> Q (k, obs ++ [v])) ->
  Q (b, [v]) ->
  Forall Q (dict_append d b v).
Proof.
  intros Hd Hext Hnew. induction Hd as [|[k obs] d Hk Hd IH]; simpl.
  - now repeat constructor.
  - destruct (feqb k b); constructor; auto.
Qed.

Lemma dict_append_keys_distinct (d : defaultdict) (b v : float) :
  keys_distinct d -> keys_distinct (dict_append d b v).
Proof.
  unfold keys_distinct.
  induction 1 as [|[k obs] d Hk Hd IH]; simpl.
  - repeat constructor.
  - destruct (feqb k b) eqn:E.
    + constructor; [exact Hk | exact Hd].
    + constructor; [|exact IH].
      apply (@dict_append_Forall (fun kv => feqb k (fst kv) = false)); auto.
Qed.

Lemma dict_append_values (d : defaultdict) (b v : float) :
  Permutation (dict_values (dict_append d b v)) (v :: dict_values d).
Proof.
  unfold dict_values. induction d as [|[k obs] d IH]; simpl.
  - reflexivity.
  - destruct (feqb k b); simpl.
    + rewrite <- app_assoc. simpl.
      symmetry. apply Permutation_middle.
    + rewrite IH. symmetry. apply (Permutation_middle obs).
Qed.

Lemma fill_bins_invariant (x : list float) (pairs : list (nat * float)) :
  forall d0 d,
    foldM (fun bin_dict '(bin_idx, val) =>
             b <- getitem x bin_idx ;; Ok (dict_append bin_dict b val))
          pairs d0 = Ok d ->
    keys_distinct d0 ->
    Forall (fun kv => In (fst kv) x /\ snd kv <> []) d0 ->
    keys_distinct d /\
    Forall (fun kv => In (fst kv) x /\ snd kv <> []) d /\
    Permutation (dict_values d) (dict_values d0 ++ map snd pairs).
Proof.
  induction pairs as [|[i v] pairs IH]; intros d0 d H Hk Hin; simpl in H.
  - injection H as <-. rewrite app_nil_r. auto.
  - unfold getitem in H at 1.
    destruct (nth_error x i) as [b|] eqn:E; simpl in H; [|discriminate].
    destruct (IH _ _ H) as (Hk' & Hin' & Hperm).
    + now apply dict_append_keys_distinct.
    + apply dict_append_Forall; auto.
      * intros k obs [H1 H2]. split; [exact H1|]. simpl.
        destruct obs; discriminate.
      * simpl. split; [eapply nth_error_In; eauto | discriminate].
    + split; [exact Hk'|]. split; [exact Hin'|].
      rewrite Hperm, dict_append_values. simpl.
      apply Permutation_middle.
Qed.

Lemma length_digitize_right (t x : list float) (idxs : list nat) :
  digitize_right t x = Ok idxs -> length idxs = length t.
Proof.
  unfold digitize_right.
  destruct (monotonicity x =? 0)%Z; [discriminate|].
  destruct (monotonicity x =? -1)%Z; intro H; injection H as <-;
    apply length_map.
Qed.

(** X1.  Whenever the binning stage of [_over_time_graph] returns, the
    dictionary holds every paired observation exactly once (the values of
    the data series up to the length of the time series, none lost, none
    duplicated); its keys are edges of [x], no two of them compare equal,
    and no key has an empty list, so [np.percentile] is never called on an
    empty list. *)
Theorem over_time_bins_keeps_observations
        (V T : list float) (time_bins : nat) (x : list float) (d : defaultdict) :
  over_time_bins V T time_bins = Ok (x, d) ->
  Permutation (dict_values d) (firstn (length T) V) /\
  keys_distinct d /\
  Forall (fun kv => In (fst kv) x /\ snd kv <> []) d.
Proof.
  unfold over_time_bins. intro H.
  destruct (bin_edges (hours T) time_bins) as [x'|]; simpl in H; [|discriminate].
  destruct (digitize_right (hours T) x') as [idxs|] eqn:Ed; simpl in H; [|discriminate].
  destruct (fill_bins x' idxs V) as [d'|] eqn:E; simpl in H; [|discriminate].
  injection H as <- <-.
  destruct (fill_bins_invariant x' (combine idxs V) E) as (Hk & Hin & Hperm).
  - constructor.
  - constructor.
  - split; [|split; assumption].
    rewrite Hperm. simpl.
    apply length_digitize_right in Ed. rewrite length_hours in Ed.
    rewrite <- Ed. clear.
    revert V. induction idxs as [|i idxs IH]; intros [|v V]; simpl; auto.
Qed.

Lemma over_time_bins_keeps_observations_witness :
  exists x d,
    over_time_bins [Fin 10; Fin 20; Fin 30] [Fin 0; Fin 3600; Fin 3600] 2 = Ok (x, d) /\
    Permutation (dict_values d) [Fin 10; Fin 20; Fin 30].
Proof.
  destruct (over_time_bins [Fin 10; Fin 20; Fin 30] [Fin 0; Fin 3600; Fin 3600] 2)
    as [[x d]|e] eqn:E; [|vm_compute in E; discriminate].
  exists x, d. split; [reflexivity|].
  exact (proj1 (over_time_bins_keeps_observations _ _ _ E)).
Defined.

Lemma inject_nat_nonneg (n : nat) : (0 <= inject_Z (Z.of_nat n))%Q.
Proof. change 0%Q with (inject_Z 0). rewrite <- Zle_Qle. lia. Qed.

Lemma inject_nat_inj_lt (i j : nat) :
  (inject_Z (Z.of_nat i) < inject_Z (Z.of_nat j) + 1)%Q -> (i <= j)%nat.
Proof.
  intro H. change 1%Q with (inject_Z 1) in H.
  rewrite <- inject_Z_plus, <- Zlt_Qlt in H. lia.
Qed.

(** At the position 0 the interpolation returns the smallest value, at
    the last position (and beyond) the largest. *)
Lemma qinterp_bottom (ss : list Q) (v : Q) :
  (0 < length ss)%nat -> (v == 0)%Q -> (qinterp ss v == nth 0 ss 0)%Q.
Proof.
  intros Hpos Hv.
  destruct (qinterp_form (v := v) ss Hpos ltac:(lra))
    as (i & g & Hi & Hg0 & Hg1 & _ & Hval & Hbelow & Habove).
  pose proof (inject_nat_nonneg i) as Hi0.
  pose proof (inject_nat_nonneg (length ss - 1)) as Htop.
  assert (Hsum : (inject_Z (Z.of_nat i) + g == 0)%Q).
  { destruct (Qlt_le_dec v (inject_Z (Z.of_nat (length ss - 1)))) as [Hlt|Hge].
    - rewrite (Hbelow Hlt). exact Hv.
    - rewrite (Habove Hge). lra. }
  assert (Hg : (g == 0)%Q) by lra.
  assert (Ei : i = 0%nat).
  { assert (H : (i <= 0)%nat).
    { apply inject_nat_inj_lt. change (inject_Z (Z.of_nat 0)) with 0%Q. lra. }
    lia. }
  subst i. rewrite Hval, Hg. ring.
Qed.

Lemma qinterp_top (ss : list Q) (v : Q) :
  (0 < length ss)%nat -> (inject_Z (Z.of_nat (length ss - 1)) <= v)%Q ->
  (qinterp ss v == nth (length ss - 1) ss 0)%Q.
Proof.
  intros Hpos Hv.
  pose proof (inject_nat_nonneg (length ss - 1)) as Htop.
  destruct (qinterp_form (v := v) ss Hpos ltac:(lra))
    as (i & g & Hi & Hg0 & Hg1 & _ & Hval & _ & Habove).
  specialize (Habove Hv).
  assert (E1 : (i <= length ss - 1)%nat) by lia.
  assert (E2 : (length ss - 1 <= i)%nat) by (apply inject_nat_inj_lt; lra).
  assert (Ei : i = (length ss - 1)%nat) by lia.
  rewrite Ei in *.
  assert (Hg : (g == 0)%Q) by lra.
  rewrite Hval, Hg. ring.
Qed.

(** The five percentiles of a non-empty finite list: in order, from its
    minimum to its maximum. *)
Lemma percentile_band (q0 : Q) (qs : list Q) :
  exists c0 c1 c2 c3 c4,
    percentile (map Fin (q0 :: qs)) 0 = Fin c0 /\
    percentile (map Fin (q0 :: qs)) 25 = Fin c1 /\
    percentile (map Fin (q0 :: qs)) 50 = Fin c2 /\
    percentile (map Fin (q0 :: qs)) 75 = Fin c3 /\
    percentile (map Fin (q0 :: qs)) 100 = Fin c4 /\
    (c0 <= c1)%Q /\ (c1 <= c2)%Q /\ (c2 <= c3)%Q /\ (c3 <= c4)%Q /\
    (forall q, In q (q0 :: qs) -> (c0 <= q)%Q /\ (q <= c4)%Q) /\
    (exists a, In a (q0 :: qs) /\ (c0 == a)%Q) /\
    (exists b, In b (q0 :: qs) /\ (c4 == b)%Q).
Proof.
  set (l := q0 :: qs).
  assert (Hne : l <> []) by discriminate.
  destruct (np_sort_Fin l) as (ss & Hss & Hperm & Hsorted).
  assert (Hpos : (0 < length ss)%nat).
  { rewrite (Permutation_length Hperm). simpl. lia. }
  destruct (@percentile_Fin l ss 0 Hss Hne ltac:(lra)) as (c0 & H0 & E0).
  destruct (@percentile_Fin l ss 25 Hss Hne ltac:(lra)) as (c1 & H1 & E1).
  destruct (@percentile_Fin l ss 50 Hss Hne ltac:(lra)) as (c2 & H2 & E2).
  destruct (@percentile_Fin l ss 75 Hss Hne ltac:(lra)) as (c3 & H3 & E3).
  destruct (@percentile_Fin l ss 100 Hss Hne ltac:(lra)) as (c4 & H4 & E4).
  exists c0, c1, c2, c3, c4.
  set (top := inject_Z (Z.of_nat (length ss - 1))) in *.
  pose proof (inject_nat_nonneg (length ss - 1)) as Htop. fold top in Htop.
  assert (K0 : (0 / 100 == 0)%Q) by reflexivity.
  assert (K1 : (25 / 100 == 1 # 4)%Q) by reflexivity.
  assert (K2 : (50 / 100 == 1 # 2)%Q) by reflexivity.
  assert (K3 : (75 / 100 == 3 # 4)%Q) by reflexivity.
  assert (K4 : (100 / 100 == 1)%Q) by reflexivity.
  assert (V0 : (top * (0 / 100) == 0)%Q) by (rewrite K0; ring).
  assert (V1 : (0 <= top * (25 / 100))%Q) by (rewrite K1; lra).
  assert (V2 : (0 <= top * (50 / 100))%Q) by (rewrite K2; lra).
  assert (V3 : (0 <= top * (75 / 100))%Q) by (rewrite K3; lra).
  assert (V4 : (top <= top * (100 / 100))%Q) by (rewrite K4; lra).
  assert (V01 : (top * (0 / 100) <= top * (25 / 100))%Q) by (rewrite K0, K1; lra).
  assert (V12 : (top * (25 / 100) <= top * (50 / 100))%Q) by (rewrite K1, K2; lra).
  assert (V23 : (top * (50 / 100) <= top * (75 / 100))%Q) by (rewrite K2, K3; lra).
  assert (V34 : (top * (75 / 100) <= top * (100 / 100))%Q) by (rewrite K3, K4; lra).
  assert (V0' : (0 <= top * (0 / 100))%Q) by (rewrite V0; lra).
  pose proof (qinterp_mono Hsorted Hpos V0' V01) as M01.
  pose proof (qinterp_mono Hsorted Hpos V1 V12) as M12.
  pose proof (qinterp_mono Hsorted Hpos V2 V23) as M23.
  pose proof (qinterp_mono Hsorted Hpos V3 V34) as M34.
  pose proof (qinterp_bottom ss Hpos V0) as B0.
  pose proof (qinterp_top ss Hpos V4) as B4.
  split; [exact H0|]. split; [exact H1|]. split; [exact H2|].
  split; [exact H3|]. split; [exact H4|].
  split; [lra|]. split; [lra|]. split; [lra|]. split; [lra|].
  split; [|split].
  - intros q Hq. apply (Permutation_in _ (Permutation_sym Hperm)) in Hq.
    destruct (In_nth _ _ 0%Q Hq) as (k & Hk & <-).
    pose proof (sorted_nth_le (i := 0) (j := k) Hsorted ltac:(lia) Hk).
    pose proof (sorted_nth_le (i := k) (j := length ss - 1) Hsorted ltac:(lia) ltac:(lia)).
    split; lra.
  - exists (nth 0 ss 0%Q). split; [|lra].
    apply (Permutation_in _ Hperm). now apply nth_In.
  - exists (nth (length ss - 1) ss 0%Q). split; [|lra].
    apply (Permutation_in _ Hperm). apply nth_In. lia.
Qed.







(* ================================================================== *)
(** * Further properties of the distribution smoother *)
(* ================================================================== *)

Lemma strictly_increasing_tl (x : list float) :
  strictly_increasing x -> strictly_increasing (tl x).
Proof.
  intros H i j a b Hij Ha Hb. destruct x as [|x0 x]; [destruct i; discriminate|].
  simpl in *. apply (H (S i) (S j)); simpl; auto. lia.
Qed.

Lemma nth_error_tl {A : Type} (x : list A) (i : nat) :
  nth_error (tl x) i = nth_error x (S i).
Proof. destruct x; [now destruct i | reflexivity]. Qed.



Lemma increasing_edges_decreasing (a b : Q) (num : nat) :
  (2 <= num)%nat -> (b < a)%Q ->
  increasing_edges (linspace (Fin a) (Fin b) num) = false.
Proof.
  intros Hn Hab.
  destruct (nth_error_linspace_Fin a b (i := 0) Hn ltac:(lia)) as (e0 & H0 & E0).
  destruct (nth_error_linspace_Fin a b (i := 1) Hn ltac:(lia)) as (e1 & H1 & E1).
  destruct (linspace (Fin a) (Fin b) num) as [|x0 [|x1 rest]]; try discriminate.
  simpl in H0, H1. injection H0 as ->. injection H1 as ->.
  cbn [increasing_edges]. unfold fgt.
  assert (Hlt : flt (Fin e1) (Fin e0) = true).
  { apply flt_Fin. rewrite E0, E1.
    pose proof (inject_nat_pos (n := num - 1) ltac:(lia)) as Hd.
    assert (Hstep : ((b - a) / inject_Z (Z.of_nat (num - 1)) < 0)%Q).
    { apply Qlt_shift_div_r; [exact Hd | lra]. }
    change (inject_Z (Z.of_nat 0)) with 0%Q.
    change (inject_Z (Z.of_nat 1)) with 1%Q. lra. }
  now rewrite Hlt.
Qed.



Lemma within_step (lo hi v : float) :
  isreal_or_nan v = true -> nan_range lo hi ->
  (forall q, within lo hi q -> within (np_fmin lo v) (np_fmax hi v) q) /\
  (forall q, v = Fin q -> within (np_fmin lo v) (np_fmax hi v) q).
Proof.
  intros Hv Hr. unfold within.
  destruct Hr as [[-> ->]|(a & b & -> & -> & Hab)].
  - destruct v as [| |p]; try discriminate.
    + split; [intros q (a & b & H & _); discriminate | intros; discriminate].
    + split; [intros q (a & b & H & _); discriminate|].
      intros q E. injection E as ->. exists q, q. repeat split; lra.
  - destruct v as [| |p]; try discriminate.
    + split; [|intros; discriminate].
      intros q (a' & b' & Ea & Eb & H1 & H2). exists a', b'. now repeat split.
    + unfold np_fmin, np_fmax, fge. rewrite !orb_false_r.
      destruct (fle (Fin a) (Fin p)) eqn:E1, (fle (Fin p) (Fin b)) eqn:E2;
        try apply fle_Fin in E1; try apply fle_Fin in E2;
        try apply fle_Fin_false in E1; try apply fle_Fin_false in E2;
        (split;
         [intros q (a' & b' & Ea & Eb & H1 & H2);
          injection Ea as <-; injection Eb as <-
         |intros q E; injection E as ->]);
        eexists; eexists; (split; [reflexivity|]); (split; [reflexivity|]);
        split; lra.
Qed.

Lemma within_fold (l : list float) :
  Forall (fun v => isreal_or_nan v = true) l ->
  forall lo hi, nan_range lo hi ->
    (forall q, within lo hi q ->
       within (fold_left np_fmin l lo) (fold_left np_fmax l hi) q) /\
    (forall q, In (Fin q) l ->
       within (fold_left np_fmin l lo) (fold_left np_fmax l hi) q).
Proof.
  induction 1 as [|v l Hv _ IH]; intros lo hi Hr; simpl.
  - split; [auto | intros q []].
  - destruct (@within_step lo hi v Hv Hr) as [Hkeep Hnew].
    destruct (IH _ _ (@nan_range_step lo hi v Hv Hr)) as [IH1 IH2].
    split.
    + intros q Hq. apply IH1. now apply Hkeep.
    + intros q [->|Hq]; [apply IH1; now apply Hnew | now apply IH2].
Qed.

(** [np.nanmin] and [np.nanmax] bound every non-missing value. *)
Lemma nanmin_nanmax_bounds (v0 : float) (l : list float) :
  Forall (fun v => isreal_or_nan v = true) (v0 :: l) ->
  exists lo hi,
    np_nanmin (v0 :: l) = Ok lo /\ np_nanmax (v0 :: l) = Ok hi /\
    forall q, In (Fin q) (v0 :: l) -> within lo hi q.
Proof.
  intro H. inversion H as [|? ? Hv0 Hl]; subst.
  eexists. eexists. split; [reflexivity|]. split; [reflexivity|].
  assert (Hr : nan_range v0 v0).
  { destruct v0 as [| |q]; try discriminate; [now left|].
    right. exists q, q. repeat split. lra. }
  destruct (@within_fold l Hl v0 v0 Hr) as [H1 H2].
  intros q [->|Hq]; [|now apply H2].
  apply H1. exists q, q. repeat split; lra.
Qed.

Lemma last_cons_indep {A : Type} (l : list A) (z a b : A) :
  last (z :: l) a = last (z :: l) b.
Proof.
  revert z. induction l as [|y l IH]; intro z; [reflexivity|].
  change (last (z :: y :: l) a) with (last (y :: l) a).
  change (last (z :: y :: l) b) with (last (y :: l) b).
  apply IH.
Qed.

Lemma sum_diff (l : list Z) : forall a acc,
  fold_left Z.add (diff Z.sub (a :: l)) acc = (acc + (last l a - a))%Z.
Proof.
  induction l as [|b l IH]; intros a acc.
  - simpl. lia.
  - change (diff Z.sub (a :: b :: l)) with ((b - a)%Z :: diff Z.sub (b :: l)).
    cbn [fold_left]. rewrite IH.
    destruct l as [|z l]; [simpl; lia|].
    change (last (b :: z :: l) a) with (last (z :: l) a).
    rewrite (last_cons_indep l z b a). lia.
Qed.

Lemma cumulative_cons (data : list float) (e0 e1 : float) (rest : list float) :
  cumulative data (e0 :: e1 :: rest)
    = count_below data e0 :: cumulative data (e1 :: rest).
Proof. reflexivity. Qed.

Lemma cumulative_last (data : list float) (rest : list float) : forall e d,
  last (cumulative data (e :: rest)) d = count_upto data (last rest e).
Proof.
  induction rest as [|e' rest IH]; intros e d; [reflexivity|].
  rewrite cumulative_cons.
  assert (Hne : exists c cs, cumulative data (e' :: rest) = c :: cs).
  { destruct rest; [now eexists; eexists | rewrite cumulative_cons; now eexists; eexists]. }
  destruct Hne as (c & cs & Hc).
  change (last (e' :: rest) e) with
    (match rest with [] => e' | _ => last rest e end).
  specialize (IH e' d). rewrite Hc in *.
  change (last (count_below data e :: c :: cs) d) with (last (c :: cs) d).
  rewrite IH. destruct rest as [|e'' rest]; [reflexivity|].
  now rewrite (last_cons_indep rest e'' e e').
Qed.

Lemma nth_error_last {A : Type} (l : list A) : forall a,
  nth_error (a :: l) (length l) = Some (last l a).
Proof.
  induction l as [|b l IH]; intro a; [reflexivity|].
  change (nth_error (a :: b :: l) (length (b :: l)))
    with (nth_error (b :: l) (length l)).
  rewrite IH. destruct l as [|c l]; [reflexivity|].
  change (last (b :: c :: l) a) with (last (c :: l) a).
  now rewrite (last_cons_indep l c b a).
Qed.

Lemma diff_fsub_Fin (xs : list Q) :
  diff fsub (map Fin xs) = map Fin (diff Qminus xs).
Proof.
  induction xs as [|a xs IH]; [reflexivity|].
  destruct xs as [|b xs]; [reflexivity|].
  change (diff fsub (map Fin (a :: b :: xs)))
    with (fsub (Fin b) (Fin a) :: diff fsub (map Fin (b :: xs))).
  rewrite IH. reflexivity.
Qed.

Lemma diff_sorted_pos (xs : list Q) :
  StronglySorted Qlt xs -> Forall (fun w => (0 < w)%Q) (diff Qminus xs).
Proof.
  induction 1 as [|a xs Hs IH Ha]; [constructor|].
  destruct xs as [|b xs]; [constructor|].
  change (diff Qminus (a :: b :: xs)) with (Qminus b a :: diff Qminus (b :: xs)).
  constructor; [|exact IH].
  inversion Ha; subst. unfold Qminus. lra.
Qed.

Lemma filter_length_le {A : Type} (p q : A -> bool) (l : list A) :
  (forall v, In v l -> p v = true -> q v = true) ->
  (length (filter p l) <= length (filter q l))%nat.
Proof.
  induction l as [|v l IH]; intro H; [simpl; lia|].
  assert (IH' := IH (fun w Hw => H w (or_intror Hw))).
  simpl. destruct (p v) eqn:Ep.
  - rewrite (H v (or_introl eq_refl) Ep). simpl. lia.
  - destruct (q v); simpl; lia.
Qed.

Lemma np_less_trans_Fin (v : float) (a b : Q) :
  (a <= b)%Q -> np_less v (Fin a) = true -> np_less v (Fin b) = true.
Proof.
  intros Hab. unfold np_less. simpl. rewrite !orb_false_r.
  destruct v as [|s|q]; simpl; auto.
  intro H. apply negb_true_iff in H. apply Qle_bool_false in H.
  apply negb_true_iff. apply Qle_bool_false. lra.
Qed.

Lemma np_less_upto_Fin (v : float) (a b : Q) :
  (a <= b)%Q -> np_less v (Fin a) = true -> negb (np_less (Fin b) v) = true.
Proof.
  intros Hab. unfold np_less. simpl. rewrite !orb_false_r.
  destruct v as [|s|q]; simpl; try discriminate.
  - now destruct s.
  - intro H. apply negb_true_iff in H. apply Qle_bool_false in H.
    rewrite ?andb_false_r, ?orb_false_r, ?negb_involutive.
    apply Qle_bool_iff. lra.
Qed.

(** The cumulative counts [np.histogram] takes differences of never
    decrease along increasing edges. *)
Lemma cumulative_counts_nonneg (data : list float) (xs : list Q) :
  StronglySorted Qlt xs ->
  Forall (fun n => (0 <= n)%Z) (diff Z.sub (cumulative data (map Fin xs))).
Proof.
  induction 1 as [|a xs Hs IH Ha]; [constructor|].
  destruct xs as [|b xs]; [constructor|].
  inversion Ha as [|? ? Hab _]; subst.
  destruct xs as [|c xs].
  - change (diff Z.sub (cumulative data (map Fin [a; b])))
      with [(count_upto data (Fin b) - count_below data (Fin a))%Z].
    constructor; [|constructor].
    unfold count_upto, count_below.
    assert (H := @filter_length_le _ (fun v => np_less v (Fin a))
                   (fun v => negb (np_less (Fin b) v)) data
                   (fun v _ => @np_less_upto_Fin v a b (Qlt_le_weak _ _ Hab))).
    lia.
  - change (diff Z.sub (cumulative data (map Fin (a :: b :: c :: xs))))
      with ((count_below data (Fin b) - count_below data (Fin a))%Z
              :: diff Z.sub (cumulative data (map Fin (b :: c :: xs)))).
    constructor; [|exact IH].
    unfold count_below.
    assert (H := @filter_length_le _ (fun v => np_less v (Fin a))
                   (fun v => np_less v (Fin b)) data
                   (fun v _ => @np_less_trans_Fin v a b (Qlt_le_weak _ _ Hab))).
    lia.
Qed.

Lemma count_below_none (data : list float) (x : Q) :
  Forall (fun v => isreal_or_nan v = true) data ->
  (forall q, In (Fin q) data -> (x <= q)%Q) ->
  count_below data (Fin x) = 0%Z.
Proof.
  intros Hr Hb. unfold count_below.
  replace (filter (fun v => np_less v (Fin x)) data) with (@nil float);
    [reflexivity|].
  symmetry. induction data as [|v data IH]; [reflexivity|].
  inversion Hr as [|? ? Hv Hr']; subst. simpl.
  rewrite <- (IH Hr' (fun q Hq => Hb q (or_intror Hq))).
  destruct v as [|s|q]; try discriminate; [reflexivity|].
  rewrite np_less_Fin. simpl.
  assert (Hq := Hb q (or_introl eq_refl)).
  apply Qle_bool_iff in Hq. now rewrite Hq.
Qed.

Lemma count_upto_all (data : list float) (x : Q) :
  Forall (fun v => isreal_or_nan v = true) data ->
  (forall q, In (Fin q) data -> (q <= x)%Q) ->
  count_upto data (Fin x) = Z.of_nat (length (dropna data)).
Proof.
  intros Hr Hb. unfold count_upto, dropna. f_equal. f_equal.
  apply filter_ext_in. intros v Hv.
  rewrite Forall_forall in Hr. specialize (Hr v Hv).
  destruct v as [|s|q]; try discriminate; [reflexivity|].
  rewrite np_less_Fin. simpl. rewrite negb_involutive.
  apply Qle_bool_iff. now apply Hb.
Qed.

Lemma density_Fin (T : Z) (ws : list Q) :
  T <> 0%Z -> Forall (fun w => (0 < w)%Q) ws ->
  forall n,
    map (fun '(ni, dbi) => (of_Z ni / dbi / of_Z T)%float) (combine n (map Fin ws))
    = map Fin (map (fun '(ni, w) => (inject_Z ni / w / inject_Z T)%Q) (combine n ws)).
Proof.
  intros HT Hw. induction Hw as [|w ws Hw0 _ IH]; intro n.
  - destruct n; reflexivity.
  - destruct n as [|ni n]; [reflexivity|].
    cbn [map combine]. rewrite IH. f_equal.
    unfold of_Z, fdiv, Qzero.
    assert (E1 : Qeq_bool w 0 = false).
    { destruct (Qeq_bool w 0) eqn:E; [|reflexivity].
      apply Qeq_bool_iff in E. lra. }
    assert (E2 : Qeq_bool (inject_Z T) 0 = false).
    { destruct (Qeq_bool (inject_Z T) 0) eqn:E; [|reflexivity].
      apply Qeq_bool_iff in E. exfalso. apply HT.
      unfold Qeq in E. simpl in E. lia. }
    now rewrite E1, E2.
Qed.

Lemma density_sum (T : Z) (ws : list Q) :
  T <> 0%Z -> Forall (fun w => (0 < w)%Q) ws ->
  forall n acc, length n = length ws ->
    (inject_Z acc / inject_Z T +
     Qsum (map (fun '(d, w) => d * w)
             (combine (map (fun '(ni, w) => inject_Z ni / w / inject_Z T)
                           (combine n ws)) ws))
     == inject_Z (fold_left Z.add n acc) / inject_Z T)%Q.
Proof.
  intros HT Hw.
  assert (HT' : ~ (inject_Z T == 0)%Q).
  { intro E. apply HT. unfold Qeq in E. simpl in E. lia. }
  induction Hw as [|w ws Hw0 _ IH]; intros n acc Hlen.
  - destruct n; [|discriminate]. simpl. lra.
  - destruct n as [|ni n]; [discriminate|]. injection Hlen as Hlen.
    cbn [combine map fold_left]. unfold Qsum in *. cbn [fold_right].
    rewrite <- (IH n (acc + ni)%Z Hlen). rewrite inject_Z_plus.
    field. split; [exact HT' | lra].
Qed.

Lemma density_nonneg (T : Z) (ws : list Q) :
  (0 < T)%Z -> Forall (fun w => (0 < w)%Q) ws ->
  forall n, Forall (fun ni => (0 <= ni)%Z) n ->
    Forall (fun d => (0 <= d)%Q)
           (map (fun '(ni, w) => (inject_Z ni / w / inject_Z T)%Q) (combine n ws)).
Proof.
  intros HT Hw. induction Hw as [|w ws Hw0 _ IH]; intros n Hn.
  - destruct n; constructor.
  - destruct n as [|ni n]; [constructor|].
    inversion Hn as [|? ? Hni Hn']; subst.
    cbn [combine map]. constructor; [|now apply IH].
    assert (H1 : (0 <= inject_Z ni)%Q).
    { change 0%Q with (inject_Z 0). now rewrite <- Zle_Qle. }
    assert (H2 : (0 < inject_Z T)%Q).
    { change 0%Q with (inject_Z 0). now rewrite <- Zlt_Qlt. }
    apply Qle_shift_div_l; [exact H2|].
    apply Qle_shift_div_l; [exact Hw0|]. lra.
Qed.

Lemma StronglySorted_Qlt_Qle (xs : list Q) :
  StronglySorted Qlt xs -> StronglySorted Qle xs.
Proof.
  induction 1 as [|a xs Hs IH Ha]; constructor; [exact IH|].
  eapply Forall_impl; [|exact Ha]. intros b Hb. now apply Qlt_le_weak.
Qed.

Lemma last_map_Fin (l : list Q) (d : Q) :
  last (map Fin l) (Fin d) = Fin (last l d).
Proof.
  induction l as [|a l IH]; [reflexivity|].
  destruct l as [|b l]; [reflexivity|].
  change (last (map Fin (a :: b :: l)) (Fin d)) with (last (map Fin (b :: l)) (Fin d)).
  now rewrite IH.
Qed.

(** The density [np.histogram] returns over strictly increasing finite
    edges that cover the sample: non-negative, and of total mass one. *)
Lemma histogram_density_mass (data : list float) (x0 x1 : Q) (rest : list Q) :
  Forall (fun v => isreal_or_nan v = true) data ->
  StronglySorted Qlt (x0 :: x1 :: rest) ->
  dropna data <> [] ->
  (forall q, In (Fin q) data -> (x0 <= q)%Q /\ (q <= last rest x1)%Q) ->
  exists ds,
    histogram_density data (map Fin (x0 :: x1 :: rest)) = Ok (map Fin ds) /\
    length ds = S (length rest) /\
    Forall (fun d => (0 <= d)%Q) ds /\
    (Qsum (map (fun '(d, w) => d * w)
             (combine ds (diff Qminus (x0 :: x1 :: rest)))) == 1)%Q.
Proof.
  intros Hreal Hs Hne Hb.
  set (xs := x0 :: x1 :: rest) in *.
  set (n := diff Z.sub (cumulative data (map Fin xs))).
  set (ws := diff Qminus xs).
  set (T := fold_left Z.add n 0%Z).
  assert (HT : T = Z.of_nat (length (dropna data))).
  { unfold T, n, xs. cbn [map]. rewrite cumulative_cons, sum_diff.
    rewrite cumulative_last, last_map_Fin.
    rewrite (count_below_none Hreal (fun q Hq => proj1 (Hb q Hq))).
    rewrite (count_upto_all Hreal (fun q Hq => proj2 (Hb q Hq))). lia. }
  assert (HT0 : (0 < T)%Z).
  { rewrite HT. destruct (dropna data); [congruence | simpl; lia]. }
  assert (Hws : Forall (fun w => (0 < w)%Q) ws) by now apply diff_sorted_pos.
  assert (Hlen : length n = length ws).
  { unfold n, ws. rewrite !length_diff, length_cumulative. now rewrite length_map. }
  exists (map (fun '(ni, w) => (inject_Z ni / w / inject_Z T)%Q) (combine n ws)).
  split; [|split; [|split]].
  - unfold histogram_density.
    rewrite (increasing_edges_sorted (StronglySorted_Qlt_Qle Hs)). cbn [negb].
    fold n. fold T. rewrite diff_fsub_Fin. fold ws.
    now rewrite (@density_Fin T ws ltac:(lia) Hws n).
  - rewrite length_map, length_combine, Hlen, Nat.min_id.
    unfold ws. rewrite length_diff. unfold xs. simpl. lia.
  - apply density_nonneg; [exact HT0 | exact Hws |].
    now apply cumulative_counts_nonneg.
  - pose proof (@density_sum T ws ltac:(lia) Hws n 0%Z Hlen) as H.
    fold T in H.
    assert (HT' : ~ (inject_Z T == 0)%Q).
    { intro E. unfold Qeq in E. simpl in E. lia. }
    transitivity (inject_Z T / inject_Z T)%Q; [|field; exact HT'].
    rewrite <- H. change (inject_Z 0) with 0%Q. field. exact HT'.
Qed.

Lemma strictly_increasing_sorted (xs : list Q) :
  strictly_increasing (map Fin xs) -> StronglySorted Qlt xs.
Proof.
  intro H. apply index_sorted_strongly. intros i j a b Hij Ha Hb.
  apply flt_Fin. apply (H i j (Fin a) (Fin b) Hij).
  - rewrite nth_error_map, Ha. reflexivity.
  - rewrite nth_error_map, Hb. reflexivity.
Qed.

Lemma nanmin_all_missing (l : list float) :
  dropna l = [] -> fold_left np_fmin l NaN = NaN.
Proof.
  induction l as [|v l IH]; [reflexivity|].
  unfold dropna. simpl. destruct v as [|s|q]; simpl; try discriminate.
  exact IH.
Qed.

Lemma nanmin_finite_some (V : list float) (a : Q) :
  np_nanmin V = Ok (Fin a) -> dropna V <> [].
Proof.
  intros H E. destruct V as [|v0 l]; [discriminate|].
  unfold dropna in E. simpl in E.
  destruct v0 as [|s|q]; simpl in E; try discriminate.
  unfold np_nanmin, reduce in H. rewrite (nanmin_all_missing l E) in H.
  discriminate.
Qed.



(* ================================================================== *)
(** * The callers of the summary and of the resampler *)
(* ================================================================== *)

(** The summary of real data: the all-zero record when no value is left,
    and otherwise finite ordered fields between two values of the data. *)
Lemma precompute_within (sqrt : float -> float) (V : list float) :
  Forall (fun v => isreal_or_nan v = true) V ->
  exists d, _precompute_boxplot_values sqrt V = Ok d /\
    ((dropna V = [] /\ d = zero_summary) \/
     (dropna V <> [] /\ summary_within V d)).
Proof.
  intro Hreal. destruct (dropna_real Hreal) as [[|q0 qs] Hd].
  - exists zero_summary. rewrite precompute_dropna, Hd. split; [reflexivity|].
    left. now split.
  - destruct (summary_finite sqrt q0 qs)
      as (m & M & r1 & r2 & r3 & Hr & Hm_in & HM_in & Hb & Hm1 & H12 & H23 & H3M).
    rewrite precompute_dropna, Hd, Hr. eexists. split; [reflexivity|].
    right. split; [discriminate|].
    assert (Hin : forall q, In q (q0 :: qs) -> In (Fin q) V).
    { intros q Hq. apply (in_map Fin) in Hq. rewrite <- Hd in Hq.
      apply filter_In in Hq. tauto. }
    assert (Hlow : exists lf,
               py_max2 (Fin r1 - Fin 1.5 * (Fin r3 - Fin r1)) (Fin m) = Fin lf /\
               (m <= lf)%Q /\ (lf <= r1)%Q).
    { unfold py_max2, fgt. cbn [fsub fadd fopp fmul].
      destruct (flt (Fin (r1 + - (1.5 * (r3 + - r1)))) (Fin m)) eqn:E.
      - exists m. split; [reflexivity|]. split; lra.
      - apply flt_Fin_false in E. eexists. split; [reflexivity|]. split; lra. }
    assert (Hup : exists uf,
               py_min2 (Fin r3 + Fin 1.5 * (Fin r3 - Fin r1)) (Fin M) = Fin uf /\
               (r3 <= uf)%Q /\ (uf <= M)%Q).
    { unfold py_min2. cbn [fsub fadd fopp fmul].
      destruct (flt (Fin M) (Fin (r3 + 1.5 * (r3 + - r1)))) eqn:E.
      - exists M. split; [reflexivity|]. split; lra.
      - apply flt_Fin_false in E. eexists. split; [reflexivity|]. split; lra. }
    destruct Hlow as (lf & -> & Hl1 & Hl2). destruct Hup as (uf & -> & Hu1 & Hu2).
    exists m, lf, r1, r2, r3, uf, M. cbn.
    repeat (split; [first [reflexivity | assumption | now apply Hin]|]).
    assumption.
Qed.

Lemma summary_within_incl (V W : list float) (d : BoxplotValues.t) :
  (forall q, In (Fin q) V -> In (Fin q) W) ->
  summary_within V d -> summary_within W d.
Proof.
  intros Hincl (m & lf & r1 & r2 & r3 & uf & M & H).
  exists m, lf, r1, r2, r3, uf, M.
  destruct H as (? & ? & ? & ? & ? & ? & ? & Hm & HM & ?).
  repeat (split; [assumption|]). split; [now apply Hincl|].
  split; [now apply Hincl | assumption].
Qed.

(** The scalar mode of [_interpolate] on a non-empty vector: [npoints]
    values, all drawn from the vector. *)
Lemma interpolate_resampled
      (randint : nat -> nat -> nat -> nat -> result (list nat))
      (interp1d : list float -> list float -> option String.string -> Z ->
                  result (list float -> result (list float)))
      (V : list float) (npoints : nat)
      (interp_type : option String.string) (axis : Z) :
  randint_spec randint -> V <> [] ->
  exists out,
    _interpolate randint interp1d V npoints None interp_type axis
      = Ok (Resampled out) /\
    length out = npoints /\
    (forall v, In v out -> In v V).
Proof.
  intros Hspec Hne.
  assert (Hlen : (0 < length V)%nat) by (destruct V; [congruence | simpl; lia]).
  destruct (Hspec 1%nat 0%nat (length V) npoints) as [H _].
  destruct (H Hlen) as (indices & Hi & Hil & Hir).
  assert (Hrange : Forall (fun i => (i < length V)%nat) indices).
  { eapply Forall_impl; [|exact Hir]. simpl. intros; lia. }
  exists (np_sort (map (fun i => nth i V NaN) indices)).
  split; [|split].
  - unfold _interpolate, resample. rewrite Hi. cbn [bind].
    rewrite (mapM_getitem _ Hrange). reflexivity.
  - now rewrite length_np_sort, length_map.
  - intros v Hv. apply (Permutation_in _ (np_sort_perm _)) in Hv.
    apply in_map_iff in Hv. destruct Hv as (i & <- & Hi').
    rewrite Forall_forall in Hrange. apply nth_In. now apply Hrange.
Qed.

Lemma resampled_summary
      (sqrt : float -> float)
      (randint : nat -> nat -> nat -> nat -> result (list nat))
      (interp1d : list float -> list float -> option String.string -> Z ->
                  result (list float -> result (list float)))
      (V : list float) (npoints : nat) :
  randint_spec randint -> V <> [] ->
  Forall (fun v => isreal_or_nan v = true) V ->
  exists out d,
    _interpolate randint interp1d V npoints None None (-1) = Ok (Resampled out) /\
    _precompute_boxplot_values sqrt out = Ok d /\
    (d = zero_summary \/ summary_within V d).
Proof.
  intros Hspec Hne Hreal.
  destruct (@interpolate_resampled randint interp1d V npoints None (-1)%Z Hspec Hne)
    as (out & Hout & _ & Hin).
  assert (Hreal' : Forall (fun v => isreal_or_nan v = true) out).
  { apply Forall_forall. intros v Hv. rewrite Forall_forall in Hreal.
    apply Hreal. now apply Hin. }
  destruct (precompute_within sqrt Hreal') as (d & Hd & Hcase).
  exists out, d. split; [exact Hout|]. split; [exact Hd|].
  destruct Hcase as [[_ ->]|[_ Hw]]; [now left | right].
  exact (@summary_within_incl out V d (fun q => Hin (Fin q)) Hw).
Qed.



Lemma dropna_positive_only (column : list float) :
  dropna (positive_only column) = filter (fun v => fgt v (Fin 0)) column.
Proof.
  unfold dropna, positive_only.
  induction column as [|v column IH]; [reflexivity|].
  cbn [map filter]. rewrite IH.
  destruct (fgt v (Fin 0)) eqn:E; [|reflexivity].
  destruct v; [discriminate | reflexivity | reflexivity].
Qed.

(** X9.  The read-length summary of one barcode in
    [_barcode_boxplot_graph]: the values that are not above 0 are
    withheld, so the summary is that of the positive values only.  It is
    the all-zero record when the column has no positive value; otherwise
    its fields are finite, ordered, between two values of the column, and
    the minimum (hence every field) is above 0.  No exception is
    raised. *)
Theorem barcode_length_summary_positive
        (sqrt : float -> float) (column : list float) :
  Forall (fun v => isreal_or_nan v = true) column ->
  exists d,
    barcode_length_summary sqrt column = Ok d /\
    _precompute_boxplot_values sqrt (filter (fun v => fgt v (Fin 0)) column) = Ok d /\
    (((forall q, In (Fin q) column -> (q <= 0)%Q) /\ d = zero_summary) \/
     (summary_within column d /\
      exists m, BoxplotValues.min d = Fin m /\ (0 < m)%Q)).
Proof.
  intro Hreal.
  assert (Hreal' : Forall (fun v => isreal_or_nan v = true) (positive_only column)).
  { apply Forall_forall. intros v Hv. apply in_map_iff in Hv.
    destruct Hv as (w & <- & Hw). rewrite Forall_forall in Hreal.
    destruct (fgt w (Fin 0)); [now apply Hreal | reflexivity]. }
  assert (Hpos : forall q, In (Fin q) (positive_only column) ->
                           In (Fin q) column /\ (0 < q)%Q).
  { intros q Hq. apply in_map_iff in Hq. destruct Hq as (w & Ew & Hw).
    destruct (fgt w (Fin 0)) eqn:E; [|discriminate]. subst w.
    split; [exact Hw|]. now apply flt_Fin in E. }
  destruct (precompute_within sqrt Hreal') as (d & Hd & Hcase).
  exists d. split; [exact Hd|]. split.
  { rewrite <- dropna_positive_only, <- precompute_dropna. exact Hd. }
  destruct Hcase as [[Hnone ->]|[_ Hw]].
  - left. split; [|reflexivity]. intros q Hq.
    destruct (Qlt_le_dec 0 q) as [Hlt|Hle]; [|exact Hle]. exfalso.
    rewrite dropna_positive_only in Hnone.
    assert (Hin : In (Fin q) (filter (fun v => fgt v (Fin 0)) column)).
    { apply filter_In. split; [exact Hq|]. now apply flt_Fin. }
    rewrite Hnone in Hin. destruct Hin.
  - right. split.
    + exact (@summary_within_incl _ column d (fun q Hq => proj1 (Hpos q Hq)) Hw).
    + destruct Hw as (m & lf & r1 & r2 & r3 & uf & M & Hm & _ & _ & _ & _ & _ & _
                        & Hin & _).
      exists m. split; [exact Hm|]. exact (proj2 (Hpos m Hin)).
Qed.

Lemma barcode_length_summary_positive_witness :
  exists d,
    barcode_length_summary sqrt_rational
      [Fin 300; Fin 0; NaN; Fin 1200; Fin (-5)] = Ok d /\
    exists m, BoxplotValues.min d = Fin m /\ (0 < m)%Q.
Proof.
  destruct (@barcode_length_summary_positive sqrt_rational
              [Fin 300; Fin 0; NaN; Fin 1200; Fin (-5)])
    as (d & Hd & _ & [[Hnone _]|[_ Hm]]).
  - repeat constructor.
  - exfalso. assert (H := Hnone 300 (or_introl eq_refl)).
    revert H. apply Qlt_not_le. reflexivity.
  - exists d. split; [exact Hd | exact Hm].
Defined.

(* ================================================================== *)
(** * Colour blending *)
(* ================================================================== *)

Lemma component_text_byte (n : Z) :
  (0 <= n < 256)%Z -> Colors.component_text n = Colors.byte_hex n.
Proof.
  intro Hn.
  assert (Hall : forallb (fun k => String.eqb (Colors.component_text (Z.of_nat k))
                                              (Colors.byte_hex (Z.of_nat k)))
                         (seq 0 256) = true) by (vm_compute; reflexivity).
  rewrite forallb_forall in Hall.
  specialize (Hall (Z.to_nat n)). rewrite Z2Nat.id in Hall by lia.
  apply String.eqb_eq. apply Hall. apply in_seq. lia.
Qed.

Lemma blend_between (c b : Z) (a : Q) :
  (0 <= a)%Q -> (a <= 1)%Q ->
  (inject_Z (Z.min c b) <= (1 - a) * inject_Z c + a * inject_Z b)%Q /\
  ((1 - a) * inject_Z c + a * inject_Z b <= inject_Z (Z.max c b))%Q.
Proof.
  intros H0 H1.
  assert (Hmc : (inject_Z (Z.min c b) <= inject_Z c)%Q) by (rewrite <- Zle_Qle; lia).
  assert (Hmb : (inject_Z (Z.min c b) <= inject_Z b)%Q) by (rewrite <- Zle_Qle; lia).
  assert (HMc : (inject_Z c <= inject_Z (Z.max c b))%Q) by (rewrite <- Zle_Qle; lia).
  assert (HMb : (inject_Z b <= inject_Z (Z.max c b))%Q) by (rewrite <- Zle_Qle; lia).
  set (m := inject_Z (Z.min c b)) in *. set (M := inject_Z (Z.max c b)) in *.
  set (qc := inject_Z c) in *. set (qb := inject_Z b) in *.
  assert (P1 : (0 <= (1 - a) * (qc - m))%Q) by (apply Qmult_le_0_compat; lra).
  assert (P2 : (0 <= a * (qb - m))%Q) by (apply Qmult_le_0_compat; lra).
  assert (P3 : (0 <= (1 - a) * (M - qc))%Q) by (apply Qmult_le_0_compat; lra).
  assert (P4 : (0 <= a * (M - qb))%Q) by (apply Qmult_le_0_compat; lra).
  split.
  - setoid_replace ((1 - a) * qc + a * qb)%Q
      with (m + ((1 - a) * (qc - m) + a * (qb - m)))%Q by ring. lra.
  - setoid_replace ((1 - a) * qc + a * qb)%Q
      with (M - ((1 - a) * (M - qc) + a * (M - qb)))%Q by ring. lra.
Qed.



Lemma py_int_comp (x y : Q) : (x == y)%Q -> py_int x = py_int y.
Proof.
  intro E. unfold py_int.
  destruct (Qle_bool 0 x) eqn:Ex, (Qle_bool 0 y) eqn:Ey.
  - now apply Qfloor_comp.
  - apply Qle_bool_iff in Ex. apply Qle_bool_false in Ey. lra.
  - apply Qle_bool_iff in Ey. apply Qle_bool_false in Ex. lra.
  - now apply Qceiling_comp.
Qed.

Lemma py_int_Z (z : Z) : py_int (inject_Z z) = z.
Proof.
  unfold py_int. destruct (Qle_bool 0 (inject_Z z));
    [apply Qfloor_Z | apply Qceiling_Z].
Qed.

Lemma blend_zero (a : Q) (c b : Z) : (a == 0)%Q -> blend a c b = c.
Proof.
  intro Ha. unfold blend. rewrite <- (py_int_Z c) at 2.
  apply py_int_comp. rewrite Ha. ring.
Qed.

Lemma blend_one (a : Q) (c b : Z) : (a == 1)%Q -> blend a c b = b.
Proof.
  intro Ha. unfold blend. rewrite <- (py_int_Z b) at 2.
  apply py_int_comp. rewrite Ha. ring.
Qed.

(** One blended component: a byte between the two components, written
    with two digits. *)
Lemma component_blend (c b : Z) (a : Q) :
  (0 <= c <= 255)%Z -> (0 <= b <= 255)%Z -> (0 <= a)%Q -> (a <= 1)%Q ->
  Colors._transparent_component c b a = Colors.byte_hex (blend a c b) /\
  (Z.min c b <= blend a c b <= Z.max c b)%Z.
Proof.
  intros Hc Hb H0 H1.
  destruct (blend_between c b H0 H1) as [Hlo Hhi].
  unfold blend. set (v := ((1 - a) * inject_Z c + a * inject_Z b)%Q) in *.
  assert (Hv0 : (0 <= v)%Q).
  { eapply Qle_trans; [|exact Hlo]. change 0%Q with (inject_Z 0).
    rewrite <- Zle_Qle. lia. }
  assert (Hint : py_int v = Qfloor v).
  { unfold py_int. apply Qle_bool_iff in Hv0. now rewrite Hv0. }
  assert (Hn1 : (Z.min c b <= Qfloor v)%Z).
  { rewrite <- (Qfloor_Z (Z.min c b)). now apply Qfloor_resp_le. }
  assert (Hn2 : (Qfloor v <= Z.max c b)%Z).
  { rewrite <- (Qfloor_Z (Z.max c b)). now apply Qfloor_resp_le. }
  rewrite Hint. split; [|lia].
  change (Colors._transparent_component c b a)
    with (Colors.component_text (py_int v)).
  rewrite Hint. apply component_text_byte. lia.
Qed.

Lemma blend3_byte (a : Q) (background rgb : Z * Z * Z) :
  (0 <= a)%Q -> (a <= 1)%Q -> byte3 background -> byte3 rgb ->
  byte3 (blend3 a background rgb).
Proof.
  intros H0 H1. destruct background as [[br bg] bb], rgb as [[r g] b].
  intros (Hbr & Hbg & Hbb) (Hr & Hg & Hb). unfold blend3, byte3.
  destruct (component_blend Hr Hbr H0 H1) as [_ B1].
  destruct (component_blend Hg Hbg H0 H1) as [_ B2].
  destruct (component_blend Hb Hbb H0 H1) as [_ B3].
  repeat split; lia.
Qed.

Lemma transparent_colors_loop
      (int16 : String.string -> result Z) (a : Q) (br bg bb : Z)
      (colors : list (Z * Z * Z)) :
  (forall n, (0 <= n < 256)%Z -> int16 (Colors.byte_hex n) = Ok n) ->
  (0 <= a)%Q -> (a <= 1)%Q -> byte3 (br, bg, bb) ->
  Forall byte3 colors ->
  forall acc,
    foldM (fun result c =>
             r <- int16 (Colors.slice c 1 3) ;;
             g <- int16 (Colors.slice c 3 5) ;;
             b <- int16 (Colors.slice c 5 7) ;;
             Ok (result ++
                 [String.append
                    (String.append
                       (String.append Colors.hash
                                      (Colors._transparent_component r br a))
                       (Colors._transparent_component g bg a))
                    (Colors._transparent_component b bb a)]))
          (map Colors.color_of colors) acc
    = Ok (acc ++ map Colors.color_of (map (blend3 a (br, bg, bb)) colors)).
Proof.
  intros Hspec H0 H1 (Hbr & Hbg & Hbb).
  induction 1 as [|[[r g] b] colors (Hr & Hg & Hb) _ IH]; intro acc.
  - simpl. now rewrite app_nil_r.
  - cbn [map foldM].
    change (Colors.slice (Colors.color_of (r, g, b)) 1 3) with (Colors.byte_hex r).
    change (Colors.slice (Colors.color_of (r, g, b)) 3 5) with (Colors.byte_hex g).
    change (Colors.slice (Colors.color_of (r, g, b)) 5 7) with (Colors.byte_hex b).
    rewrite !Hspec by lia. cbn [bind].
    destruct (component_blend Hr Hbr H0 H1) as [-> _].
    destruct (component_blend Hg Hbg H0 H1) as [-> _].
    destruct (component_blend Hb Hbb H0 H1) as [-> _].
    rewrite IH, <- app_assoc. reflexivity.
Qed.

Lemma int16_hex_spec (n : Z) :
  (0 <= n < 256)%Z -> Colors.int16_hex (Colors.byte_hex n) = Ok n.
Proof.
  intro Hn. unfold Colors.int16_hex. f_equal.
  assert (Hall : forallb (fun k =>
                   Z.eqb (HexString.to_Z
                            (String.append Colors.zero_x
                               (Colors.byte_hex (Z.of_nat k))))
                         (Z.of_nat k))
                         (seq 0 256) = true) by (vm_compute; reflexivity).
  rewrite forallb_forall in Hall.
  specialize (Hall (Z.to_nat n)). rewrite Z2Nat.id in Hall by lia.
  apply Z.eqb_eq. apply Hall. apply in_seq. lia.
Qed.



(* ================================================================== *)
(** * The percentage column of the barcode table *)
(* ================================================================== *)

Lemma fold_left_add_acc (l : list Z) : forall acc,
  fold_left Z.add l acc = (acc + fold_left Z.add l 0)%Z.
Proof.
  induction l as [|c l IH]; intro acc; simpl; [lia|].
  rewrite IH, (IH c). lia.
Qed.

Lemma sum_nonneg (l : list Z) :
  Forall (fun c => (0 <= c)%Z) l ->
  (0 <= fold_left Z.add l 0)%Z /\
  Forall (fun c => (c <= fold_left Z.add l 0)%Z) l.
Proof.
  induction 1 as [|c l Hc _ [IH1 IH2]]; simpl; [split; [lia | constructor]|].
  rewrite fold_left_add_acc. split; [lia|].
  constructor; [lia|]. eapply Forall_impl; [|exact IH2]. simpl. intros; lia.
Qed.

Lemma percentages_sum (T : Z) (l : list Z) :
  (0 < T)%Z ->
  (Qsum (map (fun c => inject_Z c / inject_Z T * 100) l)
   == inject_Z (fold_left Z.add l 0%Z) / inject_Z T * 100)%Q.
Proof.
  intro HT.
  assert (HT' : ~ (inject_Z T == 0)%Q).
  { intro E. unfold Qeq in E. simpl in E. lia. }
  induction l as [|c l IH]; unfold Qsum in *; cbn [map fold_right fold_left].
  - field. exact HT'.
  - change (0 + c)%Z with c.
    rewrite IH, (fold_left_add_acc l c), inject_Z_plus. field. exact HT'.
Qed.



(* ================================================================== *)
(** * The thresholds of the yield plot *)
(* ================================================================== *)

Lemma fle_nonan (a b : float) : fle a b = true -> isnan a = false /\ isnan b = false.
Proof. destruct a, b; simpl; try discriminate; auto. Qed.

Lemma fle_refl_nonan (a : float) : isnan a = false -> fle a a = true.
Proof.
  destruct a as [|[|]|p]; simpl; try discriminate; auto.
  intros _. apply Qle_bool_iff. lra.
Qed.

Lemma not_fle_flt (a b : float) :
  isnan a = false -> isnan b = false -> fle a b = false -> flt b a = true.
Proof.
  destruct a as [|[|]|p], b as [|[|]|q]; simpl; try discriminate; auto.
  intros _ _ H. now rewrite H.
Qed.

Lemma flt_fle_trans (a b c : float) :
  flt a b = true -> fle b c = true -> flt a c = true.
Proof.
  destruct a as [|[|]|p], b as [|[|]|q], c as [|[|]|r];
    simpl; try discriminate; auto.
  intros H1 H2. apply negb_true_iff in H1. apply Qle_bool_false in H1.
  apply Qle_bool_iff in H2. apply negb_true_iff. apply Qle_bool_false. lra.
Qed.

Lemma flt_fle (a b : float) : flt a b = true -> fle a b = true.
Proof.
  destruct a as [|[|]|p], b as [|[|]|q]; simpl; try discriminate; auto.
  intro H. apply negb_true_iff in H. apply Qle_bool_false in H.
  apply Qle_bool_iff. lra.
Qed.

(** The scan of [argmin]: what holds of the best position so far holds
    of the position returned. *)
Lemma argmin_from_spec (a : list float) : forall pre min_ind mp,
  nth_error (pre ++ a) min_ind = Some mp ->
  (min_ind < length pre)%nat ->
  (isnan mp = true ->
     forall j dj, (j < min_ind)%nat -> nth_error pre j = Some dj -> isnan dj = false) ->
  (isnan mp = false ->
     forall j dj, nth_error pre j = Some dj ->
       Fle mp dj /\ ((j < min_ind)%nat -> Flt mp dj)) ->
  first_min (pre ++ a) (argmin_from min_ind mp (length pre) a).
Proof.
  induction a as [|v a IH]; intros pre min_ind mp Hnth Hlt Hnan Hmin.
  - simpl. rewrite app_nil_r in *. exists mp. split; [exact Hnth|].
    split; [exact Hnan | exact Hmin].
  - cbn [argmin_from]. destruct (isnan mp) eqn:Emp.
    + exists mp. split; [exact Hnth|]. split; [|intro H; congruence].
      intros _ j dj Hj Hdj. apply (Hnan eq_refl j dj Hj).
      rewrite nth_error_app1 in Hdj by lia. exact Hdj.
    + specialize (Hmin eq_refl).
      assert (Hpre : pre ++ v :: a = (pre ++ [v]) ++ a)
        by now rewrite <- app_assoc.
      assert (Hlen : S (length pre) = length (pre ++ [v]))
        by (rewrite length_app; simpl; lia).
      assert (Hsplit : forall j dj, nth_error (pre ++ [v]) j = Some dj ->
                 ((j < length pre)%nat /\ nth_error pre j = Some dj) \/
                 (j = length pre /\ dj = v)).
      { intros j dj Hdj. destruct (Nat.lt_ge_cases j (length pre)) as [Hj|Hj].
        - left. split; [exact Hj|]. now rewrite nth_error_app1 in Hdj.
        - right. rewrite nth_error_app2 in Hdj by exact Hj.
          destruct (j - length pre)%nat as [|k] eqn:Ek.
          + simpl in Hdj. injection Hdj as <-. split; [lia | reflexivity].
          + simpl in Hdj. destruct k; discriminate. }
      unfold fge. destruct (fle mp v) eqn:Ev; cbn [negb].
      * rewrite Hpre, Hlen. apply IH.
        -- rewrite <- Hpre. exact Hnth.
        -- rewrite <- Hlen. lia.
        -- intro H. congruence.
        -- intros _ j dj Hdj. destruct (Hsplit j dj Hdj) as [[Hj Hd]|[-> ->]].
           ++ now apply Hmin.
           ++ split; [exact Ev | lia].
      * rewrite Hpre, Hlen. apply IH.
        -- rewrite nth_error_app1 by (rewrite <- Hlen; lia).
           rewrite nth_error_app2 by lia. now rewrite Nat.sub_diag.
        -- rewrite <- Hlen. lia.
        -- intros _ j dj Hj Hdj.
           rewrite nth_error_app1 in Hdj by lia.
           destruct (Hmin j dj Hdj) as [Hle _]. now apply fle_nonan in Hle.
        -- intros Hv j dj Hdj.
           pose proof (@not_fle_flt mp v Emp Hv Ev) as Hvm.
           destruct (Hsplit j dj Hdj) as [[Hj Hd]|[-> ->]].
           ++ destruct (Hmin j dj Hd) as [Hle _].
              pose proof (@flt_fle_trans v mp dj Hvm Hle) as Hs.
              split; [now apply flt_fle | intros _; exact Hs].
           ++ split; [now apply fle_refl_nonan | lia].
Qed.

Lemma np_argmin_spec (a : list float) :
  a <> [] ->
  exists index, np_argmin a = Ok index /\ (index < length a)%nat /\ first_min a index.
Proof.
  intro Hne. destruct a as [|v a]; [congruence|].
  exists (argmin_from 0 v 1 a). split; [reflexivity|].
  assert (H : first_min ([v] ++ a) (argmin_from 0 v (length [v]) a)).
  { apply argmin_from_spec.
    - reflexivity.
    - simpl. lia.
    - intros _ j dj Hj. lia.
    - intros Hv j dj Hdj. destruct j as [|[|j]]; simpl in Hdj; try discriminate.
      injection Hdj as <-. split; [now apply fle_refl_nonan | lia]. }
  split; [|exact H].
  destruct H as (d & Hd & _). apply nth_error_Some. simpl in *. congruence.
Qed.

Lemma length_cumsum_from (a : list float) : forall acc,
  length (cumsum_from acc a) = length a.
Proof. induction a as [|v a IH]; intro acc; simpl; [reflexivity | now rewrite IH]. Qed.

Lemma length_np_cumsum (a : list float) : length (np_cumsum a) = length a.
Proof. destruct a; simpl; [reflexivity | now rewrite length_cumsum_from]. Qed.

(** One threshold: the x at the position where the cumulated yield is
    closest to [p] % of its largest value. *)
Lemma yield_threshold_spec (count_x1 count_y1 : list float) (p : Z) :
  count_y1 <> [] -> length count_x1 = length count_y1 ->
  exists ymax index x0,
    py_max (np_cumsum count_y1) = Ok ymax /\
    yield_threshold count_x1 count_y1 p = Ok x0 /\
    nth_error count_x1 index = Some x0 /\
    first_min (map (fun v => fabs (v - ymax * of_Z p / Fin 100)) (np_cumsum count_y1))
              index.
Proof.
  intros Hne Hlen. unfold yield_threshold.
  assert (Hy : np_cumsum count_y1 <> []).
  { destruct count_y1; [congruence | discriminate]. }
  destruct (py_max (np_cumsum count_y1)) as [ymax|e] eqn:Emax.
  2:{ destruct (np_cumsum count_y1); [congruence | discriminate]. }
  cbn [bind].
  set (dist := map (fun v => fabs (v - ymax * of_Z p / Fin 100)) (np_cumsum count_y1)).
  assert (Hd : dist <> []).
  { unfold dist. destruct (np_cumsum count_y1); [congruence | discriminate]. }
  destruct (np_argmin_spec Hd) as (index & Hi & Hrange & Hfirst).
  rewrite Hi. cbn [bind].
  assert (Hix : (index < length count_x1)%nat).
  { unfold dist in Hrange. rewrite length_map, length_np_cumsum in Hrange. lia. }
  exists ymax, index, (nth index count_x1 NaN).
  split; [reflexivity|]. split; [now apply getitem_nth|].
  split; [now apply nth_error_nth'|]. exact Hfirst.
Qed.

Lemma smooth_data_default_ok (exp : float -> float) (npoints sigma : nat)
      (V : list float) :
  (2 <= npoints)%nat -> (1 <= sigma)%nat -> V <> [] ->
  Forall (fun v => isreal_or_nan v = true) V ->
  exists count_x count_y,
    _smooth_data exp npoints sigma V None None = Ok (count_x, count_y) /\
    length count_x = (npoints - 1)%nat /\ length count_y = (npoints - 1)%nat.
Proof.
  intros Hn Hs Hne Hreal. destruct V as [|v0 l]; [congruence|].
  destruct (nanmin_nanmax_range Hreal) as (lo & hi & Hlo & Hhi & Hrange).
  pose proof (increasing_edges_range Hn Hrange) as Hinc.
  destruct (@smooth_data_range exp npoints sigma (v0 :: l) lo hi Hs Hinc)
    as (density & count_y & Hd & Hg & Hsm & Hlx & Hly).
  exists (tl (linspace lo hi npoints)), count_y.
  split; [|split; assumption].
  unfold _smooth_data in *. rewrite Hlo, Hhi. exact Hsm.
Qed.



(* ================================================================== *)
(** * The flowcell layout and the channel occupancy *)
(* ================================================================== *)

Lemma distinct_NoDup {A : Type} (eqb : A -> A -> bool) (l : list A) :
  (forall x y, eqb x y = true <-> x = y) -> distinct eqb l = true -> NoDup l.
Proof.
  intro Heq. induction l as [|a l IH]; intro H; constructor.
  - simpl in H. apply andb_prop in H. destruct H as [H1 _].
    apply negb_true_iff in H1. intro Hin.
    assert (E : existsb (eqb a) l = true).
    { apply existsb_exists. exists a. split; [exact Hin | now apply Heq]. }
    congruence.
  - apply IH. simpl in H. apply andb_prop in H. tauto.
Qed.

Lemma included_incl (l l' : list nat) :
  forallb (fun x => existsb (Nat.eqb x) l') l = true -> incl l l'.
Proof.
  intros H x Hx. rewrite forallb_forall in H. specialize (H x Hx).
  apply existsb_exists in H. destruct H as (y & Hy & E).
  apply Nat.eqb_eq in E. now subst.
Qed.

Lemma Zsum_perm (l l' : list Z) : Permutation l l' -> Zsum l = Zsum l'.
Proof. unfold Zsum. induction 1; simpl; lia. Qed.

Lemma pair_eqb_eq (p q : nat * nat) :
  (fst p =? fst q)%nat && (snd p =? snd q)%nat = true <-> p = q.
Proof.
  destruct p as [a b], q as [c d]. simpl. rewrite andb_true_iff, !Nat.eqb_eq.
  split; [intros [-> ->]; reflexivity | intro H; injection H; auto].
Qed.

(** The layout lists every channel from 1 to 512 once. *)
Lemma flowcell_layout_perm : Permutation _minion_flowcell_layout (seq 1 512).
Proof.
  apply NoDup_Permutation.
  - apply (distinct_NoDup Nat.eqb); [apply Nat.eqb_eq | vm_compute; reflexivity].
  - apply seq_NoDup.
  - intro x. split; apply included_incl; vm_compute; reflexivity.
Qed.

(** X14.  The flowcell layout and the channel occupancy table of
    [plot_performance].  The layout is an arrangement of the 512 channel
    numbers 1..512, each listed once.  The table has 512 rows; its (row,
    column) pairs fill a grid of 16 rows and 32 columns, column by
    column, without repeating a cell, so the pivot is well defined.  The
    reads of the table add up to the reads of the channels 1..512: every
    such channel is counted once, a channel without an entry counts 0,
    and an entry for any other channel number is ignored. *)
Theorem flowcell_occupancy (pore_measure : nat -> option Z) :
  Permutation _minion_flowcell_layout (seq 1 512) /\
  length (pore_values pore_measure) = 512%nat /\
  combine row_numbers column_numbers
    = flat_map (fun c => map (fun r => (r, c)) (seq 1 16)) (seq 1 32) /\
  NoDup (combine row_numbers column_numbers) /\
  Zsum (pore_values pore_measure)
    = Zsum (map (fun channel => match pore_measure channel with
                                | Some v => v
                                | None => 0%Z
                                end) (seq 1 512)).
Proof.
  split; [exact flowcell_layout_perm|].
  split; [unfold pore_values; rewrite length_map; vm_compute; reflexivity|].
  split; [vm_compute; reflexivity|].
  split.
  - apply (distinct_NoDup
             (fun p q => (fst p =? fst q)%nat && (snd p =? snd q)%nat));
      [apply pair_eqb_eq | vm_compute; reflexivity].
  - apply Zsum_perm. unfold pore_values. apply Permutation_map.
    exact flowcell_layout_perm.
Qed.

(* ================================================================== *)
(** * The scatter plot of read length against quality *)
(* ================================================================== *)

Lemma interpolate_paired_inv
      (randint : nat -> nat -> nat -> nat -> result (list nat))
      (interp1d : list float -> list float -> option String.string -> Z ->
                  result (list float -> result (list float)))
      (X Y : list float) (npoints : nat)
      (interp_type : option String.string) (axis : Z) (r : interpolated) :
  _interpolate randint interp1d X npoints (Some Y) interp_type axis = Ok r ->
  exists lo hi y_int,
    py_min X = Ok lo /\ py_max X = Ok hi /\ X <> [] /\
    r = Interpolated (linspace lo hi npoints) y_int.
Proof.
  unfold _interpolate. intro H.
  destruct (interp1d X Y interp_type axis) as [f|]; simpl in H; [|discriminate].
  destruct (py_min X) as [lo|] eqn:Elo; simpl in H; [|discriminate].
  destruct (py_max X) as [hi|] eqn:Ehi; simpl in H; [|discriminate].
  destruct (f (linspace lo hi npoints)) as [y_int|]; simpl in H; [|discriminate].
  injection H as <-. exists lo, hi, y_int.
  split; [reflexivity|]. split; [reflexivity|]. split; [|reflexivity].
  intros ->. discriminate.
Qed.

(** X15.  The data of [all_scatterplot].  Whether the reads are
    interpolated is decided on the number of pass reads alone.  Up to
    10000 pass reads, the four series are plotted as they are.  Above,
    both the pass and the fail series are interpolated on 4000 points: a
    run without fail reads then makes the function raise, and when it
    returns, each x series is the 4000-point grid from the smallest to
    the largest read length of its set, ending exactly at the largest. *)
Theorem all_scatterplot_cases
        (randint : nat -> nat -> nat -> nat -> result (list nat))
        (interp1d : list float -> list float -> option String.string -> Z ->
                    result (list float -> result (list float)))
        (read_pass_length read_pass_qscore read_fail_length read_fail_qscore
         : list float) :
  ((length read_pass_length <= interpolation_threshold)%nat ->
   all_scatterplot randint interp1d read_pass_length read_pass_qscore
                   read_fail_length read_fail_qscore
     = Ok ((read_pass_length, read_pass_qscore),
           (read_fail_length, read_fail_qscore))) /\
  ((interpolation_threshold < length read_pass_length)%nat ->
   (read_fail_length = [] ->
    exists e, all_scatterplot randint interp1d read_pass_length read_pass_qscore
                              read_fail_length read_fail_qscore = Raise e) /\
   (forall pass_data fail_data,
      all_scatterplot randint interp1d read_pass_length read_pass_qscore
                      read_fail_length read_fail_qscore
        = Ok (pass_data, fail_data) ->
      exists lo hi lo' hi',
        py_min read_pass_length = Ok lo /\ py_max read_pass_length = Ok hi /\
        py_min read_fail_length = Ok lo' /\ py_max read_fail_length = Ok hi' /\
        fst pass_data = linspace lo hi 4000 /\
        fst fail_data = linspace lo' hi' 4000 /\
        length (fst pass_data) = 4000%nat /\ length (fst fail_data) = 4000%nat /\
        nth_error (fst pass_data) 3999 = Some hi /\
        nth_error (fst fail_data) 3999 = Some hi')).
Proof.
  unfold all_scatterplot. split.
  - intro H. destruct (Nat.ltb_spec interpolation_threshold (length read_pass_length));
      [lia | reflexivity].
  - intro H. destruct (Nat.ltb_spec interpolation_threshold (length read_pass_length));
      [|lia].
    split.
    + intros ->.
      destruct (_interpolate randint interp1d read_pass_length 4000
                  (Some read_pass_qscore) (Some Kind.nearest) (-1)) as [r|e];
        cbn [bind]; [|now exists e].
      unfold _interpolate.
      destruct (interp1d [] read_fail_qscore (Some Kind.nearest) (-1)%Z);
        cbn [bind py_min]; eexists; reflexivity.
    + intros pass_data fail_data E.
      destruct (_interpolate randint interp1d read_pass_length 4000
                  (Some read_pass_qscore) (Some Kind.nearest) (-1)) as [r|e] eqn:E1;
        cbn [bind] in E; [|discriminate].
      destruct (_interpolate randint interp1d read_fail_length 4000
                  (Some read_fail_qscore) (Some Kind.nearest) (-1)) as [r'|e] eqn:E2;
        cbn [bind] in E; [|discriminate].
      injection E as <- <-.
      destruct (interpolate_paired_inv _ _ _ _ _ _ _ E1)
        as (lo & hi & y & Hlo & Hhi & _ & ->).
      destruct (interpolate_paired_inv _ _ _ _ _ _ _ E2)
        as (lo' & hi' & y' & Hlo' & Hhi' & _ & ->).
      exists lo, hi, lo', hi'. cbn [interpolated_pair fst].
      repeat (split; [first [assumption | reflexivity | apply length_linspace]|]).
      split; [apply (linspace_last lo hi (num := 4000)); lia|].
      apply (linspace_last lo' hi' (num := 4000)); lia.
Qed.

Lemma all_scatterplot_cases_witness :
  all_scatterplot randint_lcg interp1d_step
    [Fin 100; Fin 300] [Fin 9; Fin 12] [Fin 200] [Fin 5]
  = Ok (([Fin 100; Fin 300], [Fin 9; Fin 12]), ([Fin 200], [Fin 5])) /\
  exists e,
    all_scatterplot randint_lcg interp1d_step
      (repeat (Fin 100) (S interpolation_threshold))
      (repeat (Fin 9) (S interpolation_threshold)) [] [] = Raise e.
Proof.
  split.
  - apply (proj1 (@all_scatterplot_cases randint_lcg interp1d_step
                    [Fin 100; Fin 300] [Fin 9; Fin 12] [Fin 200] [Fin 5])).
    unfold interpolation_threshold. simpl. lia.
  - apply (proj2 (@all_scatterplot_cases randint_lcg interp1d_step
                    (repeat (Fin 100) (S interpolation_threshold))
                    (repeat (Fin 9) (S interpolation_threshold)) [] [])).
    + rewrite repeat_length. lia.
    + reflexivity.
Defined.

(* ================================================================== *)
(** * The Gaussian filter keeps the total *)
(* ================================================================== *)

Lemma Qsum_app (l l' : list Q) : (Qsum (l ++ l') == Qsum l + Qsum l')%Q.
Proof.
  unfold Qsum. induction l as [|a l IH]; simpl; [lra|]. rewrite IH. lra.
Qed.

Lemma Qsum_ext {A : Type} (f g : A -> Q) (l : list A) :
  (forall a, In a l -> (f a == g a)%Q) -> (Qsum (map f l) == Qsum (map g l))%Q.
Proof.
  unfold Qsum. induction l as [|a l IH]; intro H; simpl; [reflexivity|].
  rewrite (H a (or_introl eq_refl)), IH; [reflexivity|].
  intros b Hb. apply H. now right.
Qed.

Lemma Qsum_plus {A : Type} (f g : A -> Q) (l : list A) :
  (Qsum (map (fun a => f a + g a) l) == Qsum (map f l) + Qsum (map g l))%Q.
Proof.
  unfold Qsum. induction l as [|a l IH]; simpl; [lra|]. rewrite IH. lra.
Qed.

Lemma Qsum_scale {A : Type} (c : Q) (f : A -> Q) (l : list A) :
  (Qsum (map (fun a => c * f a) l) == c * Qsum (map f l))%Q.
Proof.
  unfold Qsum. induction l as [|a l IH]; simpl; [lra|]. rewrite IH. ring.
Qed.

Lemma Qsum_zero {A : Type} (l : list A) : (Qsum (map (fun _ => 0) l) == 0)%Q.
Proof. unfold Qsum. induction l as [|a l IH]; simpl; [lra|]. rewrite IH. lra. Qed.

Lemma Qsum_rev (l : list Q) : (Qsum (rev l) == Qsum l)%Q.
Proof.
  induction l as [|a l IH]; simpl; [reflexivity|].
  rewrite Qsum_app, IH. unfold Qsum. simpl. lra.
Qed.

Lemma Qsum_exchange {A B : Type} (f : A -> B -> Q) (la : list A) (lb : list B) :
  (Qsum (map (fun a => Qsum (map (f a) lb)) la)
   == Qsum (map (fun b => Qsum (map (fun a => f a b) la)) lb))%Q.
Proof.
  induction la as [|a la IH].
  - simpl. rewrite Qsum_zero. reflexivity.
  - cbn [map]. change (Qsum (?x :: ?l)) with (x + Qsum l)%Q.
    rewrite IH, <- Qsum_plus. apply Qsum_ext. intros b _.
    unfold Qsum. simpl. reflexivity.
Qed.

Lemma rev_map_seq {A : Type} (g : nat -> A) (m : nat) :
  rev (map g (seq 0 m)) = map (fun i => g (m - 1 - i)%nat) (seq 0 m).
Proof.
  induction m as [|m IH]; [reflexivity|].
  rewrite seq_S at 1. rewrite map_app, rev_app_distr. cbn [map rev app plus].
  change (seq 0 (S m)) with (0%nat :: seq 1 m). cbn [map].
  replace (S m - 1 - 0)%nat with m by lia. f_equal.
  rewrite IH, <- seq_shift, map_map. apply map_ext_in.
  intros i Hi. apply in_seq in Hi. f_equal. lia.
Qed.

Lemma Qsum_reverse (g : nat -> Q) (m : nat) :
  (Qsum (map g (seq 0 m)) == Qsum (map (fun i => g (m - 1 - i)%nat) (seq 0 m)))%Q.
Proof. rewrite <- rev_map_seq. symmetry. apply Qsum_rev. Qed.

(** ** The reflected input *)

Lemma reflect_index_lt (n : nat) (t : Z) :
  (0 < n)%nat -> (reflect_index n t < n)%nat.
Proof.
  intro Hn. unfold reflect_index.
  assert (H := Z.mod_pos_bound t (2 * Z.of_nat n) ltac:(lia)).
  destruct (Nat.ltb_spec (Z.to_nat (t mod (2 * Z.of_nat n))) n); lia.
Qed.

Lemma reflect_index_period (n : nat) (t : Z) :
  reflect_index n (t + 2 * Z.of_nat n) = reflect_index n t.
Proof.
  unfold reflect_index.
  replace (t + 2 * Z.of_nat n)%Z with (t + 1 * (2 * Z.of_nat n))%Z by lia.
  now rewrite Z_mod_plus_full.
Qed.

Lemma reflect_index_mirror (n : nat) (t : Z) :
  (0 < n)%nat -> reflect_index n (-1 - t) = reflect_index n t.
Proof.
  intro Hn. unfold reflect_index.
  set (P := (2 * Z.of_nat n)%Z).
  assert (HP : (0 < P)%Z) by (unfold P; lia).
  assert (Hm := Z.mod_pos_bound t P HP).
  assert (E : ((-1 - t) mod P = P - 1 - t mod P)%Z).
  { symmetry. apply (Z.mod_unique_pos _ _ (- (t / P) - 1)%Z); [lia|].
    pose proof (Z.div_mod t P ltac:(lia)) as Hd. lia. }
  rewrite E.
  destruct (Nat.ltb_spec (Z.to_nat (P - 1 - t mod P)) n),
           (Nat.ltb_spec (Z.to_nat (t mod P)) n); unfold P in *; lia.
Qed.

Lemma reflect_index_low (n i : nat) :
  (i < n)%nat -> reflect_index n (Z.of_nat i) = i.
Proof.
  intro Hi. unfold reflect_index.
  rewrite Z.mod_small by lia. rewrite Nat2Z.id.
  destruct (Nat.ltb_spec i n); lia.
Qed.

Lemma reflect_index_high (n i : nat) :
  (i < n)%nat -> reflect_index n (Z.of_nat n + Z.of_nat i) = (n - 1 - i)%nat.
Proof.
  intro Hi. unfold reflect_index.
  rewrite Z.mod_small by lia.
  destruct (Nat.ltb_spec (Z.to_nat (Z.of_nat n + Z.of_nat i)) n); lia.
Qed.

(** ** Sums over windows *)

Lemma window_S (X : Z -> Q) (a : Z) (k : nat) :
  (window X a (S k) == X a + window X (a + 1) k)%Q.
Proof.
  unfold window. change (seq 0 (S k)) with (0%nat :: seq 1 k).
  cbn [map]. change (Qsum (?x :: ?l)) with (x + Qsum l)%Q.
  replace (a + Z.of_nat 0)%Z with a by lia.
  rewrite <- seq_shift, map_map.
  apply Qplus_comp; [reflexivity|].
  apply Qsum_ext. intros i _. replace (a + Z.of_nat (S i))%Z with (a + 1 + Z.of_nat i)%Z by lia.
  reflexivity.
Qed.

Lemma window_snoc (X : Z -> Q) (a : Z) (k : nat) :
  (window X a (S k) == window X a k + X (a + Z.of_nat k)%Z)%Q.
Proof.
  unfold window. rewrite seq_S, map_app, Qsum_app. cbn [map plus].
  change (Qsum [X (a + Z.of_nat k)%Z]) with (X (a + Z.of_nat k)%Z + 0)%Q. lra.
Qed.

Lemma window_app (X : Z -> Q) (a : Z) (k k' : nat) :
  (window X a (k + k') == window X a k + window X (a + Z.of_nat k) k')%Q.
Proof.
  revert a. induction k as [|k IH]; intro a.
  - cbn [plus]. unfold window at 2. simpl.
    replace (a + 0)%Z with a by lia. unfold Qsum. simpl. lra.
  - cbn [plus]. rewrite !window_S, IH.
    replace (a + 1 + Z.of_nat k)%Z with (a + Z.of_nat (S k))%Z by lia. lra.
Qed.

Section Periodic.

Variable X : Z -> Q.
Variable n : nat.
Hypothesis n_pos : (0 < n)%nat.
Hypothesis X_period : forall t, X (t + 2 * Z.of_nat n)%Z = X t.
Hypothesis X_mirror : forall t, X (-1 - t)%Z = X t.

Lemma window_shift (a : Z) :
  (window X (a + 1) (2 * n) == window X a (2 * n))%Q.
Proof.
  destruct (2 * n)%nat as [|p] eqn:Ep; [lia|].
  rewrite window_snoc, (window_S X a p).
  replace (a + 1 + Z.of_nat p)%Z with (a + 2 * Z.of_nat n)%Z by lia.
  rewrite X_period. lra.
Qed.

Lemma window_any (a : Z) : (window X a (2 * n) == window X 0 (2 * n))%Q.
Proof.
  induction a as [|a IH|a IH] using Z.peano_ind.
  - reflexivity.
  - unfold Z.succ. now rewrite window_shift.
  - rewrite <- IH. rewrite <- (window_shift (Z.pred a)).
    replace (Z.pred a + 1)%Z with a by lia. reflexivity.
Qed.

Lemma window_mirror (d : Z) :
  (window X (- d) n == window X (d - Z.of_nat n) n)%Q.
Proof.
  unfold window.
  rewrite (Qsum_reverse (fun i => X (d - Z.of_nat n + Z.of_nat i)%Z) n).
  apply Qsum_ext. intros i Hi. apply in_seq in Hi.
  rewrite <- (X_mirror (- d + Z.of_nat i)).
  replace (-1 - (- d + Z.of_nat i))%Z
    with (d - Z.of_nat n + Z.of_nat (n - 1 - i))%Z by lia.
  reflexivity.
Qed.

Lemma window_pair (d : Z) :
  (window X d n + window X (- d) n == window X 0 (2 * n))%Q.
Proof.
  rewrite window_mirror, <- (window_any (d - Z.of_nat n)).
  replace (2 * n)%nat with (n + n)%nat by lia.
  rewrite window_app.
  replace (d - Z.of_nat n + Z.of_nat n)%Z with d by lia. lra.
Qed.

End Periodic.

Lemma seq_nth_self (xs : list Q) :
  map (fun i => nth i xs 0) (seq 0 (length xs)) = xs.
Proof.
  induction xs as [|x xs IH]; [reflexivity|].
  cbn [length]. change (seq 0 (S (length xs))) with (0%nat :: seq 1 (length xs)).
  cbn [map nth]. f_equal. rewrite <- seq_shift, map_map. exact IH.
Qed.

Lemma window_reflected_period (xs : list Q) :
  xs <> [] ->
  (window (reflected xs) 0 (2 * length xs) == 2 * Qsum xs)%Q.
Proof.
  intro Hne. set (n := length xs).
  assert (Hn : (0 < n)%nat) by (unfold n; destruct xs; [congruence | simpl; lia]).
  replace (2 * n)%nat with (n + n)%nat by lia.
  rewrite window_app.
  assert (E1 : (window (reflected xs) 0 n == Qsum xs)%Q).
  { transitivity (Qsum (map (fun i => nth i xs 0) (seq 0 n)));
      [|unfold n; now rewrite seq_nth_self].
    unfold window. apply Qsum_ext. intros i Hi. apply in_seq in Hi.
    unfold reflected. fold n. cbn [Z.add]. now rewrite reflect_index_low by lia. }
  assert (E2 : (window (reflected xs) (0 + Z.of_nat n) n == Qsum xs)%Q).
  { transitivity (Qsum (map (fun i => nth i xs 0) (seq 0 n)));
      [|unfold n; now rewrite seq_nth_self].
    rewrite (Qsum_reverse (fun i => nth i xs 0) n).
    unfold window. apply Qsum_ext. intros i Hi. apply in_seq in Hi.
    unfold reflected. fold n. cbn [Z.add].
    now rewrite reflect_index_high by lia. }
  rewrite E1, E2. lra.
Qed.

Lemma window_reflected_pair (xs : list Q) (d : Z) :
  xs <> [] ->
  (window (reflected xs) d (length xs) + window (reflected xs) (- d) (length xs)
   == 2 * Qsum xs)%Q.
Proof.
  intro Hne.
  assert (Hn : (0 < length xs)%nat) by (destruct xs; [congruence | simpl; lia]).
  rewrite <- (window_reflected_period Hne).
  apply window_pair.
  - exact Hn.
  - intro t. unfold reflected. now rewrite reflect_index_period.
  - intro t. unfold reflected. now rewrite reflect_index_mirror.
Qed.

(** ** The correlation of finite sequences *)

Lemma fold_left_fadd_Fin (l : list Q) : forall a,
  fold_left fadd (map Fin l) (Fin a) = Fin (fold_left Qplus l a).
Proof. induction l as [|q l IH]; intro a; [reflexivity|]. simpl. apply IH. Qed.

Lemma fold_left_Qplus (l : list Q) : forall a,
  (fold_left Qplus l a == a + Qsum l)%Q.
Proof.
  induction l as [|q l IH]; intro a; simpl.
  - unfold Qsum. simpl. lra.
  - rewrite IH. unfold Qsum. simpl. lra.
Qed.

Lemma combine_seq_from (ws : list Q) : forall s,
  combine (seq s (length ws)) ws
  = map (fun j => (j, nth (j - s) ws 0)) (seq s (length ws)).
Proof.
  induction ws as [|w ws IH]; intro s; [reflexivity|].
  cbn [length seq combine map]. rewrite Nat.sub_diag. cbn [nth]. f_equal.
  rewrite IH. apply map_ext_in. intros j Hj. apply in_seq in Hj.
  replace (j - s)%nat with (S (j - S s)) by lia. reflexivity.
Qed.

Lemma combine_seq (ws : list Q) :
  combine (seq 0 (length ws)) ws
  = map (fun j => (j, nth j ws 0)) (seq 0 (length ws)).
Proof.
  rewrite combine_seq_from. apply map_ext. intro j. now rewrite Nat.sub_0_r.
Qed.

Lemma correlate_terms_Fin (xs : list Q) (i : nat) (s : Z) (l : list nat) :
  xs <> [] -> forall ws,
  map (fun '(j, w) =>
         (w * nth (reflect_index (length xs) (Z.of_nat i + Z.of_nat j - s))
                  (map Fin xs) NaN)%float)
      (combine l (map Fin ws))
  = map Fin (map (fun '(j, w) =>
                    (w * reflected xs (Z.of_nat i + Z.of_nat j - s))%Q)
                 (combine l ws)).
Proof.
  intro Hne.
  assert (Hn : (0 < length xs)%nat) by (destruct xs; [congruence | simpl; lia]).
  induction l as [|j l IH]; intros [|w ws]; try reflexivity.
  cbn [map combine]. rewrite IH. f_equal.
  rewrite nth_map_Fin by now apply reflect_index_lt.
  reflexivity.
Qed.

Lemma correlate1d_Fin (xs ws : list Q) :
  xs <> [] ->
  correlate1d (map Fin xs) (map Fin ws)
  = map Fin
      (map (fun i =>
              fold_left Qplus
                (map (fun '(j, w) =>
                        (w * reflected xs
                               (Z.of_nat i + Z.of_nat j - Z.of_nat (length ws / 2)))%Q)
                     (combine (seq 0 (length ws)) ws))
                0)
           (seq 0 (length xs))).
Proof.
  intro Hne. unfold correlate1d. rewrite map_map, !length_map.
  apply map_ext. intro i.
  rewrite <- fold_left_fadd_Fin. f_equal.
  now apply correlate_terms_Fin.
Qed.

(** A correlation with symmetric weights keeps the total of the input,
    up to the total of the weights. *)
Lemma correlate1d_total (xs ws : list Q) (r : nat) :
  xs <> [] -> length ws = (2 * r + 1)%nat -> rev ws = ws ->
  exists os,
    correlate1d (map Fin xs) (map Fin ws) = map Fin os /\
    length os = length xs /\
    (Qsum os == Qsum ws * Qsum xs)%Q.
Proof.
  intros Hne Hlen Hsym.
  rewrite (correlate1d_Fin ws Hne).
  eexists. split; [reflexivity|]. split; [now rewrite length_map, length_seq|].
  set (n := length xs). set (m := length ws).
  assert (Hr : (m / 2 = r)%nat).
  { unfold m. rewrite Hlen. replace (2 * r + 1)%nat with (1 + r * 2)%nat by lia.
    rewrite Nat.div_add by lia. reflexivity. }
  rewrite Hr. set (X := reflected xs).
  set (W := fun j => nth j ws 0).
  (* every cell as a sum over the weight positions *)
  assert (E1 : (Qsum (map (fun i =>
                       fold_left Qplus
                         (map (fun '(j, w) =>
                                 w * X (Z.of_nat i + Z.of_nat j - Z.of_nat r)%Z)
                              (combine (seq 0 m) ws)) 0) (seq 0 n))
                == Qsum (map (fun j => W j * window X (Z.of_nat j - Z.of_nat r) n)
                             (seq 0 m)))%Q).
  { transitivity
      (Qsum (map (fun i => Qsum (map (fun j =>
                     W j * X (Z.of_nat j - Z.of_nat r + Z.of_nat i)%Z) (seq 0 m)))
                 (seq 0 n))).
    - apply Qsum_ext. intros i _. rewrite fold_left_Qplus.
      unfold m. rewrite combine_seq, map_map. fold m.
      rewrite Qplus_0_l. apply Qsum_ext. intros j _. unfold W.
      replace (Z.of_nat i + Z.of_nat j - Z.of_nat r)%Z
        with (Z.of_nat j - Z.of_nat r + Z.of_nat i)%Z by lia.
      reflexivity.
    - rewrite Qsum_exchange. apply Qsum_ext. intros j _.
      unfold window. now rewrite Qsum_scale. }
  rewrite E1.
  set (A := Qsum (map (fun j => W j * window X (Z.of_nat j - Z.of_nat r) n) (seq 0 m))).
  assert (E2 : (A == Qsum (map (fun j => W j * window X (- (Z.of_nat j - Z.of_nat r)) n)
                               (seq 0 m)))%Q).
  { unfold A.
    rewrite (Qsum_reverse (fun j => W j * window X (Z.of_nat j - Z.of_nat r) n) m).
    apply Qsum_ext. intros j Hj. apply in_seq in Hj.
    assert (HW : W (m - 1 - j)%nat = W j).
    { unfold W. rewrite <- Hsym at 1. rewrite rev_nth by (fold m; lia).
      fold m. f_equal. lia. }
    rewrite HW.
    replace (Z.of_nat (m - 1 - j) - Z.of_nat r)%Z
      with (- (Z.of_nat j - Z.of_nat r))%Z by (unfold m in *; lia).
    reflexivity. }
  assert (E3 : (A + A == Qsum (map (fun j => W j * (2 * Qsum xs)) (seq 0 m)))%Q).
  { rewrite E2 at 2. unfold A. rewrite <- Qsum_plus.
    apply Qsum_ext. intros j _.
    rewrite <- (window_reflected_pair (Z.of_nat j - Z.of_nat r) Hne).
    fold X. fold n. ring. }
  assert (E4 : (Qsum (map (fun j => W j * (2 * Qsum xs)) (seq 0 m))
                == 2 * Qsum xs * Qsum ws)%Q).
  { transitivity (Qsum (map (fun j => (2 * Qsum xs) * W j) (seq 0 m))).
    - apply Qsum_ext. intros; ring.
    - rewrite Qsum_scale. unfold W, m. now rewrite seq_nth_self. }
  rewrite E4 in E3. lra.
Qed.

(** ** The Gaussian kernel *)

Lemma exp_values (exp : float -> float) (c : Q) (l : list Z) :
  exp_positive exp ->
  exists ps, map (fun xi => exp (Fin (c * inject_Z (xi * xi)))) l = map Fin ps /\
             Forall (fun p => (0 < p)%Q) ps.
Proof.
  intro Hexp. induction l as [|xi l (ps & Hps & Hpos)].
  - exists []. split; [reflexivity | constructor].
  - destruct (Hexp (c * inject_Z (xi * xi))%Q) as (p & Hp & Hp0).
    exists (p :: ps). cbn [map]. rewrite Hp, Hps. split; [reflexivity|].
    now constructor.
Qed.

Lemma map_Fin_inj (l l' : list Q) : map Fin l = map Fin l' -> l = l'.
Proof.
  revert l'. induction l as [|q l IH]; intros [|q' l'] H; try discriminate;
    [reflexivity|].
  simpl in H. injection H as -> H. f_equal. now apply IH.
Qed.

Lemma Qsum_pos (ps : list Q) :
  ps <> [] -> Forall (fun p => (0 < p)%Q) ps -> (0 < Qsum ps)%Q.
Proof.
  intros Hne H. induction H as [|p ps Hp Hps IH]; [congruence|].
  change (Qsum (p :: ps)) with (p + Qsum ps)%Q.
  destruct ps as [|p' ps']; [unfold Qsum; simpl; lra|].
  specialize (IH ltac:(discriminate)). lra.
Qed.

Lemma gaussian_kernel1d_total (exp : float -> float) (sigma r : nat) :
  exp_positive exp -> (1 <= sigma)%nat ->
  exists ks,
    gaussian_kernel1d exp sigma r = Ok (map Fin ks) /\
    length ks = (2 * r + 1)%nat /\ rev ks = ks /\ (Qsum ks == 1)%Q /\
    Forall (fun w => (0 < w)%Q) ks.
Proof.
  intros Hexp Hs. unfold gaussian_kernel1d.
  destruct (Nat.eqb_spec (sigma * sigma) 0) as [E|_]; [nia|].
  set (c := (- 0.5 / inject_Z (Z.of_nat (sigma * sigma)))%Q).
  set (m := (2 * r + 1)%nat).
  set (x := map (fun i => (Z.of_nat i - Z.of_nat r)%Z) (seq 0 m)).
  set (phi_x := map (fun xi => exp (Fin (c * inject_Z (xi * xi)))) x).
  destruct (exp_values c x Hexp) as (ps & Hps & Hpos). fold phi_x in Hps.
  assert (Hlen : length ps = m).
  { rewrite <- (length_map Fin ps), <- Hps. unfold phi_x, x.
    now rewrite !length_map, length_seq. }
  assert (Hsym : rev ps = ps).
  { apply map_Fin_inj. rewrite map_rev, <- Hps. unfold phi_x, x.
    rewrite map_map, rev_map_seq. apply map_ext_in.
    intros i Hi. apply in_seq in Hi. do 3 f_equal.
    replace (Z.of_nat (m - 1 - i) - Z.of_nat r)%Z
      with (- (Z.of_nat i - Z.of_nat r))%Z by (unfold m in *; lia).
    now rewrite Z.mul_opp_opp. }
  assert (Hne : ps <> []).
  { intros ->. simpl in Hlen. unfold m in Hlen. lia. }
  pose proof (Qsum_pos Hne Hpos) as Htot.
  set (tot := fold_left Qplus ps 0).
  assert (Etot : (tot == Qsum ps)%Q).
  { unfold tot. rewrite fold_left_Qplus. lra. }
  assert (Hz : Qzero tot = false).
  { unfold Qzero. destruct (Qeq_bool tot 0) eqn:E; [|reflexivity].
    apply Qeq_bool_iff in E. lra. }
  exists (map (fun p => (p / tot)%Q) ps).
  split; [|split; [|split; [|split]]].
  - apply f_equal. rewrite Hps.
    rewrite fold_left_fadd_Fin. fold tot.
    rewrite !map_map. apply map_ext. intro p. cbn [fdiv]. now rewrite Hz.
  - now rewrite length_map.
  - now rewrite <- map_rev, Hsym.
  - transitivity (Qsum (map (fun p => (/ tot) * p) ps)).
    + apply Qsum_ext. intros p _. unfold Qdiv. ring.
    + rewrite Qsum_scale, map_id, <- Etot. field. lra.
  - apply Forall_forall. intros w Hw. apply in_map_iff in Hw.
    destruct Hw as (p & <- & Hp). rewrite Forall_forall in Hpos.
    apply Qlt_shift_div_l; [lra|]. rewrite Qmult_0_l. now apply Hpos.
Qed.

(** The Gaussian filter keeps the total of a finite input. *)
Lemma gaussian_filter1d_total (exp : float -> float) (xs : list Q) (sigma : nat) :
  exp_positive exp -> (1 <= sigma)%nat ->
  exists os,
    gaussian_filter1d exp (map Fin xs) sigma = Ok (map Fin os) /\
    length os = length xs /\ (Qsum os == Qsum xs)%Q.
Proof.
  intros Hexp Hs. unfold gaussian_filter1d.
  destruct (gaussian_kernel1d_total (4 * sigma) Hexp Hs)
    as (ks & Hk & Hlen & Hsym & Hone & _).
  rewrite Hk. cbn [bind]. rewrite <- map_rev, Hsym.
  destruct xs as [|x0 xs].
  - exists []. split; [reflexivity|]. split; reflexivity.
  - destruct (@correlate1d_total (x0 :: xs) ks (4 * sigma) ltac:(discriminate)
                Hlen Hsym) as (os & Hos & Hol & Htotal).
    exists os. rewrite Hos. split; [reflexivity|]. split; [exact Hol|].
    rewrite Htotal, Hone. ring.
Qed.

(* ================================================================== *)
(** * The area under the smoothed curve *)
(* ================================================================== *)

Lemma diff_nth_error {A : Type} (sub : A -> A -> A) (l : list A) : forall i w,
  nth_error (diff sub l) i = Some w ->
  exists a b, nth_error l i = Some a /\ nth_error l (S i) = Some b /\ w = sub b a.
Proof.
  induction l as [|a l IH]; intros i w H; [destruct i; discriminate|].
  destruct l as [|b l]; [destruct i; discriminate|].
  change (diff sub (a :: b :: l)) with (sub b a :: diff sub (b :: l)) in H.
  destruct i as [|i].
  - simpl in H. injection H as <-. exists a, b. now repeat split.
  - simpl in H. destruct (IH i w H) as (a' & b' & Ha & Hb & ->).
    exists a', b'. now repeat split.
Qed.

(** The edges of [np.linspace] are evenly spaced. *)
Lemma linspace_widths (a b : Q) (num : nat) (xs : list Q) :
  (2 <= num)%nat -> linspace (Fin a) (Fin b) num = map Fin xs ->
  Forall (fun w => (w == (b - a) / inject_Z (Z.of_nat (num - 1)))%Q)
         (diff Qminus xs).
Proof.
  intros Hn Hxs. apply Forall_forall. intros w Hw.
  destruct (In_nth_error _ _ Hw) as [i Hi].
  destruct (diff_nth_error _ _ _ Hi) as (p & q & Hp & Hq & ->).
  assert (Hlen : length xs = num).
  { rewrite <- (length_map Fin xs), <- Hxs. apply length_linspace. }
  assert (Hi' : (S i < num)%nat).
  { rewrite <- Hlen. apply nth_error_Some. congruence. }
  destruct (nth_error_linspace_Fin a b (i := i) Hn ltac:(lia)) as (p' & Hp' & Ep).
  destruct (nth_error_linspace_Fin a b (i := S i) Hn Hi') as (q' & Hq' & Eq).
  rewrite Hxs, nth_error_map in Hp', Hq'. rewrite Hp in Hp'. rewrite Hq in Hq'.
  simpl in Hp', Hq'. injection Hp' as <-. injection Hq' as <-.
  set (step := ((b - a) / inject_Z (Z.of_nat (num - 1)))%Q) in *.
  change (Qminus q p) with (q + - p)%Q. rewrite Ep, Eq.
  rewrite Nat2Z.inj_succ, <- Z.add_1_r, inject_Z_plus.
  change (inject_Z 1) with 1%Q. ring.
Qed.

Lemma Qsum_combine_const (step : Q) (ws : list Q) :
  Forall (fun w => (w == step)%Q) ws ->
  forall ds, length ds = length ws ->
    (Qsum (map (fun '(d, w) => d * w) (combine ds ws)) == Qsum ds * step)%Q.
Proof.
  induction 1 as [|w ws Hw _ IH]; intros [|d ds] Hlen; try discriminate.
  - unfold Qsum. simpl. ring.
  - injection Hlen as Hlen. cbn [combine map].
    change (Qsum (?x :: ?l)) with (x + Qsum l)%Q.
    rewrite (IH ds Hlen), Hw. ring.
Qed.

(** The density histogram over an evenly spaced grid that covers the
    sample. *)
Lemma range_histogram (npoints : nat) (V : list float) (a b : Q) :
  (2 <= npoints)%nat ->
  Forall (fun v => isreal_or_nan v = true) V -> dropna V <> [] ->
  (a < b)%Q ->
  (forall q, In (Fin q) V -> (a <= q)%Q /\ (q <= b)%Q) ->
  exists xs ds,
    linspace (Fin a) (Fin b) npoints = map Fin xs /\
    histogram_density V (map Fin xs) = Ok (map Fin ds) /\
    length xs = npoints /\ length ds = (npoints - 1)%nat /\
    Forall (fun d => (0 <= d)%Q) ds /\
    (Qsum (map (fun '(d, w) => d * w) (combine ds (diff Qminus xs))) == 1)%Q.
Proof.
  intros Hn Hreal Hne Hab Hrange.
  destruct (Forall_isfinite_map_Fin (linspace_isfinite a b Hn)) as [xs Hxs].
  pose proof (length_linspace (Fin a) (Fin b) npoints) as Hlen.
  pose proof (linspace_strictly_increasing (num := npoints) Hn Hab) as Hinc.
  destruct (linspace_first a b Hn) as (e0 & He0 & Ee0).
  pose proof (linspace_last (Fin a) (Fin b) Hn) as Hlast.
  rewrite Hxs in Hlen, Hinc, He0, Hlast. rewrite length_map in Hlen.
  destruct xs as [|x0 [|x1 rest]]; try (simpl in Hlen; lia).
  simpl in He0. injection He0 as ->.
  replace (npoints - 1)%nat with (S (length rest)) in Hlast
    by (simpl in Hlen; lia).
  rewrite nth_error_map in Hlast.
  change (nth_error (e0 :: x1 :: rest) (S (length rest)))
    with (nth_error (x1 :: rest) (length rest)) in Hlast.
  rewrite nth_error_last in Hlast. simpl in Hlast. injection Hlast as Hlast.
  assert (Hb : forall q, In (Fin q) V -> (e0 <= q)%Q /\ (q <= last rest x1)%Q).
  { intros q Hq. destruct (Hrange q Hq). rewrite Hlast. split; lra. }
  destruct (@histogram_density_mass V e0 x1 rest Hreal
              (strictly_increasing_sorted _ Hinc) Hne Hb)
    as (ds & Hd & Hdl & Hpos & Hsum).
  exists (e0 :: x1 :: rest), ds.
  split; [exact Hxs|]. split; [exact Hd|]. split; [exact Hlen|].
  split; [simpl in Hlen; lia|]. split; [exact Hpos | exact Hsum].
Qed.

Lemma tl_map {A B : Type} (f : A -> B) (l : list A) : tl (map f l) = map f (tl l).
Proof. destruct l; reflexivity. Qed.

(** With an explicit range that covers the sample, the area under the
    curve [_smooth_data] returns is [len(data)]. *)
Lemma smooth_data_range_area
      (exp : float -> float) (npoints sigma : nat) (V : list float) (a b : Q) :
  exp_positive exp -> (2 <= npoints)%nat -> (1 <= sigma)%nat ->
  Forall (fun v => isreal_or_nan v = true) V -> dropna V <> [] ->
  (a < b)%Q ->
  (forall q, In (Fin q) V -> (a <= q)%Q /\ (q <= b)%Q) ->
  exists xs ys,
    _smooth_data exp npoints sigma V (Some (Fin a)) (Some (Fin b))
      = Ok (map Fin xs, map Fin ys) /\
    map Fin xs = tl (linspace (Fin a) (Fin b) npoints) /\
    length xs = (npoints - 1)%nat /\ length ys = (npoints - 1)%nat /\
    (Qsum ys * ((b - a) / inject_Z (Z.of_nat (npoints - 1)))
     == inject_Z (Z.of_nat (length V)))%Q.
Proof.
  intros Hexp Hn Hs Hreal Hne Hab Hrange.
  destruct (@range_histogram npoints V a b Hn Hreal Hne Hab Hrange)
    as (xs & ds & Hxs & Hd & Hlx & Hld & _ & Hmass).
  pose proof (@linspace_widths a b npoints xs Hn Hxs) as Hw.
  set (step := ((b - a) / inject_Z (Z.of_nat (npoints - 1)))%Q) in *.
  rewrite (@Qsum_combine_const step (diff Qminus xs) Hw ds) in Hmass
    by (rewrite length_diff; lia).
  set (N := inject_Z (Z.of_nat (length V))).
  assert (Hin : map (fun c => (c * of_nat (length V))%float) (map Fin ds)
                = map Fin (map (fun d => (d * N)%Q) ds)).
  { rewrite !map_map. apply map_ext. intro d. reflexivity. }
  destruct (@gaussian_filter1d_total exp (map (fun d => (d * N)%Q) ds) sigma Hexp Hs)
    as (ys & Hys & Hly & Htot).
  exists (tl xs), ys.
  split; [|split; [|split; [|split]]].
  - unfold _smooth_data. cbn [bind]. rewrite Hxs, Hd. cbn [bind].
    rewrite Hin, Hys. cbn [bind]. now rewrite tl_map.
  - now rewrite <- tl_map, Hxs.
  - rewrite length_tl. lia.
  - rewrite Hly, length_map. exact Hld.
  - rewrite Htot.
    assert (E : (Qsum (map (fun d => d * N) ds) == N * Qsum ds)%Q).
    { rewrite <- (map_id ds) at 2. rewrite <- Qsum_scale.
      apply Qsum_ext. intros; ring. }
    rewrite E, <- Qmult_assoc, Hmass. ring.
Qed.

Lemma taylor6_ge_1 (q : Q) : (0 <= q)%Q -> (1 <= taylor6 q)%Q.
Proof.
  intro Hq. unfold taylor6.
  assert (step : forall k t : Q, (0 < k)%Q -> (1 <= t)%Q -> (1 <= 1 + q / k * t)%Q).
  { intros k t Hk Ht.
    assert (H1 : (0 <= q / k)%Q) by (apply Qle_shift_div_l; [exact Hk | lra]).
    assert (H2 : (0 <= q / k * t)%Q) by (apply Qmult_le_0_compat; lra).
    lra. }
  assert (H6 : (1 <= 1 + q / 6)%Q).
  { assert (0 <= q / 6)%Q by (apply Qle_shift_div_l; lra). lra. }
  pose proof (step 5 _ ltac:(lra) H6) as H5.
  pose proof (step 4 _ ltac:(lra) H5) as H4.
  pose proof (step 3 _ ltac:(lra) H4) as H3.
  pose proof (step 2 _ ltac:(lra) H3) as H2.
  assert (H1 : (0 <= q * (1 + q / 2 * (1 + q / 3 * (1 + q / 4 * (1 + q / 5 * (1 + q / 6))))))%Q)
    by (apply Qmult_le_0_compat; lra).
  lra.
Qed.

Lemma exp_rational_positive : exp_positive exp_rational.
Proof.
  intro q. unfold exp_rational. destruct (Qneg q) eqn:E.
  - eexists. split; [reflexivity|]. rewrite Qred_correct.
    apply Qinv_lt_0_compat.
    unfold Qneg in E. apply negb_true_iff in E. apply Qle_bool_false in E.
    pose proof (@taylor6_ge_1 (- q) ltac:(lra)). lra.
  - eexists. split; [reflexivity|]. rewrite Qred_correct.
    unfold Qneg in E. apply negb_false_iff in E. apply Qle_bool_iff in E.
    pose proof (taylor6_ge_1 E). lra.
Qed.



(* ================================================================== *)
(** * The curves of the PHRED score density *)
(* ================================================================== *)

Lemma dropna_keeps_real (V : list float) :
  Forall (fun v => isreal_or_nan v = true) V ->
  Forall (fun v => isreal_or_nan v = true) (dropna V).
Proof.
  intro H. apply Forall_forall. intros v Hv. apply filter_In in Hv.
  rewrite Forall_forall in H. now apply H.
Qed.

Lemma divide_by_count (n : nat) (ys : list Q) :
  (0 < n)%nat ->
  map (fun v => (v / of_nat n)%float) (map Fin ys)
    = map Fin (map (fun y => (y / inject_Z (Z.of_nat n))%Q) ys) /\
  (Qsum (map (fun y => (y / inject_Z (Z.of_nat n))%Q) ys)
   == Qsum ys / inject_Z (Z.of_nat n))%Q.
Proof.
  intro Hn. pose proof (inject_nat_pos Hn) as HN.
  assert (Hz : Qzero (inject_Z (Z.of_nat n)) = false).
  { unfold Qzero. destruct (Qeq_bool (inject_Z (Z.of_nat n)) 0) eqn:E; [|reflexivity].
    apply Qeq_bool_iff in E. lra. }
  split.
  - rewrite !map_map. apply map_ext. intro y. unfold of_nat, of_Z. cbn [fdiv].
    now rewrite Hz.
  - transitivity (Qsum (map (fun y => (/ inject_Z (Z.of_nat n)) * y) ys)).
    + apply Qsum_ext. intros y _. unfold Qdiv. ring.
    + rewrite Qsum_scale, map_id. unfold Qdiv. ring.
Qed.

(** One curve of [_phred_score_density]: its area is the share of the
    reads it is drawn from. *)
Lemma phred_curve_area
      (exp : float -> float) (all_series part : list float) (a b : Q) :
  exp_positive exp ->
  Forall (fun v => isreal_or_nan v = true) all_series ->
  Forall (fun v => isreal_or_nan v = true) part ->
  np_nanmin all_series = Ok (Fin a) -> np_nanmax all_series = Ok (Fin b) ->
  (a < b)%Q -> dropna part <> [] ->
  (forall q, In (Fin q) part -> In (Fin q) all_series) ->
  exists xs ys,
    _smooth_data exp (10 * 1000) 5 (dropna part) (Some (Fin a)) (Some (Fin b))
      = Ok (map Fin xs, map Fin ys) /\
    map Fin xs = tl (linspace (Fin a) (Fin b) (10 * 1000)) /\
    length ys = (10 * 1000 - 1)%nat /\
    (Qsum ys * ((b - a) / inject_Z (Z.of_nat (10 * 1000 - 1)))
     == inject_Z (Z.of_nat (length (dropna part))))%Q.
Proof.
  intros Hexp Hall Hpart Hlo Hhi Hab Hne Hsub.
  assert (Hrange : forall q, In (Fin q) (dropna part) -> (a <= q)%Q /\ (q <= b)%Q).
  { intros q Hq. apply filter_In in Hq. destruct Hq as [Hq _].
    apply Hsub in Hq. destruct all_series as [|v0 l]; [destruct Hq|].
    destruct (nanmin_nanmax_bounds Hall) as (lo & hi & Hlo' & Hhi' & Hw).
    rewrite Hlo in Hlo'. rewrite Hhi in Hhi'.
    injection Hlo' as <-. injection Hhi' as <-.
    destruct (Hw q Hq) as (a' & b' & Ea & Eb & H1 & H2).
    injection Ea as <-. injection Eb as <-. split; assumption. }
  destruct (@smooth_data_range_area exp (10 * 1000) 5 (dropna part) a b Hexp
              ltac:(lia) ltac:(lia) (dropna_keeps_real Hpart)
              ltac:(now rewrite dropna_idempotent) Hab Hrange)
    as (xs & ys & Hsm & Hx & _ & Hly & Harea).
  exists xs, ys. repeat split; assumption.
Qed.



(* ================================================================== *)
(** * The threshold lines of the read length distribution *)
(* ================================================================== *)

(** [np.percentile] is monotone in the rank, between the smallest and
    the largest value. *)
Lemma percentile_mono (q0 : Q) (qs : list Q) (p p' : Q) :
  (0 <= p)%Q -> (p <= p')%Q ->
  exists r r',
    percentile (map Fin (q0 :: qs)) p = Fin r /\
    percentile (map Fin (q0 :: qs)) p' = Fin r' /\
    (r <= r')%Q /\
    exists a b, In a (q0 :: qs) /\ In b (q0 :: qs) /\ (a <= r)%Q /\ (r' <= b)%Q.
Proof.
  intros Hp Hpp'. set (l := q0 :: qs).
  assert (Hne : l <> []) by discriminate.
  destruct (np_sort_Fin l) as (ss & Hss & Hperm & Hsorted).
  assert (Hpos : (0 < length ss)%nat).
  { rewrite (Permutation_length Hperm). simpl. lia. }
  destruct (@percentile_Fin l ss p Hss Hne Hp) as (r & Hr & Er).
  destruct (@percentile_Fin l ss p' Hss Hne ltac:(lra)) as (r' & Hr' & Er').
  set (top := inject_Z (Z.of_nat (length ss - 1))) in *.
  pose proof (inject_nat_nonneg (length ss - 1)) as Htop. fold top in Htop.
  assert (Hd : (0 <= p / 100)%Q) by (apply Qle_shift_div_l; lra).
  assert (Hd' : (0 <= (p' - p) / 100)%Q) by (apply Qle_shift_div_l; lra).
  assert (V : (0 <= top * (p / 100))%Q) by (apply Qmult_le_0_compat; assumption).
  assert (V' : (top * (p / 100) <= top * (p' / 100))%Q).
  { assert (H : (0 <= top * ((p' - p) / 100))%Q)
      by (apply Qmult_le_0_compat; assumption).
    setoid_replace (top * (p' / 100))%Q
      with (top * (p / 100) + top * ((p' - p) / 100))%Q by field. lra. }
  pose proof (qinterp_mono Hsorted Hpos V V') as M.
  destruct (qinterp_between Hsorted Hpos V) as (a & _ & Ha & _ & Hlow & _).
  destruct (@qinterp_between ss (top * (p' / 100)) Hsorted Hpos ltac:(lra))
    as (_ & b & _ & Hb & _ & Hup).
  exists r, r'. split; [exact Hr|]. split; [exact Hr'|]. split; [lra|].
  exists a, b. split; [now apply (Permutation_in _ Hperm)|].
  split; [now apply (Permutation_in _ Hperm)|]. split; lra.
Qed.



(* ================================================================== *)
(** * The smoothed percentile bands do not cross *)
(* ================================================================== *)

Lemma Qsum_le {A : Type} (f g : A -> Q) (l : list A) :
  (forall a, In a l -> (f a <= g a)%Q) -> (Qsum (map f l) <= Qsum (map g l))%Q.
Proof.
  unfold Qsum. induction l as [|a l IH]; intro H; simpl; [lra|].
  pose proof (H a (or_introl eq_refl)).
  pose proof (IH (fun b Hb => H b (or_intror Hb))). lra.
Qed.

Lemma Forall2_nth_le (xs xs' : list Q) :
  Forall2 Qle xs xs' -> forall k, (nth k xs 0 <= nth k xs' 0)%Q.
Proof.
  induction 1 as [|x x' xs xs' Hx _ IH]; intros [|k]; simpl; try lra; auto.
Qed.

Lemma correlate_cells_mono (xs xs' ws : list Q) :
  Forall (fun w => (0 <= w)%Q) ws -> Forall2 Qle xs xs' ->
  Forall2 Qle (correlate_cells xs ws) (correlate_cells xs' ws).
Proof.
  intros Hw Hxs. unfold correlate_cells.
  rewrite <- (Forall2_length Hxs).
  induction (seq 0 (length xs)) as [|i l IH]; cbn [map]; constructor; [|exact IH].
  rewrite !fold_left_Qplus, !Qplus_0_l.
  apply Qsum_le. intros [j w] Hjw.
  assert (H0 : (0 <= w)%Q).
  { rewrite Forall_forall in Hw. apply Hw. eapply in_combine_r; eauto. }
  unfold reflected. rewrite <- (Forall2_length Hxs).
  pose proof (Forall2_nth_le Hxs
                (reflect_index (length xs)
                   (Z.of_nat i + Z.of_nat j - Z.of_nat (length ws / 2)))) as Hle.
  rewrite !(Qmult_comm w). apply Qmult_le_compat_r; assumption.
Qed.

(** The filter of a finite input, with a kernel of non-negative weights
    that depends on [exp] and [sigma] alone. *)
Lemma gaussian_filter1d_cells (exp : float -> float) (sigma : nat) :
  exp_positive exp -> (1 <= sigma)%nat ->
  exists ks,
    Forall (fun w => (0 <= w)%Q) ks /\
    forall xs, gaussian_filter1d exp (map Fin xs) sigma
               = Ok (map Fin (correlate_cells xs ks)).
Proof.
  intros Hexp Hs.
  destruct (gaussian_kernel1d_total (4 * sigma) Hexp Hs)
    as (ks & Hk & _ & Hsym & _ & Hpos).
  exists ks. split.
  { eapply Forall_impl; [|exact Hpos]. intros w Hw. now apply Qlt_le_weak. }
  intro xs.
  unfold gaussian_filter1d. rewrite Hk. cbn [bind]. rewrite <- map_rev, Hsym.
  destruct xs as [|x0 xs]; [reflexivity|].
  now rewrite (@correlate1d_Fin (x0 :: xs) ks ltac:(discriminate)).
Qed.

(** The rows of the percentile table when every edge has finite
    observations. *)
Lemma percentile_rows_finite (d : defaultdict) (x : list float) :
  (forall b, In b x -> exists q0 qs, dict_get d b = Some (map Fin (q0 :: qs))) ->
  exists c0 c1 c2 c3 c4,
    map (percentile_cell d 0) x = map Fin c0 /\
    map (percentile_cell d 25) x = map Fin c1 /\
    map (percentile_cell d 50) x = map Fin c2 /\
    map (percentile_cell d 75) x = map Fin c3 /\
    map (percentile_cell d 100) x = map Fin c4 /\
    Forall2 Qle c0 c1 /\ Forall2 Qle c1 c2 /\
    Forall2 Qle c2 c3 /\ Forall2 Qle c3 c4.
Proof.
  induction x as [|b x IH]; intro H.
  - exists [], [], [], [], []. repeat split; constructor.
  - destruct IH as (c0 & c1 & c2 & c3 & c4 & E0 & E1 & E2 & E3 & E4
                    & L01 & L12 & L23 & L34).
    { intros b' Hb'. apply H. now right. }
    destruct (H b (or_introl eq_refl)) as (q0 & qs & Hd).
    destruct (percentile_band q0 qs)
      as (p0 & p1 & p2 & p3 & p4 & P0 & P1 & P2 & P3 & P4
          & H01 & H12 & H23 & H34 & _).
    exists (p0 :: c0), (p1 :: c1), (p2 :: c2), (p3 :: c3), (p4 :: c4).
    cbn [map]. unfold percentile_cell at 1 3 5 7 9. rewrite Hd.
    rewrite P0, P1, P2, P3, P4, E0, E1, E2, E3, E4.
    repeat (split; [first [reflexivity | now constructor]|]).
    now constructor.
Qed.



(* ================================================================== *)
(** * An empty bin widens under smoothing *)
(* ================================================================== *)

Lemma length_gaussian_kernel1d (exp : float -> float) (sigma r : nat)
      (kernel : list float) :
  gaussian_kernel1d exp sigma r = Ok kernel -> length kernel = (2 * r + 1)%nat.
Proof.
  unfold gaussian_kernel1d.
  destruct (sigma * sigma =? 0)%nat; [discriminate|].
  intro H. injection H as <-. now rewrite !length_map, length_seq.
Qed.

Lemma In_combine_seq {A : Type} (l : list A) : forall s j w,
  nth_error l j = Some w -> In ((s + j)%nat, w) (combine (seq s (length l)) l).
Proof.
  induction l as [|a l IH]; intros s j w H; [destruct j; discriminate|].
  destruct j as [|j]; simpl in H.
  - injection H as <-. left. now rewrite Nat.add_0_r.
  - right. replace (s + S j)%nat with (S s + j)%nat by lia. now apply IH.
Qed.

(** A NaN in the input of a correlation is seen from every position
    within the half width of the weights. *)
Lemma correlate1d_NaN (input weights : list float) (r k i : nat) :
  length weights = (2 * r + 1)%nat ->
  nth_error input k = Some NaN ->
  (i < length input)%nat -> (i <= k + r)%nat -> (k <= i + r)%nat ->
  nth_error (correlate1d input weights) i = Some NaN.
Proof.
  intros Hlen Hk Hi H1 H2. unfold correlate1d.
  rewrite nth_error_map, nth_error_seq.
  destruct (Nat.ltb_spec i (length input)) as [_|]; [|lia].
  cbn [option_map plus]. f_equal.
  apply fold_absorbing; [reflexivity | apply fadd_NaN_r|]. right.
  assert (Hr : (length weights / 2 = r)%nat).
  { rewrite Hlen. replace (2 * r + 1)%nat with (1 + r * 2)%nat by lia.
    rewrite Nat.div_add by lia. reflexivity. }
  set (j := (k + r - i)%nat).
  assert (Hj : (j < length weights)%nat) by (unfold j; lia).
  destruct (nth_error weights j) as [w|] eqn:Ew;
    [|apply nth_error_None in Ew; lia].
  apply in_map_iff. exists (j, w). split.
  - rewrite Hr.
    replace (Z.of_nat i + Z.of_nat j - Z.of_nat r)%Z with (Z.of_nat k)
      by (unfold j; lia).
    assert (Hkn : (k < length input)%nat) by (apply nth_error_Some; congruence).
    rewrite reflect_index_low by exact Hkn.
    rewrite (nth_error_nth _ _ NaN Hk). now destruct w.
  - exact (In_combine_seq weights 0 j Ew).
Qed.

Lemma gaussian_filter1d_NaN (exp : float -> float) (input : list float)
      (sigma k : nat) :
  (1 <= sigma)%nat -> nth_error input k = Some NaN ->
  exists out,
    gaussian_filter1d exp input sigma = Ok out /\
    length out = length input /\
    forall i, (i < length input)%nat ->
      (i <= k + 4 * sigma)%nat -> (k <= i + 4 * sigma)%nat ->
      nth_error out i = Some NaN.
Proof.
  intros Hs Hk.
  destruct (gaussian_filter1d_ok exp input Hs) as (out & Hout & Hlen).
  exists out. split; [exact Hout|]. split; [exact Hlen|].
  intros i Hi H1 H2. unfold gaussian_filter1d in Hout.
  destruct (gaussian_kernel1d exp sigma (4 * sigma)) as [kernel|] eqn:Ek;
    cbn [bind] in Hout; [|discriminate].
  injection Hout as <-.
  apply (@correlate1d_NaN input (rev kernel) (4 * sigma) k i); try assumption.
  rewrite length_rev. exact (length_gaussian_kernel1d _ _ _ Ek).
Qed.

(** X20.  An empty bin widens under smoothing.  When the edge at
    position k has no observation, the five sequences [_over_time_graph]
    returns are NaN at every position within 4 * sigma of k (nine
    positions for the default sigma = 1), whatever the neighbouring bins
    hold: the filter does not skip missing values. *)
Theorem smoothing_widens_gaps
        (exp : float -> float) (V T : list float) (time_bins sigma : nat)
        (x : list float) (d : defaultdict) (k : nat) (b : float) :
  (1 <= sigma)%nat ->
  over_time_bins V T time_bins = Ok (x, d) ->
  nth_error x k = Some b -> dict_get d b = None ->
  exists y0 y1 y2 y3 y4,
    _over_time_graph exp V T time_bins sigma = Ok (x, [y0; y1; y2; y3; y4]) /\
    forall i, (i < length x)%nat ->
      (i <= k + 4 * sigma)%nat -> (k <= i + 4 * sigma)%nat ->
      nth_error y0 i = Some NaN /\ nth_error y1 i = Some NaN /\
      nth_error y2 i = Some NaN /\ nth_error y3 i = Some NaN /\
      nth_error y4 i = Some NaN.
Proof.
  intros Hs Hbins Hk Hd.
  assert (Hrow : forall p, nth_error (map (percentile_cell d p) x) k = Some NaN).
  { intro p. rewrite nth_error_map, Hk. cbn [option_map].
    unfold percentile_cell. now rewrite Hd. }
  assert (Hfilter : forall p, exists out,
             gaussian_filter1d exp (map (percentile_cell d p) x) sigma = Ok out /\
             forall i, (i < length x)%nat ->
               (i <= k + 4 * sigma)%nat -> (k <= i + 4 * sigma)%nat ->
               nth_error out i = Some NaN).
  { intro p.
    destruct (@gaussian_filter1d_NaN exp (map (percentile_cell d p) x) sigma k
                Hs (Hrow p)) as (out & Hout & _ & Hnan).
    exists out. split; [exact Hout|]. intros i Hi. apply Hnan.
    now rewrite length_map. }
  destruct (Hfilter 0%Q) as (y0 & E0 & N0). destruct (Hfilter 25%Q) as (y1 & E1 & N1).
  destruct (Hfilter 50%Q) as (y2 & E2 & N2). destruct (Hfilter 75%Q) as (y3 & E3 & N3).
  destruct (Hfilter 100%Q) as (y4 & E4 & N4).
  exists y0, y1, y2, y3, y4. split.
  - unfold _over_time_graph. rewrite Hbins. cbn [bind].
    rewrite over_time_percentiles_spec. unfold percentiles. cbn [map mapM].
    rewrite E0, E1, E2, E3, E4. reflexivity.
  - intros i Hi H1 H2. repeat split; auto.
Qed.

Lemma smoothing_widens_gaps_witness :
  exists x y0 y1 y2 y3 y4,
    _over_time_graph exp_rational [Fin 1; Fin 2] [Fin 0; Fin 7200] 3 1
      = Ok (x, [y0; y1; y2; y3; y4]) /\
    nth_error y2 0 = Some NaN /\ nth_error y2 2 = Some NaN.
Proof.
  destruct (over_time_bins [Fin 1; Fin 2] [Fin 0; Fin 7200] 3)
    as [[x d]|e] eqn:E; [|vm_compute in E; discriminate].
  destruct (@smoothing_widens_gaps exp_rational
              [Fin 1; Fin 2] [Fin 0; Fin 7200] 3 1 x d 1 (nth 1 x NaN))
    as (y0 & y1 & y2 & y3 & y4 & H & Hnan).
  - lia.
  - exact E.
  - vm_compute in E. injection E as <- <-. reflexivity.
  - vm_compute in E. injection E as <- <-. reflexivity.
  - assert (Hx : length x = 3%nat).
    { vm_compute in E. injection E as <- <-. reflexivity. }
    exists x, y0, y1, y2, y3, y4. split; [exact H|].
    split; [apply (Hnan 0%nat) | apply (Hnan 2%nat)]; lia.
Defined.

(* ================================================================== *)
(** * The cumulated yield *)
(* ================================================================== *)

Lemma Qsum_nonneg (l : list Q) :
  Forall (fun q => (0 <= q)%Q) l -> (0 <= Qsum l)%Q.
Proof.
  unfold Qsum. induction 1 as [|q l Hq _ IH]; simpl; lra.
Qed.

Lemma nth_nonneg (xs : list Q) (k : nat) :
  Forall (fun q => (0 <= q)%Q) xs -> (0 <= nth k xs 0)%Q.
Proof.
  intro H. revert k. induction H as [|x xs Hx _ IH]; intros [|k]; simpl;
    try lra; auto.
Qed.

Lemma correlate_cells_nonneg (xs ws : list Q) :
  Forall (fun w => (0 <= w)%Q) ws -> Forall (fun q => (0 <= q)%Q) xs ->
  Forall (fun q => (0 <= q)%Q) (correlate_cells xs ws).
Proof.
  intros Hw Hx. unfold correlate_cells. apply Forall_forall.
  intros q Hq. apply in_map_iff in Hq. destruct Hq as (i & <- & _).
  rewrite fold_left_Qplus, Qplus_0_l. apply Qsum_nonneg.
  apply Forall_forall. intros t Ht. apply in_map_iff in Ht.
  destruct Ht as ([j w] & <- & Hjw).
  apply Qmult_le_0_compat.
  - rewrite Forall_forall in Hw. apply Hw. eapply in_combine_r; eauto.
  - unfold reflected. now apply nth_nonneg.
Qed.

(** The Gaussian filter of a finite non-negative input: non-negative,
    with the same total. *)
Lemma gaussian_filter1d_nonneg (exp : float -> float) (xs : list Q) (sigma : nat) :
  exp_positive exp -> (1 <= sigma)%nat ->
  Forall (fun q => (0 <= q)%Q) xs ->
  exists os,
    gaussian_filter1d exp (map Fin xs) sigma = Ok (map Fin os) /\
    length os = length xs /\ Forall (fun q => (0 <= q)%Q) os /\
    (Qsum os == Qsum xs)%Q.
Proof.
  intros Hexp Hs Hx.
  destruct (@gaussian_filter1d_total exp xs sigma Hexp Hs) as (os & Hos & Hlen & Htot).
  destruct (gaussian_filter1d_cells Hexp Hs) as (ks & Hks & Hcells).
  exists os. split; [exact Hos|]. split; [exact Hlen|]. split; [|exact Htot].
  assert (E : os = correlate_cells xs ks).
  { apply map_Fin_inj. specialize (Hcells xs). congruence. }
  rewrite E. now apply correlate_cells_nonneg.
Qed.

Lemma cumsum_from_Fin (ys : list Q) : forall acc,
  cumsum_from (Fin acc) (map Fin ys) = map Fin (running_totals acc ys).
Proof.
  induction ys as [|y ys IH]; intro acc; [reflexivity|].
  cbn [map cumsum_from running_totals]. cbn [fadd]. now rewrite IH.
Qed.

Lemma running_totals_spec (ys : list Q) :
  Forall (fun q => (0 <= q)%Q) ys -> forall acc,
  StronglySorted Qle (acc :: running_totals acc ys) /\
  Forall (fun c => (c <= acc + Qsum ys)%Q) (acc :: running_totals acc ys) /\
  (last (running_totals acc ys) acc == acc + Qsum ys)%Q.
Proof.
  induction 1 as [|y ys Hy Hys IH]; intro acc.
  - cbn [running_totals]. unfold Qsum. simpl. repeat split.
    + repeat constructor.
    + constructor; [lra | constructor].
    + lra.
  - cbn [running_totals]. change (Qsum (y :: ys)) with (y + Qsum ys)%Q.
    destruct (IH (acc + y)%Q) as (Hs & Hb & Hl). split; [|split].
    + constructor; [exact Hs|].
      inversion Hs as [|? ? _ Hall]; subst.
      constructor; [lra|]. eapply Forall_impl; [|exact Hall]. simpl. intros; lra.
    + constructor.
      * pose proof (Qsum_nonneg Hys). lra.
      * eapply Forall_impl; [|exact Hb]. simpl. intros; lra.
    + destruct (running_totals (acc + y) ys) as [|c cs] eqn:E.
      * simpl in *. lra.
      * change (last ((acc + y)%Q :: c :: cs) acc) with (last (c :: cs) acc).
        rewrite (last_cons_indep cs c acc (acc + y)%Q). rewrite Hl. lra.
Qed.

(** With a range that covers the sample, the curve [_smooth_data]
    returns is finite and non-negative, and the area under it is
    [len(data)]. *)
Lemma smooth_data_range_curve
      (exp : float -> float) (npoints sigma : nat) (V : list float) (a b : Q) :
  exp_positive exp -> (2 <= npoints)%nat -> (1 <= sigma)%nat ->
  Forall (fun v => isreal_or_nan v = true) V -> dropna V <> [] ->
  (a < b)%Q ->
  (forall q, In (Fin q) V -> (a <= q)%Q /\ (q <= b)%Q) ->
  exists xs ys,
    _smooth_data exp npoints sigma V (Some (Fin a)) (Some (Fin b))
      = Ok (map Fin xs, map Fin ys) /\
    length ys = (npoints - 1)%nat /\
    Forall (fun y => (0 <= y)%Q) ys /\
    (Qsum ys * ((b - a) / inject_Z (Z.of_nat (npoints - 1)))
     == inject_Z (Z.of_nat (length V)))%Q.
Proof.
  intros Hexp Hn Hs Hreal Hne Hab Hrange.
  destruct (@range_histogram npoints V a b Hn Hreal Hne Hab Hrange)
    as (xs & ds & Hxs & Hd & Hlx & Hld & Hpos & Hmass).
  pose proof (@linspace_widths a b npoints xs Hn Hxs) as Hw.
  set (step := ((b - a) / inject_Z (Z.of_nat (npoints - 1)))%Q) in *.
  rewrite (@Qsum_combine_const step (diff Qminus xs) Hw ds) in Hmass
    by (rewrite length_diff; lia).
  set (N := inject_Z (Z.of_nat (length V))).
  assert (HN : (0 <= N)%Q).
  { unfold N. change 0%Q with (inject_Z 0). rewrite <- Zle_Qle. lia. }
  assert (Hin : map (fun c => (c * of_nat (length V))%float) (map Fin ds)
                = map Fin (map (fun d => (d * N)%Q) ds)).
  { rewrite !map_map. apply map_ext. intro d. reflexivity. }
  assert (Hcounts : Forall (fun q => (0 <= q)%Q) (map (fun d => (d * N)%Q) ds)).
  { apply Forall_forall. intros q Hq. apply in_map_iff in Hq.
    destruct Hq as (d & <- & Hd'). rewrite Forall_forall in Hpos.
    apply Qmult_le_0_compat; [now apply Hpos | exact HN]. }
  destruct (@gaussian_filter1d_nonneg exp (map (fun d => (d * N)%Q) ds) sigma
              Hexp Hs Hcounts)
    as (ys & Hys & Hly & Hyp & Htot).
  exists (tl xs), ys.
  split; [|split; [|split]].
  - unfold _smooth_data. cbn [bind]. rewrite Hxs, Hd. cbn [bind].
    rewrite Hin, Hys. cbn [bind]. now rewrite tl_map.
  - rewrite Hly, length_map. exact Hld.
  - exact Hyp.
  - rewrite Htot.
    assert (E : (Qsum (map (fun d => d * N) ds) == N * Qsum ds)%Q).
    { rewrite <- (map_id ds) at 2. rewrite <- Qsum_scale.
      apply Qsum_ext. intros; ring. }
    rewrite E, <- Qmult_assoc, Hmass. ring.
Qed.

(** The cumulated sums of a finite non-negative sequence: finite, never
    decreasing, and their largest value is the total. *)
Lemma np_cumsum_nonneg (y0 : Q) (ys : list Q) :
  Forall (fun y => (0 <= y)%Q) (y0 :: ys) ->
  exists cs ymax,
    np_cumsum (map Fin (y0 :: ys)) = map Fin cs /\
    length cs = length (y0 :: ys) /\
    Forall (fun c => (0 <= c)%Q) cs /\
    StronglySorted Qle cs /\
    py_max (map Fin cs) = Ok (Fin ymax) /\
    (ymax == Qsum (y0 :: ys))%Q.
Proof.
  intro H. inversion H as [|? ? Hy0 Hys]; subst.
  destruct (running_totals_spec Hys y0) as (Hsorted & Hbound & Hlast).
  destruct (py_max_Fin y0 (running_totals y0 ys)) as (m & Hm & Hin & Hge).
  exists (y0 :: running_totals y0 ys), m.
  split; [|split; [|split; [|split; [|split]]]].
  - cbn [map np_cumsum]. now rewrite cumsum_from_Fin.
  - cbn [length]. f_equal.
    rewrite <- (length_map Fin), <- cumsum_from_Fin, length_cumsum_from.
    now rewrite length_map.
  - inversion Hsorted as [|? ? _ Hall]; subst.
    constructor; [exact Hy0|]. eapply Forall_impl; [|exact Hall].
    simpl. intros; lra.
  - exact Hsorted.
  - exact Hm.
  - change (Qsum (y0 :: ys)) with (y0 + Qsum ys)%Q.
    apply Qle_antisym.
    + rewrite Forall_forall in Hbound. now apply Hbound.
    + rewrite <- Hlast. apply Hge.
      destruct (running_totals y0 ys) as [|c cs] eqn:E; [now left|].
      right. rewrite (last_cons_indep cs c y0 c).
      change (In (last (c :: cs) c) (c :: cs)).
      destruct (exists_last (l := c :: cs) ltac:(discriminate)) as (l' & z & ->).
      rewrite last_last. apply in_or_app. right. now left.
Qed.


